(** * PostgresStore: a shallow embedding of
      [langgraph/store/postgres/base.py]

    The development follows the layout of the Python module: the
    primitives of the Python runtime the module relies on ([str.split],
    [str.join], [int], [str], [json.dumps], insertion-ordered
    dictionaries), the namespace codec, the path extractor, the filter and
    batch query compilers, the batch executor and the migration runner.
    Theorems come after all definitions.

    Python strings are modelled by [string]: a character is a code point
    below 256.  Resource limits of the interpreter (recursion depth, the
    digit limit of int/str conversion) are outside the model. *)

From Stdlib Require Import ZArith Lia Ascii.
From Stdlib Require String.
From stdpp Require Import base tactics option list sets strings pretty.

(** ** Results of fallible code *)

(** The exceptions the module raises or catches.  [DbError] stands for any
    other exception coming out of the database driver. *)
Inductive exn :=
| ValueError (msg : string)
| IndexError
| TypeError (msg : string)
| UndefinedTable
| DbError (msg : string).

Inductive result (A : Type) :=
| Ok (a : A)
| Raise (e : exn).
Arguments Ok {A} a.
Arguments Raise {A} e.

Global Instance result_ret : MRet result := fun A a => Ok a.

Global Instance result_bind : MBind result := fun A B k r =>
  match r with
  | Ok a => k a
  | Raise e => Raise e
  end.

(** [try: body except (ValueError, IndexError): handler] *)
Definition try_except_value_index {A} (body : result A) (handler : result A)
  : result A :=
  match body with
  | Raise (ValueError _) => handler
  | Raise IndexError => handler
  | other => other
  end.


(** [for x in xs: results.extend(f(x))] *)
Fixpoint extend_each {A B} (f : A -> result (list B)) (xs : list A)
  (results : list B) : result (list B) :=
  match xs with
  | [] => Ok results
  | x :: xs' =>
      match f x with
      | Ok r => extend_each f xs' (results ++ r)
      | Raise e => Raise e
      end
  end.

(** ** Python string primitives *)
Module Py.

(** [sep.join(parts)] *)
Fixpoint join (sep : string) (parts : list string) : string :=
  match parts with
  | [] => ""
  | [p] => p
  | p :: rest => p +:+ sep +:+ join sep rest
  end.

(** [s.split(c)] for a one-character separator: the pieces between the
    occurrences of [c]; never an empty list. *)
Fixpoint split (c : ascii) (s : string) : list string :=
  match s with
  | "" => [""]
  | String a s' =>
      if decide (a = c) then "" :: split c s'
      else match split c s' with
           | piece :: rest => String a piece :: rest
           | [] => [String a ""]
           end
  end.

(** [c in s] for a character *)
Fixpoint contains (c : ascii) (s : string) : bool :=
  match s with
  | "" => false
  | String a s' => if decide (a = c) then true else contains c s'
  end.

(** [s.startswith(p)] is [String.prefix p s]; [s.endswith(p)] compares the
    reversed strings. *)
Definition startswith (s p : string) : bool := String.prefix p s.
Definition endswith (s p : string) : bool :=
  String.prefix (String.rev p) (String.rev s).

(** [s[1:]] *)
Definition drop_first (s : string) : string :=
  match s with
  | "" => ""
  | String _ s' => s'
  end.

(** [s[:-1]] *)
Fixpoint drop_last (s : string) : string :=
  match s with
  | "" => ""
  | String a "" => ""
  | String a s' => String a (drop_last s')
  end.

(** [s[1:-1]] *)
Definition slice_1_m1 (s : string) : string := drop_last (drop_first s).

(** The characters [str.isspace] accepts, among the code points below 256. *)
Definition isspace (a : ascii) : bool :=
  let n := nat_of_ascii a in
  (((9 <=? n) && (n <=? 13)) || ((28 <=? n) && (n <=? 32))
   || (n =? 133) || (n =? 160))%nat.

Fixpoint lstrip (s : string) : string :=
  match s with
  | "" => ""
  | String a s' => if isspace a then lstrip s' else s
  end.

(** [s.strip()] *)
Definition strip (s : string) : string :=
  String.rev (lstrip (String.rev (lstrip s))).

Definition digit_of (a : ascii) : option Z :=
  let n := nat_of_ascii a in
  if ((48 <=? n) && (n <=? 57))%nat then Some (Z.of_nat (n - 48)) else None.

(** The digits of an integer literal after the sign: digits with single
    underscores between them.  [acc] is the value read so far,
    [after_digit] tells whether the previous character was a digit. *)
Fixpoint int_digits (s : string) (acc : Z) (after_digit : bool) : option Z :=
  match s with
  | "" => if after_digit then Some acc else None
  | String a s' =>
      match digit_of a with
      | Some d => int_digits s' (10 * acc + d) true
      | None =>
          if decide (a = "_"%char)
          then if after_digit then int_digits s' acc false else None
          else None
      end
  end.

(** The white space [int] skips around a literal: the ASCII white space of
    its parser and, among the code points above the ASCII range, the
    Unicode white space, which [int] first turns into spaces.  The
    separators U+001C to U+001F, which [str.isspace] accepts, are not
    skipped. *)
Definition int_space (a : ascii) : bool :=
  let n := nat_of_ascii a in
  (((9 <=? n) && (n <=? 13)) || (n =? 32) || (n =? 133) || (n =? 160))%nat.

Fixpoint int_lstrip (s : string) : string :=
  match s with
  | "" => ""
  | String a s' => if int_space a then int_lstrip s' else s
  end.

Definition int_strip (s : string) : string :=
  String.rev (int_lstrip (String.rev (int_lstrip s))).

(** The number of digits of a literal, its underscores apart *)
Fixpoint int_digit_count (s : string) : nat :=
  match s with
  | "" => 0
  | String a s' =>
      match digit_of a with
      | Some _ => S (int_digit_count s')
      | None => int_digit_count s'
      end
  end.

(** The default of [sys.get_int_max_str_digits()] *)
Definition INT_MAX_STR_DIGITS : nat := 4300.

(** [int(s)]: surrounding white space, an optional sign, decimal digits;
    [ValueError] otherwise, and for a literal of more digits than the
    interpreter converts by default. *)
Definition int (s : string) : result Z :=
  let t := int_strip s in
  let '(negative, digits) :=
    match t with
    | String "-"%char t' => (true, t')
    | String "+"%char t' => (false, t')
    | _ => (false, t)
    end in
  match int_digits digits 0 false with
  | Some z =>
      if (INT_MAX_STR_DIGITS <? int_digit_count digits)%nat
      then Raise (ValueError "Exceeds the limit (4300 digits) for integer string conversion")
      else Ok (if negative : bool then (- z)%Z else z)
  | None => Raise (ValueError "invalid literal for int() with base 10")
  end.

(** [l[i]] for a list and a non-negative or negative index *)
Definition getitem {A} (l : list A) (i : Z) : result A :=
  let i' := if (i <? 0)%Z then (Z.of_nat (length l) + i)%Z else i in
  if (i' <? 0)%Z then Raise IndexError
  else match l !! Z.to_nat i' with
       | Some x => Ok x
       | None => Raise IndexError
       end.

End Py.

(** ** Insertion-ordered dictionaries

    A Python [dict] keeps its keys in the order of their first insertion;
    the module iterates over dictionaries, so they are association lists
    without duplicate keys. *)
Module Dict.
Section dict.
Context {K V : Type} `{EqDecision K}.

Definition dict := list (K * V).

(** [d.get(k)] *)
Fixpoint get (d : dict) (k : K) : option V :=
  match d with
  | [] => None
  | (k', v) :: d' => if decide (k' = k) then Some v else get d' k
  end.

(** [k in d] *)
Definition mem (d : dict) (k : K) : bool := bool_decide (is_Some (get d k)).

(** [d[k] = v]: overwrite in place, or append a new key *)
Fixpoint set (d : dict) (k : K) (v : V) : dict :=
  match d with
  | [] => [(k, v)]
  | (k', v') :: d' =>
      if decide (k' = k) then (k', v) :: d' else (k', v') :: set d' k v
  end.

Definition keys (d : dict) : list K := d.*1.
Definition values (d : dict) : list V := d.*2.

End dict.

(** [d[k].append(x)] on a [defaultdict(list)] *)
Definition append_to {K X} `{EqDecision K} (d : list (K * list X)) (k : K) (x : X)
  : list (K * list X) :=
  set d k (default [] (get d k) ++ [x]).

Arguments dict : clear implicits.
End Dict.

(** One step of a grouping loop over a [defaultdict(list)]: the entry [x]
    goes to the group of its key. *)
Definition group_step {K X Y} `{EqDecision K} (key : X -> K) (val : X -> Y)
  (groups : list (K * list Y)) (x : X) : list (K * list Y) :=
  Dict.append_to groups (key x) (val x).

(** ** Namespace codec *)

Definition Namespace := list string.

(** [_namespace_to_text] *)
Definition _namespace_to_text (namespace : Namespace) (handle_wildcards : bool)
  : string :=
  let namespace :=
    if handle_wildcards
    then (fun val => if decide (val = "*") then "%" else val) <$> namespace
    else namespace in
  Py.join "." namespace.

(** What a driver hands back for a namespace column: text, an array that
    is already split, or bytes.  Bytes are given by the text they decode
    to, [NsBytes decoded] standing for the bytes of which
    [namespace.decode()] is [decoded]; bytes that are not the encoding of
    a text, on which [decode] raises, are not represented. *)
Inductive NsCell :=
| NsStr (s : string)
| NsBytes (decoded : string)
| NsList (l : list string).

(** [_decode_ns_bytes]; for bytes, [namespace.decode()[1:]] drops the
    first character of the decoded text. *)
Definition _decode_ns_bytes (namespace : NsCell) : Namespace :=
  match namespace with
  | NsList l => l
  | NsBytes decoded => Py.split "."%char (Py.drop_first decoded)
  | NsStr s => Py.split "."%char s
  end.

(** ** Semi-structured values *)

(** A Python [float], by the decimal numeral that [repr] prints for it:
    [Float u p] is the numeral of value [u / 10^(p+1)], printed with [p+1]
    fractional digits ([Float 32 0] is [3.2], [Float 30 0] is [3.0]).
    Floats whose [repr] is in exponent notation, infinities and NaN are not
    represented. *)
Inductive pyfloat := Float (unscaled : Z) (extra_places : nat).

(** Values as the store holds them: what [json.loads] produces.  Python's
    [None] is [JNull]; a [dict] keeps insertion order. *)
#[local] Set Warnings "-register-all".
Inductive json :=
| JNull
| JBool (b : bool)
| JInt (n : Z)
| JFloat (f : pyfloat)
| JStr (s : string)
| JList (l : list json)
| JDict (d : list (string * json)).

Module PyStr.

Fixpoint zeros (n : nat) : string :=
  match n with
  | 0 => ""
  | S n' => "0" +:+ zeros n'
  end.

Definition zero_pad (width : nat) (digits : string) : string :=
  zeros (width - String.length digits) +:+ digits.

(** [repr(f)] for a float *)
Definition float_repr (f : pyfloat) : string :=
  let '(Float u p) := f in
  let scale := (10 ^ Z.of_nat (S p))%Z in
  let a := Z.abs u in
  (if (u <? 0)%Z then "-" else "")
  +:+ pretty (a / scale)%Z +:+ "." +:+ zero_pad (S p) (pretty (a mod scale)%Z).

Definition hex_digit (n : nat) : ascii :=
  if (n <? 10)%nat then ascii_of_nat (48 + n) else ascii_of_nat (87 + n).

Definition hex2 (a : ascii) : string :=
  let n := nat_of_ascii a in
  String (hex_digit (n / 16)) (String (hex_digit (n mod 16)) "").

(** [str.isprintable] on one character, for code points below 256 *)
Definition isprintable (a : ascii) : bool :=
  let n := nat_of_ascii a in
  (((32 <=? n) && (n <=? 126)) || ((161 <=? n) && negb (n =? 173)))%nat.

Definition repr_char (quote : ascii) (a : ascii) : string :=
  if decide (a = "\"%char) then "\\"
  else if decide (a = quote) then String "\"%char (String a "")
  else if decide (a = "009"%char) then "\t"
  else if decide (a = "010"%char) then "\n"
  else if decide (a = "013"%char) then "\r"
  else if isprintable a then String a ""
  else "\x" +:+ hex2 a.

Fixpoint concat_map (f : ascii -> string) (s : string) : string :=
  match s with
  | "" => ""
  | String a s' => f a +:+ concat_map f s'
  end.

(** [repr(s)] for a string: single quotes unless the text has a single
    quote and no double quote *)
Definition str_repr (s : string) : string :=
  let quote :=
    if Py.contains "'"%char s && negb (Py.contains "034"%char s)
    then "034"%char else "'"%char in
  String quote (concat_map (repr_char quote) s) +:+ String quote "".

(** [repr(obj)] *)
Fixpoint repr (obj : json) : string :=
  match obj with
  | JNull => "None"
  | JBool true => "True"
  | JBool false => "False"
  | JInt n => pretty n
  | JFloat f => float_repr f
  | JStr s => str_repr s
  | JList l => "[" +:+ Py.join ", " (map repr l) +:+ "]"
  | JDict d =>
      "{" +:+ Py.join ", "
                (map (fun kv => let '(k, v) := kv in str_repr k +:+ ": " +:+ repr v) d)
      +:+ "}"
  end.

(** [str(obj)] *)
Definition str (obj : json) : string :=
  match obj with
  | JStr s => s
  | other => repr other
  end.

End PyStr.

Module Json.

(** The escape of one character in [json.dumps] with [ensure_ascii] *)
Definition escape_char (a : ascii) : string :=
  if decide (a = "034"%char) then String "\"%char (String "034"%char "")
  else if decide (a = "\"%char) then "\\"
  else if decide (a = "010"%char) then "\n"
  else if decide (a = "013"%char) then "\r"
  else if decide (a = "009"%char) then "\t"
  else if decide (a = "008"%char) then "\b"
  else if decide (a = "012"%char) then "\f"
  else
    let n := nat_of_ascii a in
    if ((32 <=? n) && (n <=? 126))%nat then String a ""
    else "\u00" +:+ PyStr.hex2 a.

Definition dumps_str (s : string) : string :=
  String "034"%char (PyStr.concat_map escape_char s) +:+ String "034"%char "".

(** Insertion of a rendered item into a list sorted by key *)
Fixpoint insert_sorted (item : string * string) (sorted : list (string * string))
  : list (string * string) :=
  match sorted with
  | [] => [item]
  | item' :: rest =>
      if String.leb item.1 item'.1 then item :: sorted
      else item' :: insert_sorted item rest
  end.

Definition sort_items (items : list (string * string)) : list (string * string) :=
  foldr insert_sorted [] items.

(** [json.dumps(obj, sort_keys=True)].  The items of a dictionary are
    rendered and then ordered by key, which gives the text of rendering
    them in key order. *)
Fixpoint dumps (obj : json) : string :=
  match obj with
  | JNull => "null"
  | JBool true => "true"
  | JBool false => "false"
  | JInt n => pretty n
  | JFloat f => PyStr.float_repr f
  | JStr s => dumps_str s
  | JList l => "[" +:+ Py.join ", " (map dumps l) +:+ "]"
  | JDict d =>
      "{" +:+ Py.join ", "
                (map (fun kv : string * string => dumps_str kv.1 +:+ ": " +:+ kv.2)
                   (sort_items (map (fun kv => let '(k, v) := kv in (k, dumps v)) d)))
      +:+ "}"
  end.

(** [json.dumps(obj)]: the items of a dictionary in the order of the
    dictionary. *)
Fixpoint dumps_unsorted (obj : json) : string :=
  match obj with
  | JNull => "null"
  | JBool true => "true"
  | JBool false => "false"
  | JInt n => pretty n
  | JFloat f => PyStr.float_repr f
  | JStr s => dumps_str s
  | JList l => "[" +:+ Py.join ", " (map dumps_unsorted l) +:+ "]"
  | JDict d =>
      "{" +:+ Py.join ", "
                (map (fun kv => let '(k, v) := kv in
                                dumps_str k +:+ ": " +:+ dumps_unsorted v) d)
      +:+ "}"
  end.

End Json.

(** ** Path extractor *)

(** Where the scanner of [_tokenize_path] is: in the main loop, or in one of
    the inner loops that capture a bracket or a brace group. *)
Inductive scan_mode :=
| Outside
| InBracket (bracket_count : nat) (index_chars : string)
| InBrace (brace_count : nat) (field_chars : string).

(** [if current: tokens.append(''.join(current))] *)
Definition flush (current : string) (tokens : list string) : list string :=
  if decide (current = "") then tokens else tokens ++ [current].

Definition push (chars : string) (c : ascii) : string := chars +:+ String c "".

(** The loops of [_tokenize_path] over the rest of the path.  An inner loop
    runs while there is input and its counter is positive, appending every
    character it reads, the closing one included; the group is a token when
    the loop stops. *)
Fixpoint tokenize_scan (path : string) (mode : scan_mode) (current : string)
  (tokens : list string) : list string :=
  match path with
  | "" =>
      match mode with
      | Outside => flush current tokens
      | InBracket _ index_chars => tokens ++ [index_chars]
      | InBrace _ field_chars => tokens ++ [field_chars]
      end
  | String char rest =>
      match mode with
      | Outside =>
          if decide (char = "["%char)
          then tokenize_scan rest (InBracket 1 "[") "" (flush current tokens)
          else if decide (char = "{"%char)
          then tokenize_scan rest (InBrace 1 "{") "" (flush current tokens)
          else if decide (char = "."%char)
          then tokenize_scan rest Outside "" (flush current tokens)
          else tokenize_scan rest Outside (push current char) tokens
      | InBracket bracket_count index_chars =>
          let bracket_count :=
            if decide (char = "["%char) then S bracket_count
            else if decide (char = "]"%char) then pred bracket_count
            else bracket_count in
          let index_chars := push index_chars char in
          match bracket_count with
          | 0 => tokenize_scan rest Outside "" (tokens ++ [index_chars])
          | S _ => tokenize_scan rest (InBracket bracket_count index_chars) "" tokens
          end
      | InBrace brace_count field_chars =>
          let brace_count :=
            if decide (char = "{"%char) then S brace_count
            else if decide (char = "}"%char) then pred brace_count
            else brace_count in
          let field_chars := push field_chars char in
          match brace_count with
          | 0 => tokenize_scan rest Outside "" (tokens ++ [field_chars])
          | S _ => tokenize_scan rest (InBrace brace_count field_chars) "" tokens
          end
      end
  end.

(** [_tokenize_path] *)
Definition _tokenize_path (path : string) : list string :=
  if decide (path = "") then [] else tokenize_scan path Outside "" [].

(** The walk of one field of a [{..}] token: [current_obj] after the loop
    over [nested_tokens]; [None] (here [JNull]) as soon as a token is not a
    key of a dictionary. *)
Fixpoint walk_nested (current_obj : json) (nested_tokens : list string) : json :=
  match nested_tokens with
  | [] => current_obj
  | nested_token :: more =>
      match current_obj with
      | JDict d =>
          match Dict.get d nested_token with
          | Some v => walk_nested v more
          | None => JNull
          end
      | _ => JNull
      end
  end.

(** What one field of a [{..}] token appends to [results] *)
Definition field_fragments (obj : json) (field : string) : list string :=
  let nested_tokens := _tokenize_path field in
  match nested_tokens with
  | [] => []
  | _ :: _ =>
      match walk_nested obj nested_tokens with
      | JNull => []
      | (JStr _ | JInt _ | JFloat _ | JBool _) as current_obj =>
          [PyStr.str current_obj]
      | (JList _ | JDict _) as current_obj => [Json.dumps current_obj]
      end
  end.

(** [[f.strip() for f in token[1:-1].split(",")]] *)
Definition brace_fields (token : string) : list string :=
  Py.strip <$> Py.split ","%char (Py.slice_1_m1 token).

Definition is_bracket_token (token : string) : bool :=
  Py.startswith token "[" && Py.endswith token "]".

Definition is_brace_token (token : string) : bool :=
  Py.startswith token "{" && Py.endswith token "}".

(** [_extract_from_obj(obj, tokens, pos)], on the tokens from [pos] on: the
    source only ever reads [tokens[pos]] and recurses at [pos + 1]. *)
Fixpoint _extract_from_obj (tokens : list string) (obj : json)
  : result (list string) :=
  match tokens with
  | [] =>
      match obj with
      | JStr _ | JInt _ | JFloat _ | JBool _ => Ok [PyStr.str obj]
      | JNull => Ok []
      | JList _ | JDict _ => Ok [Json.dumps obj]
      end
  | token :: rest =>
      if is_bracket_token token then
        match obj with
        | JList l =>
            let index := Py.slice_1_m1 token in
            if decide (index = "*")
            then extend_each (_extract_from_obj rest) l []
            else
              try_except_value_index
                (idx ← Py.int index;
                 let idx :=
                   if (idx <? 0)%Z then (Z.of_nat (length l) + idx)%Z else idx in
                 if ((0 <=? idx) && (idx <? Z.of_nat (length l)))%Z
                 then item ← Py.getitem l idx;
                      _extract_from_obj rest item
                 else Ok [])
                (Ok [])
        | _ => Ok []
        end
      else if is_brace_token token then
        match obj with
        | JDict _ => Ok (flat_map (field_fragments obj) (brace_fields token))
        | _ => Ok []
        end
      else if decide (token = "*") then
        match obj with
        | JDict d => extend_each (_extract_from_obj rest) (Dict.values d) []
        | JList l => extend_each (_extract_from_obj rest) l []
        | _ => Ok []
        end
      else
        match obj with
        | JDict d =>
            match Dict.get d token with
            | Some v => _extract_from_obj rest v
            | None => Ok []
            end
        | _ => Ok []
        end
  end.

(** [_extract_text_by_path] *)
Definition _extract_text_by_path (obj : json) (path : string)
  : result (list string) :=
  if bool_decide (path = "") || bool_decide (path = "__root__")
  then Ok [Json.dumps obj]
  else _extract_from_obj (_tokenize_path path) obj.

(** ** Operations, rows and results *)

Record GetOp := {
  get_namespace : Namespace;
  get_key : string
}.

(** [value = None] asks for the deletion of the key. *)
Record PutOp := {
  put_namespace : Namespace;
  put_key : string;
  put_value : option (list (string * json))
}.

Record SearchOp := {
  namespace_prefix : Namespace;
  filter : option (list (string * json));
  limit : Z;
  offset : Z;
  query : option string
}.

Record MatchCondition := {
  match_type : string;
  path : Namespace
}.

Record ListNamespacesOp := {
  match_conditions : option (list MatchCondition);
  max_depth : option Z;
  ln_limit : Z;
  ln_offset : Z
}.

Inductive Op :=
| Get (op : GetOp)
| Put (op : PutOp)
| Search (op : SearchOp)
| ListNamespaces (op : ListNamespacesOp).

(** [type(op)] *)
Inductive OpType := GetOpT | PutOpT | SearchOpT | ListNamespacesOpT.

Global Instance OpType_eq_dec : EqDecision OpType.
Proof. solve_decision. Defined.

Definition type_of (op : Op) : OpType :=
  match op with
  | Get _ => GetOpT
  | Put _ => PutOpT
  | Search _ => SearchOpT
  | ListNamespaces _ => ListNamespacesOpT
  end.

Definition Vector := list pyfloat.

(** A value bound to a [%s] placeholder of a statement *)
Inductive Param :=
| PNone
| PStr (s : string)
| PInt (n : Z)
| PJsonb (v : json)
| PVector (v : Vector).

Definition Query : Type := string * list Param.

(** The [value] column as the driver returns it: an decoded dictionary,
    or raw content for the loader. *)
Inductive ValueCell :=
| Loaded (d : list (string * json))
| RawContent (content : string).

(** A fetched row, by the columns the module reads from it.  [row_score]
    is [None] when the row has no [score] column. *)
Record Row := {
  row_key : string;
  row_value : ValueCell;
  row_prefix : NsCell;
  row_created_at : Z;
  row_updated_at : Z;
  row_score : option pyfloat;
  row_truncated_prefix : NsCell;
  row_v : Z
}.

Inductive ItemClass := ItemCls | SearchItemCls.

(** [Item] and [SearchItem]: [response_metadata] holds the score of a
    search item when the row has one. *)
Record Item := {
  item_cls : ItemClass;
  item_key : string;
  item_namespace : Namespace;
  item_value : json;
  item_created_at : Z;
  item_updated_at : Z;
  response_metadata : option pyfloat
}.

Inductive Result :=
| RNone
| RItem (item : Item)
| RItems (items : list Item)
| RNamespaces (namespaces : list Namespace).

(** [EmbeddingConfig["text_fields"]]: the key may be missing, hold [None],
    one path or a list of paths. *)
Inductive TextFields :=
| TextFieldsMissing
| TextFieldsNone
| TextFieldsStr (field : string)
| TextFieldsList (fields : list string).

Record EmbeddingConfig := {
  dims : Z;
  embed_documents : list string -> list Vector;
  text_fields : TextFields
}.

(** ** SQL text of the module *)

Definition GET_SQL_HEAD : string :=
  "
                SELECT key, value, created_at, updated_at
                FROM store
                WHERE prefix = %s AND key IN (".

Definition GET_SQL_TAIL : string :=
  ")
            ".

Definition DELETE_SQL_HEAD : string :=
  "DELETE FROM store WHERE prefix = %s AND key IN (".

Definition DELETE_SQL_TAIL : string :=
  ")".

Definition UPSERT_SQL_HEAD : string :=
  "
                INSERT INTO store (prefix, key, value, created_at, updated_at)
                VALUES ".

Definition UPSERT_SQL_TAIL : string :=
  "
                ON CONFLICT (prefix, key) DO UPDATE
                SET value = EXCLUDED.value,
                    updated_at = CURRENT_TIMESTAMP
            ".

Definition VECTOR_UPSERT_SQL_HEAD : string :=
  "
                    INSERT INTO store_vectors (prefix, key, field_name, embedding, created_at, updated_at)
                    VALUES ".

Definition VECTOR_UPSERT_SQL_TAIL : string :=
  "
                    ON CONFLICT (prefix, key, field_name) DO UPDATE
                    SET embedding = EXCLUDED.embedding,
                        updated_at = CURRENT_TIMESTAMP
                ".

Definition SEARCH_SQL : string :=
  "
                SELECT prefix, key, value, created_at, updated_at
                FROM store
                WHERE prefix LIKE %s
            ".

Definition VECTOR_SEARCH_SQL : string :=
  "
                    SELECT s.prefix, s.key, s.value, s.created_at, s.updated_at,
                           1 - (sv.embedding <=> %s::vector) as score
                    FROM store s
                    JOIN store_vectors sv ON s.prefix = sv.prefix AND s.key = sv.key
                    WHERE s.prefix LIKE %s
                ".

Definition LIST_NAMESPACES_SQL : string :=
  "
                SELECT DISTINCT ON (truncated_prefix) truncated_prefix, prefix
                FROM (
                    SELECT
                        prefix,
                        CASE
                            WHEN %s::integer IS NOT NULL THEN
                                (SELECT STRING_AGG(part, '.' ORDER BY idx)
                                 FROM (
                                     SELECT part, ROW_NUMBER() OVER () AS idx
                                     FROM UNNEST(REGEXP_SPLIT_TO_ARRAY(prefix, '\.')) AS part
                                     LIMIT %s::integer
                                 ) subquery
                                )
                            ELSE prefix
                        END AS truncated_prefix
                    FROM store
            ".

Definition VECTOR_AVAILABLE_SQL : string :=
  "
                SELECT 1 FROM pg_available_extensions WHERE name = 'vector'
            ".

Definition LEDGER_SELECT_SQL : string :=
  "SELECT v FROM store_migrations ORDER BY v DESC LIMIT 1".

Definition LEDGER_CREATE_SQL : string :=
  "
                    CREATE TABLE IF NOT EXISTS store_migrations (
                        v INTEGER PRIMARY KEY
                    )
                ".

Definition LEDGER_INSERT_SQL : string :=
  "INSERT INTO store_migrations (v) VALUES (%s)".

Definition MIGRATION_0_SQL : string :=
  "
CREATE TABLE IF NOT EXISTS store (
    -- 'prefix' represents the doc's 'namespace'
    prefix text NOT NULL,
    key text NOT NULL,
    value jsonb NOT NULL,
    created_at TIMESTAMP WITH TIME ZONE DEFAULT CURRENT_TIMESTAMP,
    updated_at TIMESTAMP WITH TIME ZONE DEFAULT CURRENT_TIMESTAMP,
    PRIMARY KEY (prefix, key)
);
".

Definition MIGRATION_1_SQL : string :=
  "
-- For faster lookups by prefix
CREATE INDEX IF NOT EXISTS store_prefix_idx ON store USING btree (prefix text_pattern_ops);
".

Definition MIGRATION_2_SQL : string :=
  "
CREATE EXTENSION IF NOT EXISTS vector;
".

Definition MIGRATION_3_SQL : string :=
  "
CREATE TABLE IF NOT EXISTS store_vectors (
    prefix text NOT NULL,
    key text NOT NULL,
    field_name text NOT NULL,
    embedding vector(%(dims)s),
    created_at TIMESTAMP WITH TIME ZONE DEFAULT CURRENT_TIMESTAMP,
    updated_at TIMESTAMP WITH TIME ZONE DEFAULT CURRENT_TIMESTAMP,
    PRIMARY KEY (prefix, key, field_name),
    FOREIGN KEY (prefix, key) REFERENCES store(prefix, key) ON DELETE CASCADE
);
".

Definition MIGRATION_4_SQL : string :=
  "
CREATE INDEX IF NOT EXISTS store_vectors_embedding_idx ON store_vectors 
    USING ivfflat (embedding vector_cosine_ops);
".

(** ** Filter compiler *)

(** [_get_filter_condition] *)
Definition _get_filter_condition (key op : string) (value : json)
  : result (string * list Param) :=
  if decide (op = "$eq")
  then Ok ("value->%s = %s::jsonb", [PStr key; PStr (Json.dumps_unsorted value)])
  else if decide (op = "$gt")
  then Ok ("value->>%s > %s", [PStr key; PStr (PyStr.str value)])
  else if decide (op = "$gte")
  then Ok ("value->>%s >= %s", [PStr key; PStr (PyStr.str value)])
  else if decide (op = "$lt")
  then Ok ("value->>%s < %s", [PStr key; PStr (PyStr.str value)])
  else if decide (op = "$lte")
  then Ok ("value->>%s <= %s", [PStr key; PStr (PyStr.str value)])
  else if decide (op = "$ne")
  then Ok ("value->%s != %s::jsonb", [PStr key; PStr (Json.dumps_unsorted value)])
  else Raise (ValueError ("Unsupported operator: " +:+ op)).

(** ** Batch query compiler *)

(** [",".join(["%s"] * n)] *)
Definition placeholders (n : nat) : string := Py.join "," (replicate n "%s").

(** The query for the keys of one namespace *)
Definition get_query (namespace : Namespace) (keys : list string) : Query :=
  let keys_to_query := placeholders (length keys) in
  let query := GET_SQL_HEAD +:+ keys_to_query +:+ GET_SQL_TAIL in
  (query, PStr (_namespace_to_text namespace false) :: (PStr <$> keys)).

(** [_get_batch_GET_ops_queries] *)
Definition _get_batch_GET_ops_queries (get_ops : list (nat * GetOp))
  : list (string * list Param * Namespace * list (nat * string)) :=
  let namespace_groups :=
    foldl (group_step (fun entry => get_namespace entry.2)
                      (fun entry => (entry.1, get_key entry.2)))
          [] get_ops in
  (fun '(namespace, items) =>
     let '(query, params) := get_query namespace (items.*2) in
     (query, params, namespace, items)) <$> namespace_groups.

(** The text fields to embed: the [text_fields] entry of the embedding
    configuration, [["__root__"]] by default. *)
Definition configured_text_fields (config : EmbeddingConfig) : list string :=
  match text_fields config with
  | TextFieldsMissing => ["__root__"]
  | TextFieldsStr field => [field]
  | TextFieldsNone => ["__root__"]
  | TextFieldsList fields => fields
  end.

(** [(op.namespace, op.key)] *)
Definition put_address (op : PutOp) : Namespace * string :=
  (put_namespace op, put_key op).

(** Last write wins: [dedupped_ops] of [_prepare_batch_PUT_queries] *)
Definition dedup_put_ops (put_ops : list (nat * PutOp))
  : list (Namespace * string * PutOp) :=
  foldl (fun dedupped_ops '(_, op) => Dict.set dedupped_ops (put_address op) op)
        [] put_ops.

(** [inserts] and [deletes] of [_prepare_batch_PUT_queries], each with the
    dictionary value it carries *)
Definition inserts_of (ops : list PutOp)
  : list (PutOp * list (string * json)) :=
  omap (fun op => (fun v => (op, v)) <$> put_value op) ops.

Definition deletes_of (ops : list PutOp) : list PutOp :=
  base.filter (fun op => put_value op = None) ops.

Definition delete_queries (deletes : list PutOp) : list Query :=
  let namespace_groups :=
    foldl (fun groups op =>
             Dict.append_to groups (put_namespace op) (put_key op))
          [] deletes in
  (fun '(namespace, keys) =>
     let query :=
       DELETE_SQL_HEAD +:+ placeholders (length keys) +:+ DELETE_SQL_TAIL in
     (query, PStr (_namespace_to_text namespace false) :: (PStr <$> keys)))
  <$> namespace_groups.

Definition upsert_query (inserts : list (PutOp * list (string * json))) : Query :=
  let values :=
    (fun _ => "(%s, %s, %s, CURRENT_TIMESTAMP, CURRENT_TIMESTAMP)") <$> inserts in
  let insertion_params :=
    flat_map (fun '(op, value) =>
                [PStr (_namespace_to_text (put_namespace op) false);
                 PStr (put_key op);
                 PJsonb (JDict value)]) inserts in
  (UPSERT_SQL_HEAD +:+ Py.join "," values +:+ UPSERT_SQL_TAIL, insertion_params).

(** The rows of [embedding_request_params] one upserted value gives: for
    every text field, every fragment extracted from the value. *)
Definition embedding_rows_of (fields : list string)
  (insert : PutOp * list (string * json))
  : result (list (string * string * string * string)) :=
  let '(op, value) := insert in
  let ns := _namespace_to_text (put_namespace op) false in
  let k := put_key op in
  extend_each
    (fun field =>
       texts ← _extract_text_by_path (JDict value) field;
       Ok (map (fun text => (ns, k, field, text)) texts))
    fields [].

(** [_prepare_batch_PUT_queries] *)
Definition _prepare_batch_PUT_queries (embedding_config : option EmbeddingConfig)
  (put_ops : list (nat * PutOp))
  : result (list Query * option (string * list (string * string * string * string))) :=
  let dedupped_ops := dedup_put_ops put_ops in
  let inserts := inserts_of (Dict.values dedupped_ops) in
  let deletes := deletes_of (Dict.values dedupped_ops) in
  let queries :=
    match deletes with
    | [] => []
    | _ :: _ => delete_queries deletes
    end in
  match inserts with
  | [] => Ok (queries, None)
  | _ :: _ =>
      (embedding_request_params ←
         match embedding_config with
         | Some config =>
             extend_each (embedding_rows_of (configured_text_fields config))
               inserts []
         | None => Ok []
         end;
       let queries := queries ++ [upsert_query inserts] in
       match embedding_request_params with
       | [] => Ok (queries, None)
       | _ :: _ =>
           let vector_values :=
             (fun _ => "(%s, %s, %s, %s, CURRENT_TIMESTAMP, CURRENT_TIMESTAMP)")
               <$> embedding_request_params in
           let query :=
             VECTOR_UPSERT_SQL_HEAD +:+ Py.join "," vector_values
             +:+ VECTOR_UPSERT_SQL_TAIL in
           Ok (queries, Some (query, embedding_request_params))
       end)
  end.

(** The conditions and parameters one entry of a search filter compiles
    to: one condition per operator of a dictionary value, an equality for
    any other value. *)
Definition filter_entry_conditions (key : string) (value : json)
  : result (list (string * list Param)) :=
  match value with
  | JDict operators =>
      extend_each
        (fun '(op_name, val) =>
           c ← _get_filter_condition key op_name val; Ok [c])
        operators []
  | _ => Ok [("value->%s = %s::jsonb", [PStr key; PStr (Json.dumps_unsorted value)])]
  end.

(** [filter_conditions] with the parameters of each condition, for
    [if op.filter:]: nothing without a filter or for an empty one. *)
Definition filter_conditions (filter : option (list (string * json)))
  : result (list (string * list Param)) :=
  match filter with
  | Some entries =>
      extend_each (fun '(key, value) => filter_entry_conditions key value)
        entries []
  | None => Ok []
  end.

(** [op.query and self.embedding_config]: the query text to embed, when
    the search has a non-empty query and a configuration is set. *)
Definition needs_vector_search (embedding_config : option EmbeddingConfig)
  (op : SearchOp) : option string :=
  match query op, embedding_config with
  | Some q, Some _ => if decide (q = "") then None else Some q
  | _, _ => None
  end.

(** The query of one search operation *)
Definition search_query (embedding_config : option EmbeddingConfig)
  (op : SearchOp) : result (Query * option string) :=
  let prefix_pattern := _namespace_to_text (namespace_prefix op) false +:+ "%" in
  let vector_query := needs_vector_search embedding_config op in
  let '(base_query, params) :=
    match vector_query with
    | Some _ => (VECTOR_SEARCH_SQL, [PNone; PStr prefix_pattern])
    | None => (SEARCH_SQL, [PStr prefix_pattern])
    end in
  (conditions ← filter_conditions (filter op);
   let params := params ++ flat_map snd conditions in
   let base_query :=
     match conditions with
     | [] => base_query
     | _ :: _ => base_query +:+ " AND " +:+ Py.join " AND " (conditions.*1)
     end in
   let order_by :=
     match vector_query with
     | Some _ => "ORDER BY score DESC"
     | None => "ORDER BY updated_at DESC"
     end in
   let base_query := base_query +:+ " " +:+ order_by +:+ " LIMIT %s OFFSET %s" in
   let params := params ++ [PInt (limit op); PInt (offset op)] in
   Ok ((base_query, params), vector_query)).

(** The loop of [_prepare_batch_search_queries] from position [idx] on *)
Fixpoint search_queries_from (embedding_config : option EmbeddingConfig)
  (idx : nat) (search_ops : list (nat * SearchOp))
  : result (list Query * list (nat * string)) :=
  match search_ops with
  | [] => Ok ([], [])
  | (_, op) :: rest =>
      ('(q, vector_query) ← search_query embedding_config op;
       '(queries, embedding_requests) ←
         search_queries_from embedding_config (S idx) rest;
       Ok (q :: queries,
           match vector_query with
           | Some text => (idx, text) :: embedding_requests
           | None => embedding_requests
           end))
  end.

(** [_prepare_batch_search_queries] *)
Definition _prepare_batch_search_queries
  (embedding_config : option EmbeddingConfig) (search_ops : list (nat * SearchOp))
  : result (list Query * list (nat * string)) :=
  search_queries_from embedding_config 0 search_ops.

Definition param_of_depth (max_depth : option Z) : Param :=
  match max_depth with
  | Some n => PInt n
  | None => PNone
  end.

(** The query of one [ListNamespacesOp]; an unknown match type only logs a
    warning. *)
Definition list_namespaces_query (op : ListNamespacesOp) : Query :=
  let params := [param_of_depth (max_depth op); param_of_depth (max_depth op)] in
  let patterns :=
    flat_map
      (fun condition =>
         if decide (match_type condition = "prefix")
         then [_namespace_to_text (path condition) true +:+ "%"]
         else if decide (match_type condition = "suffix")
         then ["%" +:+ _namespace_to_text (path condition) true]
         else [])
      (default [] (match_conditions op)) in
  let conditions := (fun _ => "prefix LIKE %s") <$> patterns in
  let params := params ++ (PStr <$> patterns) in
  let query :=
    match conditions with
    | [] => LIST_NAMESPACES_SQL
    | _ :: _ => LIST_NAMESPACES_SQL +:+ " WHERE " +:+ Py.join " AND " conditions
    end in
  let query := query +:+ ") AS subquery " in
  let query := query +:+ " ORDER BY truncated_prefix LIMIT %s OFFSET %s" in
  (query, params ++ [PInt (ln_limit op); PInt (ln_offset op)]).

(** [_get_batch_list_namespaces_queries] *)
Definition _get_batch_list_namespaces_queries
  (list_ops : list (nat * ListNamespacesOp)) : list Query :=
  (fun '(_, op) => list_namespaces_query op) <$> list_ops.

(** ** The store, its collaborators and the effects of a call *)

(** What a call does to the outside world, in order: a statement sent
    through the cursor, or a call of the embedding function. *)
Inductive Event :=
| Executed (query : string) (params : list Param)
| Embedded (texts : list string).

Section store.
Context {DB : Type}.

(** The collaborators the module reaches through a narrow interface:
    - [execute db query params]: [cur.execute(query, params)] on a
      database in state [db], giving the new state and either the rows
      the cursor then holds or the exception of the driver;
    - [orjson_loads]: [orjson.loads];
    - [percent_format sql params]: the Python expression [sql % params]. *)
Record Runtime := {
  execute : DB -> string -> list Param -> DB * result (list Row);
  orjson_loads : string -> json;
  percent_format : string -> list (string * json) -> result string
}.

(** The fields of a [PostgresStore] the module reads or writes *)
Record PostgresStore := {
  _deserializer : option (string -> json);
  embedding_config : option EmbeddingConfig;
  class_name : string
}.

Record State := {
  self : PostgresStore;
  db : DB;
  log : list Event
}.

(** A computation that may raise and that changes the state up to the
    point where it raises. *)
Definition M (A : Type) : Type := State -> result A * State.

Definition ret {A} (a : A) : M A := fun st => (Ok a, st).

Definition bind {A B} (m : M A) (k : A -> M B) : M B := fun st =>
  match m st with
  | (Ok a, st') => k a st'
  | (Raise e, st') => (Raise e, st')
  end.

Definition raise {A} (e : exn) : M A := fun st => (Raise e, st).

(** A pure computation that may raise *)
Definition lift {A} (r : result A) : M A := fun st => (r, st).

(** [try: body except Exception as e: handler] *)
Definition try_except {A} (body : M A) (handler : exn -> M A) : M A := fun st =>
  match body st with
  | (Ok a, st') => (Ok a, st')
  | (Raise e, st') => handler e st'
  end.

Definition get_self : M PostgresStore := fun st => (Ok (self st), st).

(** [self.embedding_config = None] *)
Definition clear_embedding_config : M unit := fun st =>
  (Ok tt,
   {| self := {| _deserializer := _deserializer (self st);
                 embedding_config := None;
                 class_name := class_name (self st) |};
      db := db st; log := log st |}).

Context (rt : Runtime).

(** [cur.execute(query, params)] followed by reading the rows *)
Definition cur_execute (query : string) (params : list Param) : M (list Row) :=
  fun st =>
    let '(db', rows) := execute rt (db st) query params in
    (rows, {| self := self st; db := db'; log := log st ++ [Executed query params] |}).

(** [config["embed"].embed_documents(texts)] *)
Definition call_embed_documents (config : EmbeddingConfig) (texts : list string)
  : M (list Vector) :=
  fun st =>
    (Ok (embed_documents config texts),
     {| self := self st; db := db st; log := log st ++ [Embedded texts] |}).

(** [for x in xs: acc = body(acc, x)] *)
Fixpoint for_each {A X} (xs : list X) (acc : A) (body : A -> X -> M A) : M A :=
  match xs with
  | [] => ret acc
  | x :: xs' => bind (body acc x) (fun acc' => for_each xs' acc' body)
  end.

(** [_json_loads] *)
Definition _json_loads (content : string) : json := orjson_loads rt content.

(** [_row_to_item] *)
Definition _row_to_item (namespace : Namespace) (row : Row)
  (loader : option (string -> json)) (cls : ItemClass) : Item :=
  let val :=
    match row_value row with
    | Loaded d => JDict d
    | RawContent content => default _json_loads loader content
    end in
  {| item_cls := cls;
     item_key := row_key row;
     item_namespace := namespace;
     item_value := val;
     item_created_at := row_created_at row;
     item_updated_at := row_updated_at row;
     response_metadata :=
       match cls with
       | SearchItemCls => row_score row
       | ItemCls => None
       end |}.

(** [_group_ops] *)
Definition _group_ops (ops : list Op) : list (OpType * list (nat * Op)) * nat :=
  foldl (fun '(grouped_ops, tot) '(idx, op) =>
           (Dict.append_to grouped_ops (type_of op) (idx, op), S tot))
        ([], 0) (imap (fun idx op => (idx, op)) ops).

(** [cast(Sequence[tuple[int, GetOp]], grouped_ops[GetOp])] and its
    siblings: the entries of a group, typed. *)
Definition get_ops_of (group : list (nat * Op)) : list (nat * GetOp) :=
  omap (fun '(idx, op) => match op with Get g => Some (idx, g) | _ => None end) group.
Definition put_ops_of (group : list (nat * Op)) : list (nat * PutOp) :=
  omap (fun '(idx, op) => match op with Put p => Some (idx, p) | _ => None end) group.
Definition search_ops_of (group : list (nat * Op)) : list (nat * SearchOp) :=
  omap (fun '(idx, op) => match op with Search s => Some (idx, s) | _ => None end) group.
Definition list_ops_of (group : list (nat * Op)) : list (nat * ListNamespacesOp) :=
  omap (fun '(idx, op) =>
          match op with ListNamespaces l => Some (idx, l) | _ => None end) group.

(** [{row["key"]: row for row in rows}] *)
Definition key_to_row_of (rows : list Row) : list (string * Row) :=
  foldl (fun key_to_row row => Dict.set key_to_row (row_key row) row) [] rows.

(** [_batch_get_ops]; the list [results] the source updates in place is
    passed in and returned. *)
Definition _batch_get_ops (get_ops : list (nat * GetOp)) (results : list Result)
  : M (list Result) :=
  for_each (_get_batch_GET_ops_queries get_ops) results
    (fun results '(query, params, namespace, items) =>
       bind (cur_execute query params) (fun rows =>
       bind get_self (fun self =>
       let key_to_row := key_to_row_of rows in
       ret (foldl (fun results '(idx, key) =>
                     <[idx := match Dict.get key_to_row key with
                              | Some row =>
                                  RItem (_row_to_item namespace row
                                           (_deserializer self) ItemCls)
                              | None => RNone
                              end]> results)
                  results items)))).

Definition EMBEDDING_REQUIRED (class_name : string) : string :=
  "Embedding configuration is required for vector operations (for semantic search). Please provide an EmbeddingConfig when initializing the "
  +:+ class_name +:+ ".".

(** [_batch_put_ops] *)
Definition _batch_put_ops (put_ops : list (nat * PutOp)) : M unit :=
  bind get_self (fun self =>
  bind (lift (_prepare_batch_PUT_queries (embedding_config self) put_ops))
    (fun '(queries, embedding_request) =>
  bind
    match embedding_request with
    | Some (query, txt_params) =>
        match embedding_config self with
        | None => raise (ValueError (EMBEDDING_REQUIRED (class_name self)))
        | Some config =>
            bind (call_embed_documents config (txt_params.*2))
              (fun vectors =>
                 ret (queries ++
                      map (fun '((ns, key, value, _), vector) =>
                             (query, [PStr ns; PStr key; PStr value; PVector vector]))
                          (zip txt_params vectors)))
        end
    | None => ret queries
    end
    (fun queries =>
  for_each queries tt
    (fun _ '(query, params) => bind (cur_execute query params) (fun _ => ret tt))))).

(** [queries[idx][1][0] = embedding] *)
Definition set_query_vector (queries : list Query) (idx : nat) (embedding : Vector)
  : list Query :=
  match queries !! idx with
  | Some (query, params) => <[idx := (query, <[0 := PVector embedding]> params)]> queries
  | None => queries
  end.

(** [_batch_search_ops] *)
Definition _batch_search_ops (search_ops : list (nat * SearchOp))
  (results : list Result) : M (list Result) :=
  bind get_self (fun self =>
  bind (lift (_prepare_batch_search_queries (embedding_config self) search_ops))
    (fun '(queries, embedding_requests) =>
  bind
    match embedding_requests, embedding_config self with
    | _ :: _, Some config =>
        bind (call_embed_documents config (embedding_requests.*2))
          (fun embeddings =>
             ret (foldl (fun queries '((idx, _), embedding) =>
                           set_query_vector queries idx embedding)
                        queries (zip embedding_requests embeddings)))
    | _, _ => ret queries
    end
    (fun queries =>
  for_each (zip search_ops queries) results
    (fun results '((idx, _), (query, params)) =>
       bind (cur_execute query params) (fun rows =>
       let items :=
         (fun row => _row_to_item (_decode_ns_bytes (row_prefix row)) row
                       (_deserializer self) SearchItemCls) <$> rows in
       ret (<[idx := RItems items]> results)))))).

(** [_batch_list_namespaces_ops] *)
Definition _batch_list_namespaces_ops (list_ops : list (nat * ListNamespacesOp))
  (results : list Result) : M (list Result) :=
  for_each (zip (_get_batch_list_namespaces_queries list_ops) list_ops) results
    (fun results '((query, params), (idx, _)) =>
       bind (cur_execute query params) (fun rows =>
       ret (<[idx := RNamespaces
                        ((fun row => _decode_ns_bytes (row_truncated_prefix row))
                         <$> rows)]> results))).

(** [batch]: reads first, in the order Get, Search, ListNamespaces, then
    the writes. *)
Definition batch (ops : list Op) : M (list Result) :=
  let '(grouped_ops, num_ops) := _group_ops ops in
  let results := replicate num_ops RNone in
  bind
    match Dict.get grouped_ops GetOpT with
    | Some group => _batch_get_ops (get_ops_of group) results
    | None => ret results
    end (fun results =>
  bind
    match Dict.get grouped_ops SearchOpT with
    | Some group => _batch_search_ops (search_ops_of group) results
    | None => ret results
    end (fun results =>
  bind
    match Dict.get grouped_ops ListNamespacesOpT with
    | Some group => _batch_list_namespaces_ops (list_ops_of group) results
    | None => ret results
    end (fun results =>
  bind
    match Dict.get grouped_ops PutOpT with
    | Some group => _batch_put_ops (put_ops_of group)
    | None => ret tt
    end (fun _ =>
  ret results)))).

(** ** Migration runner *)

(** The callables a migration may carry as its [condition]: the module's
    own [check_vector_available], or any other predicate over the store and
    the database. *)
Inductive Condition :=
| check_vector_available_fn
| other_condition (f : PostgresStore -> DB -> bool).

(** A value of [Migration.params]: a callable applied to the store, or a
    constant. *)
Inductive ParamProducer :=
| Callable (f : PostgresStore -> result json)
| Constant (v : json).

Record Migration := {
  sql : string;
  condition : option Condition;
  params : option (list (string * ParamProducer))
}.

(** An entry of [MIGRATIONS]: SQL text or a [Migration] *)
Inductive MigrationEntry :=
| SqlText (text : string)
| MigrationObj (migration : Migration).

(** [lambda store: store.embedding_config["dims"]] *)
Definition dims_producer (store : PostgresStore) : result json :=
  match embedding_config store with
  | Some config => Ok (JInt (dims config))
  | None => Raise (TypeError "'NoneType' object is not subscriptable")
  end.

Definition MIGRATIONS : list MigrationEntry := [
  SqlText MIGRATION_0_SQL;
  SqlText MIGRATION_1_SQL;
  MigrationObj {| sql := MIGRATION_2_SQL;
                  condition := Some check_vector_available_fn;
                  params := None |};
  MigrationObj {| sql := MIGRATION_3_SQL;
                  condition := Some check_vector_available_fn;
                  params := Some [("dims", Callable dims_producer)] |};
  MigrationObj {| sql := MIGRATION_4_SQL;
                  condition := Some check_vector_available_fn;
                  params := None |}
].

(** [check_vector_available] *)
Definition check_vector_available : M bool :=
  bind get_self (fun store =>
  match embedding_config store with
  | None => ret false
  | Some _ =>
      try_except
        (bind (cur_execute VECTOR_AVAILABLE_SQL []) (fun rows =>
         ret (match rows with [] => false | _ :: _ => true end)))
        (fun _ => ret false)
  end).

(** [migration.condition(self)] *)
Definition call_condition (c : Condition) : M bool :=
  match c with
  | check_vector_available_fn => check_vector_available
  | other_condition f => fun st => (Ok (f (self st) (db st)), st)
  end.

(** [migration.condition == check_vector_available] *)
Definition is_check_vector_available (c : option Condition) : bool :=
  match c with
  | Some check_vector_available_fn => true
  | _ => false
  end.

(** [if <vector migration>: self.embedding_config = None] *)
Definition disable_vectors_if (vector_migration : bool) : M unit :=
  if vector_migration then clear_embedding_config else ret tt.

(** The [try] block that runs a migration and records its version; a
    failure disables the vector feature when the migration is guarded by
    [check_vector_available]. *)
Definition run_migration (v : Z) (sql : string) (vector_migration : bool) : M unit :=
  try_except
    (bind (cur_execute sql []) (fun _ =>
     bind (cur_execute LEDGER_INSERT_SQL [PInt v]) (fun _ => ret tt)))
    (fun _ => disable_vectors_if vector_migration).

(** [{k: v(self) if v is not None and callable(v) else v for k, v in ...}] *)
Definition eval_params (producers : list (string * ParamProducer))
  : M (list (string * json)) :=
  for_each producers []
    (fun acc '(k, producer) =>
       match producer with
       | Callable f =>
           bind get_self (fun store =>
           bind (lift (f store)) (fun value => ret (Dict.set acc k value)))
       | Constant value => ret (Dict.set acc k value)
       end).

(** The body of the loop of [setup] for the migration of version [v] *)
Definition migration_step (v : Z) (migration : MigrationEntry) : M unit :=
  match migration with
  | SqlText text => run_migration v text false
  | MigrationObj migration =>
      bind
        match condition migration with
        | Some c => call_condition c
        | None => ret true
        end (fun applies =>
      if negb applies then ret tt
      else
        let vector_migration := is_check_vector_available (condition migration) in
        match params migration with
        | Some ((_ :: _) as producers) =>
            bind (eval_params producers) (fun values =>
            match percent_format rt (sql migration) values with
            | Ok text => run_migration v text vector_migration
            | Raise _ => disable_vectors_if vector_migration
            end)
        | _ => run_migration v (sql migration) vector_migration
        end)
  end.

(** [l[start:]] *)
Definition slice_from {A} (l : list A) (start : Z) : list A :=
  if (start <? 0)%Z
  then drop (Z.to_nat (Z.max 0 (Z.of_nat (length l) + start))) l
  else drop (Z.to_nat start) l.

(** [enumerate(l, start=start)] *)
Definition enumerate_from {A} (start : Z) (l : list A) : list (Z * A) :=
  imap (fun i x => ((start + Z.of_nat i)%Z, x)) l.

(** Reading the highest applied version; an undefined ledger table is
    created and gives version -1. *)
Definition read_version : M Z :=
  try_except
    (bind (cur_execute LEDGER_SELECT_SQL []) (fun rows =>
     ret (match rows with
          | [] => (-1)%Z
          | row :: _ => row_v row
          end)))
    (fun e =>
       match e with
       | UndefinedTable =>
           bind (cur_execute LEDGER_CREATE_SQL []) (fun _ => ret (-1)%Z)
       | _ => raise e
       end).

(** [for v, migration in entries: <step>] *)
Definition run_steps (entries : list (Z * MigrationEntry)) : M unit :=
  for_each entries tt (fun _ '(v, migration) => migration_step v migration).

(** The loop of [setup] over the migrations after [version] *)
Definition run_pending (migrations : list MigrationEntry) (version : Z) : M unit :=
  run_steps (enumerate_from (version + 1) (slice_from migrations (version + 1))).

(** [setup], for the store class whose [MIGRATIONS] is [migrations] *)
Definition setup (migrations : list MigrationEntry) : M unit :=
  bind read_version (run_pending migrations).

End store.

Arguments Runtime : clear implicits.
Arguments Condition : clear implicits.
Arguments Migration : clear implicits.
Arguments MigrationEntry : clear implicits.
Arguments State : clear implicits.
Arguments M : clear implicits.

(** ** An in-memory database

    A database that answers the statements of the module: the [store]
    table as rows grouped by their prefix text, the ledger of applied
    migrations, and whether the [vector] extension can be installed.  It
    is used to run batches and setups on concrete inputs. *)
Module MemoryDb.

Record t := {
  store_rows : list (string * Row);
  ledger : option (list Z);
  vector_extension : bool
}.

Definition with_ledger (db : t) (l : option (list Z)) : t :=
  {| store_rows := store_rows db; ledger := l;
     vector_extension := vector_extension db |}.

(** The same database once the [vector] extension can be installed *)
Definition with_vector_extension (db : t) : t :=
  {| store_rows := store_rows db; ledger := ledger db; vector_extension := true |}.

(** The rows stored under a prefix *)
Definition stored (db : t) (prefix : string) : list Row :=
  omap (fun '(p, row) => if decide (p = prefix) then Some row else None)
       (store_rows db).

Definition ledger_row (v : Z) : Row :=
  {| row_key := ""; row_value := Loaded []; row_prefix := NsStr "";
     row_created_at := 0; row_updated_at := 0; row_score := None;
     row_truncated_prefix := NsStr ""; row_v := v |}.

Definition strings_of (params : list Param) : list string :=
  omap (fun p => match p with PStr s => Some s | _ => None end) params.

(** [SELECT v ... ORDER BY v DESC LIMIT 1] answers with the highest
    version, [INSERT INTO store_migrations] adds one, the availability
    probe answers with a row when the extension is there, the Get query
    with the rows of the prefix whose key is listed; any other statement
    succeeds without rows. *)
Definition run (db : t) (query : string) (params : list Param)
  : t * result (list Row) :=
  if decide (query = LEDGER_SELECT_SQL) then
    match ledger db with
    | None => (db, Raise UndefinedTable)
    | Some [] => (db, Ok [])
    | Some (v :: vs) => (db, Ok [ledger_row (foldr Z.max v vs)])
    end
  else if decide (query = LEDGER_CREATE_SQL) then
    (with_ledger db (Some (default [] (ledger db))), Ok [])
  else if decide (query = LEDGER_INSERT_SQL) then
    match ledger db, params with
    | Some vs, [PInt v] =>
        if decide (v ∈ vs) then (db, Raise (DbError "duplicate key"))
        else (with_ledger db (Some (vs ++ [v])), Ok [])
    | _, _ => (db, Raise UndefinedTable)
    end
  else if decide (query = VECTOR_AVAILABLE_SQL) then
    (db, Ok (if vector_extension db then [ledger_row 1] else []))
  else if Py.startswith query GET_SQL_HEAD then
    match params with
    | PStr prefix :: keys =>
        (db, Ok (base.filter (fun row => row_key row ∈ strings_of keys)
                   (stored db prefix)))
    | _ => (db, Raise (DbError "missing parameter"))
    end
  else (db, Ok []).

(** The collaborators around this database; [sql % params] is taken to
    leave the text as it is, [orjson.loads] to give [null]. *)
Definition runtime : Runtime t :=
  {| execute := run;
     orjson_loads := fun _ => JNull;
     percent_format := fun sql _ => Ok sql |}.

End MemoryDb.

(** ** Notions the statements below refer to *)

(** The plain map walk of a dotted field: the value the fields lead to,
    [None] when a field is absent or is asked of a value that is not a
    map. *)
Fixpoint resolve (obj : json) (fields : list string) : option json :=
  match fields with
  | [] => Some obj
  | field :: more =>
      match obj with
      | JDict d =>
          match Dict.get d field with
          | Some v => resolve v more
          | None => None
          end
      | _ => None
      end
  end.

(** The six operators of the filter language *)
Definition SUPPORTED_OPERATORS : list string :=
  ["$eq"; "$ne"; "$gt"; "$gte"; "$lt"; "$lte"].

(** Numbers as exact decimals: the unscaled digits and the number of
    decimal places. *)
Definition decimal_of (value : json) : option (Z * nat) :=
  match value with
  | JInt n => Some (n, 0)
  | JFloat (Float u p) => Some (u, S p)
  | _ => None
  end.

(** [a > b] on numbers, by value *)
Definition numeric_gt (a b : json) : option bool :=
  match decimal_of a, decimal_of b with
  | Some (ua, pa), Some (ub, pb) =>
      Some (ub * 10 ^ Z.of_nat pa <? ua * 10 ^ Z.of_nat pb)%Z
  | _, _ => None
  end.

(** PostgreSQL's [value->>key] on a stored object: the field as text, SQL
    NULL (here [None]) for a missing field or a JSON null.  A number is
    printed with the digits it was stored with. *)
Definition jsonb_field_text (value : json) (key : string) : option string :=
  match value with
  | JDict d =>
      match Dict.get d key with
      | Some (JStr s) => Some s
      | Some (JBool b) => Some (if b then "true" else "false")
      | Some (JInt n) => Some (pretty n)
      | Some (JFloat f) => Some (PyStr.float_repr f)
      | Some ((JList _ | JDict _) as v) => Some (Json.dumps v)
      | Some JNull | None => None
      end
  | _ => None
  end.

(** Whether a stored value satisfies one of the ordering conditions of
    [_get_filter_condition]: both sides are text and are compared as text,
    character by character; a NULL never matches.  [None] for any other
    condition. *)
Definition ordering_condition_holds (condition : string) (params : list Param)
  (value : json) : option bool :=
  match params with
  | [PStr key; PStr operand] =>
      let compare_with (test : string -> string -> bool) :=
        Some (match jsonb_field_text value key with
              | Some text => test text operand
              | None => false
              end) in
      if decide (condition = "value->>%s > %s")
      then compare_with (fun text operand => String.ltb operand text)
      else if decide (condition = "value->>%s >= %s")
      then compare_with (fun text operand => String.leb operand text)
      else if decide (condition = "value->>%s < %s")
      then compare_with (fun text operand => String.ltb text operand)
      else if decide (condition = "value->>%s <= %s")
      then compare_with (fun text operand => String.leb text operand)
      else None
  | _ => None
  end.

(** A batch seen by kind: every operation with its position, as
    [_group_ops] tags them. *)
Definition indexed (ops : list Op) : list (nat * Op) :=
  imap (fun idx op => (idx, op)) ops.

(** The calls of the embedding function among some events *)
Definition embed_calls (events : list Event) : list (list string) :=
  omap (fun event => match event with Embedded texts => Some texts | _ => None end)
       events.

(** The statements among some events *)
Definition statements (events : list Event) : list Query :=
  omap (fun event =>
          match event with Executed query params => Some (query, params) | _ => None end)
       events.

(** One call with all the pending texts of a phase, no call when nothing
    is pending *)
Definition phase_calls (texts : list string) : list (list string) :=
  match texts with
  | [] => []
  | _ :: _ => [texts]
  end.

(** The query texts of the Search operations of a batch that wait for a
    vector: the non-empty queries, when an embedding configuration is
    set. *)
Definition pending_search_texts (config : option EmbeddingConfig) (ops : list Op)
  : list string :=
  omap (fun op =>
          match op with
          | Search s => needs_vector_search config s
          | _ => None
          end) ops.

(** The fragments of the Put operations of a batch that wait for a vector *)
Definition pending_put_texts (config : option EmbeddingConfig) (ops : list Op)
  : list string :=
  match _prepare_batch_PUT_queries config (put_ops_of (indexed ops)) with
  | Ok (_, Some (_, txt_params)) => txt_params.*2
  | _ => []
  end.

(** Whether every operator of the filter of a search is supported *)
Definition operators_supported (op : SearchOp) : bool :=
  forallb
    (fun '(_, value) =>
       match value with
       | JDict operators =>
           forallb (fun '(op_name, _) => bool_decide (op_name ∈ SUPPORTED_OPERATORS))
                   operators
       | _ => true
       end)
    (default [] (filter op)).

Definition filters_supported (ops : list Op) : bool :=
  forallb (fun op => match op with Search s => operators_supported s | _ => true end)
          ops.

Definition type_of_entry (entry : nat * Op) : OpType := type_of entry.2.

(** The four phases of a batch, each over the operations of its kind with
    their positions.  A kind without operations has no group, and its
    phase does nothing on an empty list. *)
Definition batch_phases {DB} (rt : Runtime DB) (ops : list Op) : M DB (list Result) :=
  bind (_batch_get_ops rt (get_ops_of (indexed ops)) (replicate (length ops) RNone))
    (fun results =>
  bind (_batch_search_ops rt (search_ops_of (indexed ops)) results) (fun results =>
  bind (_batch_list_namespaces_ops rt (list_ops_of (indexed ops)) results)
    (fun results =>
  bind (_batch_put_ops rt (put_ops_of (indexed ops))) (fun _ => ret results)))).

(** [emitted st st' events]: going from [st] to [st'] left the store
    object as it was and appended [events] to the log. *)
Definition emitted {DB} (st st' : State DB) (events : list Event) : Prop :=
  self st' = self st /\ log st' = log st ++ events.

(** An exception that comes out of the driver *)
Definition driver_raises {DB} (rt : Runtime DB) (e : exn) : Prop :=
  exists db query params, (execute rt db query params).2 = Raise e.

(** The exception of an operator outside the filter language *)
Definition unsupported_operator (e : exn) : Prop :=
  exists op_name,
    (op_name ∉ SUPPORTED_OPERATORS) /\
    e = ValueError ("Unsupported operator: " +:+ op_name).

(** The Put is to the key [key] of [namespace] *)
Definition addresses (namespace : Namespace) (key : string) (op : PutOp) : Prop :=
  put_address op = (namespace, key).

Global Instance addresses_dec namespace key op :
  Decision (addresses namespace key op).
Proof. unfold addresses. apply _. Defined.

(** The last Put of a batch to a given key, in submission order *)
Definition last_put (put_ops : list (nat * PutOp)) (namespace : Namespace)
  (key : string) : option PutOp :=
  last (base.filter (addresses namespace key) (put_ops.*2)).

(** The fragments of a path of a value, for extractions that return *)
Definition path_fragments (obj : json) (path : string) : list string :=
  match _extract_text_by_path obj path with
  | Ok fragments => fragments
  | Raise _ => []
  end.

(** The rows to embed for some upserted values: none without an embedding
    configuration; with one, for every value in order and every
    configured text field in order, one row for each fragment of the
    field. *)
Definition embedded_rows (config : option EmbeddingConfig)
  (inserts : list (PutOp * list (string * json)))
  : list (string * string * string * string) :=
  match config with
  | None => []
  | Some config =>
      flat_map
        (fun '(op, value) =>
           flat_map
             (fun field =>
                (fun text =>
                   (_namespace_to_text (put_namespace op) false, put_key op,
                    field, text))
                <$> path_fragments (JDict value) field)
             (configured_text_fields config))
        inserts
  end.

(** [written E idxs before after]: the list [after] is [before] with
    [E i] written at the positions [i] of [idxs]. *)
Definition written (E : nat -> Result) (idxs : list nat)
  (before after : list Result) : Prop :=
  length after = length before /\
  forall i,
    (i ∈ idxs /\ (i < length before -> after !! i = Some (E i))) \/
    ((i ∉ idxs) /\ after !! i = before !! i).

(** ** What each operation of a batch is expected to return *)

(** Statements that only read *)
Definition is_select (query : string) : bool :=
  Py.startswith (Py.lstrip query) "SELECT".

(** The query of a search with the vector of its query text in the slot
    left for it *)
Definition fill_vector (embed_text : string -> Vector) (q : Query)
  (vector_query : option string) : Query :=
  match vector_query with
  | Some text => (q.1, <[0 := PVector (embed_text text)]> (q.2))
  | None => q
  end.

Section expectations.
Context {DB : Type} (rt : Runtime DB).
(** [stored db prefix]: the rows of the [store] table under a prefix *)
Context (stored : DB -> string -> list Row).
(** [embed_text]: the vector of one text *)
Context (embed_text : string -> Vector).

(** What the store assumes of its database: the Get query answers with
    the rows of the prefix whose key is listed and changes nothing, and no
    [SELECT] changes the database. *)
Record StoreBackend : Prop := {
  get_rows : forall db namespace keys,
    execute rt db (get_query namespace keys).1 (get_query namespace keys).2
    = (db, Ok (base.filter (fun row => row_key row ∈ keys)
                 (stored db (_namespace_to_text namespace false))));
  select_pure : forall db query params,
    is_select query = true -> (execute rt db query params).1 = db
}.

(** The stored row of a key.  (prefix, key) is the primary key of the
    table, so at most one row has the key. *)
Definition stored_row (db : DB) (namespace : Namespace) (key : string)
  : option Row :=
  last (base.filter (fun row => row_key row = key)
          (stored db (_namespace_to_text namespace false))).

(** The statement a search compiles to, its vector filled in *)
Definition compiled_search (config : option EmbeddingConfig) (op : SearchOp)
  : Query :=
  match search_query config op with
  | Ok (q, vector_query) => fill_vector embed_text q vector_query
  | Raise _ => ("", [])
  end.

(** The result of one operation on the database [db]: the item of a Get
    or nothing, nothing for a Put, the items of the rows of a Search, the
    namespaces of the rows of a ListNamespaces. *)
Definition expected_result (store : PostgresStore) (db : DB) (op : Op) : Result :=
  match op with
  | Get g =>
      match stored_row db (get_namespace g) (get_key g) with
      | Some row =>
          RItem (_row_to_item rt (get_namespace g) row (_deserializer store) ItemCls)
      | None => RNone
      end
  | Put _ => RNone
  | Search s =>
      let '(query, params) := compiled_search (embedding_config store) s in
      match (execute rt db query params).2 with
      | Ok rows =>
          RItems ((fun row => _row_to_item rt (_decode_ns_bytes (row_prefix row)) row
                                (_deserializer store) SearchItemCls) <$> rows)
      | Raise _ => RNone
      end
  | ListNamespaces l =>
      let '(query, params) := list_namespaces_query l in
      match (execute rt db query params).2 with
      | Ok rows =>
          RNamespaces ((fun row => _decode_ns_bytes (row_truncated_prefix row))
                       <$> rows)
      | Raise _ => RNone
      end
  end.

(** The expected result at a position of a batch *)
Definition expected_at (store : PostgresStore) (db : DB) (ops : list Op) (i : nat)
  : Result :=
  from_option (expected_result store db) RNone (ops !! i).

End expectations.

(** ** Sample stores and batches *)
Module Sample.

Definition row (key : string) (value : list (string * json)) : Row :=
  {| row_key := key; row_value := Loaded value; row_prefix := NsStr "";
     row_created_at := 0; row_updated_at := 0; row_score := None;
     row_truncated_prefix := NsStr ""; row_v := 0 |}.

(** An embedding function that works text by text *)
Definition embed_text (text : string) : Vector :=
  [Float (Z.of_nat (String.length text)) 0].

Definition config : EmbeddingConfig :=
  {| dims := 1;
     embed_documents := fun texts => embed_text <$> texts;
     text_fields := TextFieldsList ["text"] |}.

Definition database : MemoryDb.t :=
  {| MemoryDb.store_rows := [("test.foo", row "key1" [("data", JStr "value1")])];
     MemoryDb.ledger := None;
     MemoryDb.vector_extension := false |}.

Definition state (embedding : option EmbeddingConfig) : State MemoryDb.t :=
  {| self := {| _deserializer := None;
                embedding_config := embedding;
                class_name := "PostgresStore" |};
     db := database;
     log := [] |}.

Definition get_key1 : Op :=
  Get {| get_namespace := ["test"; "foo"]; get_key := "key1" |}.

Definition get_key3 : Op :=
  Get {| get_namespace := ["test"]; get_key := "key3" |}.

Definition put_apple : Op :=
  Put {| put_namespace := ["test"]; put_key := "doc1";
         put_value := Some [("text", JStr "red apple")] |}.

Definition search_apple : Op :=
  Search {| namespace_prefix := ["test"]; filter := None;
            limit := 10; offset := 0; query := Some "apple" |}.


Definition list_all : Op :=
  ListNamespaces {| match_conditions := None; max_depth := None;
                    ln_limit := 10; ln_offset := 0 |}.

(** A batch of every kind, with two Gets of different namespaces *)
Definition mixed_batch : list Op :=
  [get_key1; put_apple; search_apple; list_all; get_key3].

End Sample.


(** ** Notions for the properties of single functions *)

(** A path label without the characters the tokenizer reacts to *)
Definition plain_label (label : string) : bool :=
  negb (Py.contains "."%char label || Py.contains "["%char label
        || Py.contains "{"%char label).

(** A label that names one field: not empty, not the wildcard, plain *)
Definition field_label (label : string) : Prop :=
  label <> "" /\ label <> "*" /\ plain_label label = true.

(** The fragments of a walk, for walks that return *)
Definition fragments_of (tokens : list string) (obj : json) : list string :=
  match _extract_from_obj tokens obj with
  | Ok fragments => fragments
  | Raise _ => []
  end.

(** The [%s] placeholders of a statement as the driver counts them: a
    [%] announces a placeholder, [%s] is one, a doubled [%%] is a percent
    sign.  [pending] tells whether the previous character was an
    unmatched [%]. *)
Fixpoint placeholders_from (pending : bool) (query : string) : nat :=
  match query with
  | "" => 0
  | String a rest =>
      if pending
      then if decide (a = "s"%char)
           then S (placeholders_from false rest)
           else placeholders_from false rest
      else placeholders_from (bool_decide (a = "%"%char)) rest
  end.

Definition count_placeholders (query : string) : nat :=
  placeholders_from false query.

(** Whether a text ends on an unmatched [%] *)
Fixpoint pending_after (pending : bool) (query : string) : bool :=
  match query with
  | "" => pending
  | String a rest =>
      pending_after (if pending then false else bool_decide (a = "%"%char)) rest
  end.

(** A piece of statement text with [n] placeholders that can be followed
    by any text *)
Definition closed_text (text : string) (n : nat) : Prop :=
  count_placeholders text = n /\ pending_after false text = false.

(** A compiled condition has two placeholders and two parameters. *)
Definition condition_binds (c : string * list Param) : Prop :=
  closed_text c.1 2 /\ length c.2 = 2.

(** The event of sending a statement *)
Definition executed (q : Query) : Event := Executed q.1 q.2.

(** A migration without parameters to format: SQL text, or a [Migration]
    whose [params] is missing or empty and whose condition, if any, is
    [check_vector_available]. *)
Definition unparameterized {DB} (entry : MigrationEntry DB) : Prop :=
  match entry with
  | SqlText _ => True
  | MigrationObj m =>
      (params m = None \/ params m = Some []) /\
      (condition m = None \/ condition m = Some check_vector_available_fn)
  end.

(** The parts of an entry of [MIGRATIONS] that the loop of [setup]
    reads: the text of its statement, its condition and its parameters.
    SQL text has neither condition nor parameters. *)
Definition entry_sql {DB} (entry : MigrationEntry DB) : string :=
  match entry with
  | SqlText text => text
  | MigrationObj m => sql m
  end.

Definition entry_condition {DB} (entry : MigrationEntry DB) : option (Condition DB) :=
  match entry with
  | SqlText _ => None
  | MigrationObj m => condition m
  end.

Definition entry_params {DB} (entry : MigrationEntry DB)
  : list (string * ParamProducer) :=
  match entry with
  | SqlText _ => []
  | MigrationObj m => default [] (params m)
  end.

(** The match conditions of a [ListNamespacesOp] whose type the compiler
    knows *)
Definition known_conditions (op : ListNamespacesOp) : list MatchCondition :=
  base.filter (fun c => match_type c = "prefix" \/ match_type c = "suffix")
              (default [] (match_conditions op)).

(** A search with an empty filter and an empty query text read as absent *)
Definition without_empty_parts (op : SearchOp) : SearchOp :=
  {| namespace_prefix := namespace_prefix op;
     filter := match filter op with Some [] => None | other => other end;
     limit := limit op;
     offset := offset op;
     query := match query op with
              | Some text => if decide (text = "") then None else Some text
              | None => None
              end |}.

(** The statements a batch sends for its Gets: those of
    [_get_batch_GET_ops_queries], one for each namespace. *)
Definition get_statements (get_ops : list (nat * GetOp)) : list Query :=
  (fun '(query, params, _, _) => (query, params))
  <$> _get_batch_GET_ops_queries get_ops.

(** The statements a batch sends for its Searches: those of
    [_prepare_batch_search_queries], with the vectors the embedding
    function gives for the query texts in place; none when compiling
    raises. *)
Definition search_statements (config : option EmbeddingConfig)
  (search_ops : list (nat * SearchOp)) : list Query :=
  match _prepare_batch_search_queries config search_ops with
  | Ok (queries, requests) =>
      match requests, config with
      | _ :: _, Some config =>
          foldl (fun queries '((idx, _), embedding) =>
                   set_query_vector queries idx embedding)
                queries (zip requests (embed_documents config (requests.*2)))
      | _, _ => queries
      end
  | Raise _ => []
  end.

(** The statements a batch sends for its Puts: those of
    [_prepare_batch_PUT_queries], then the statement of the vectors once
    for each fragment that got a vector, with the namespace, the key, the
    field and the vector of the fragment. *)
Definition put_statements (config : option EmbeddingConfig)
  (put_ops : list (nat * PutOp)) : list Query :=
  match _prepare_batch_PUT_queries config put_ops with
  | Ok (queries, request) =>
      queries
      ++ match request, config with
         | Some (query, rows), Some config =>
             (fun '((namespace, key, field, _), vector) =>
                (query, [PStr namespace; PStr key; PStr field; PVector vector]))
             <$> zip rows (embed_documents config (rows.*2))
         | _, _ => []
         end
  | Raise _ => []
  end.

(** [sends queries st r st']: going from [st] to the outcome [r] in [st']
    left the store object as it was and sent a prefix of [queries], all
    of them when [r] is a result. *)
Definition sends {DB A} (queries : list Query) (st : State DB) (r : result A)
  (st' : State DB) : Prop :=
  self st' = self st /\
  exists events,
    log st' = log st ++ events /\
    statements events `prefix_of` queries /\
    (forall a, r = Ok a -> statements events = queries).
(** ** Theorems: namespace codec *)

Lemma split_nonempty c s : Py.split c s <> [].
Proof.
  destruct s as [|a s]; simpl; [done|].
  case_decide; [done|]. by destruct (Py.split c s).
Qed.

Lemma split_no_sep c s : Py.contains c s = false -> Py.split c s = [s].
Proof.
  induction s as [|a s IH]; simpl; [done|].
  case_decide; [done|]. intros Hs. by rewrite IH.
Qed.

Lemma split_app_sep c p s :
  Py.contains c p = false ->
  Py.split c (p +:+ String c s) = p :: Py.split c s.
Proof.
  induction p as [|a p IH]; simpl.
  - intros _. by rewrite decide_True.
  - case_decide; [done|]. intros Hp. by rewrite IH.
Qed.

(** C8. Decoding the encoded text of a namespace returns the namespace:
    for every non-empty sequence of segments none of which contains the
    separator ['.'], [_decode_ns_bytes (_namespace_to_text ns) = ns]. *)
Theorem namespace_roundtrip (ns : Namespace) :
  ns <> [] ->
  Forall (fun seg => Py.contains "."%char seg = false) ns ->
  _decode_ns_bytes (NsStr (_namespace_to_text ns false)) = ns.
Proof.
  intros Hne Hall. unfold _decode_ns_bytes, _namespace_to_text.
  induction Hall as [|seg rest Hseg Hrest IH]; [done|].
  destruct rest as [|seg' rest'].
  - simpl. by apply split_no_sep.
  - change (Py.join "." (seg :: seg' :: rest'))
      with (seg +:+ String "."%char (Py.join "." (seg' :: rest'))).
    rewrite split_app_sep by done. f_equal. by apply IH.
Qed.

Lemma namespace_roundtrip_witness :
  _decode_ns_bytes (NsStr (_namespace_to_text ["test"; "foo"] false))
  = ["test"; "foo"].
Proof.
  apply namespace_roundtrip; [done|].
  repeat constructor.
Defined.

(** ** Theorems: path extractor *)

Lemma extend_each_ok {A B} (f : A -> result (list B)) xs acc :
  (forall x, x ∈ xs -> exists r, f x = Ok r) ->
  exists r, extend_each f xs acc = Ok r.
Proof.
  revert acc. induction xs as [|x xs IH]; intros acc Hf; simpl; [by eexists|].
  destruct (Hf x) as [r ->]; [set_solver|]. apply IH. intros y Hy. apply Hf. set_solver.
Qed.

Lemma extend_each_ok_flat {A B} (f : A -> result (list B)) (g : A -> list B) xs acc :
  (forall x, x ∈ xs -> f x = Ok (g x)) ->
  extend_each f xs acc = Ok (acc ++ flat_map g xs).
Proof.
  revert acc. induction xs as [|x xs IH]; intros acc Hf; simpl.
  - by rewrite app_nil_r.
  - rewrite Hf by set_solver. rewrite IH; [by rewrite <-(assoc_L (++))|].
    intros y Hy. apply Hf. set_solver.
Qed.

Lemma int_raises_value_error s e :
  Py.int s = Raise e -> exists msg, e = ValueError msg.
Proof.
  unfold Py.int.
  destruct (match Py.int_strip s with "" => _ | _ => _ end) as [negative digits].
  destruct (Py.int_digits digits 0 false); [|intros [= <-]; by eexists].
  destruct (_ <? _)%nat; [|done]. intros [= <-]. by eexists.
Qed.

Lemma getitem_in_range {A} (l : list A) (i : Z) :
  (0 <= i < Z.of_nat (length l))%Z -> exists x, Py.getitem l i = Ok x.
Proof.
  intros Hi. unfold Py.getitem.
  destruct (Z.ltb_spec i 0); [lia|]. destruct (Z.ltb_spec i 0); [lia|].
  destruct (lookup_lt_is_Some_2 l (Z.to_nat i)) as [x ->]; [lia|]. by eexists.
Qed.

Lemma extract_from_obj_total tokens :
  forall obj, exists fragments, _extract_from_obj tokens obj = Ok fragments.
Proof.
  induction tokens as [|token rest IH]; intros obj; simpl.
  - destruct obj; by eexists.
  - destruct (is_bracket_token token).
    { destruct obj; try by eexists.
      case_decide; [apply extend_each_ok; auto|].
      destruct (Py.int _) as [idx|e] eqn:Hint; simpl.
      - case_match eqn:Hrange; [|by eexists].
        apply andb_prop in Hrange as [Hlo%Z.leb_le Hhi%Z.ltb_lt].
        destruct (getitem_in_range l _ (conj Hlo Hhi)) as [item ->]. simpl.
        destruct (IH item) as [r ->]. by eexists.
      - apply int_raises_value_error in Hint as [msg ->]. by eexists. }
    destruct (is_brace_token token).
    { destruct obj; by eexists. }
    case_decide.
    { destruct obj; (try by eexists); apply extend_each_ok; auto. }
    destruct obj; try by eexists.
    destruct (Dict.get _ _); [apply IH|by eexists].
Qed.



Lemma walk_nested_resolve obj fields :
  walk_nested obj fields = default JNull (resolve obj fields).
Proof.
  revert obj. induction fields as [|field more IH]; intros obj; simpl; [done|].
  destruct obj; try done. by destruct (Dict.get _ _).
Qed.

(** C10. In a multi-field fan-out [{f1,...,fn}] over a map, a listed
    sub-field whose plain map walk resolves to the JSON null value
    contributes no fragment, exactly as a sub-field that is absent: the
    result of the token is the concatenation of the contributions of its
    fields, and the contribution of a field that resolves to null or to
    nothing is empty. *)
Theorem null_subfield_contributes_nothing (d : list (string * json))
    (token : string) (rest : list string) (field : string) :
  is_bracket_token token = false ->
  is_brace_token token = true ->
  resolve (JDict d) (_tokenize_path field) = Some JNull \/
  resolve (JDict d) (_tokenize_path field) = None ->
  _extract_from_obj (token :: rest) (JDict d)
  = Ok (flat_map (field_fragments (JDict d)) (brace_fields token)) /\
  field_fragments (JDict d) field = [].
Proof.
  intros Hbracket Hbrace Hresolve. split.
  - simpl. by rewrite Hbracket, Hbrace.
  - unfold field_fragments. rewrite walk_nested_resolve.
    destruct (_tokenize_path field); [done|].
    by destruct Hresolve as [-> | ->].
Qed.

Lemma null_subfield_contributes_nothing_witness :
  _extract_from_obj ["{x, n}"] (JDict [("x", JInt 1); ("n", JNull)])
  = Ok (flat_map (field_fragments (JDict [("x", JInt 1); ("n", JNull)]))
          (brace_fields "{x, n}")) /\
  field_fragments (JDict [("x", JInt 1); ("n", JNull)]) "n" = [] /\
  field_fragments (JDict [("x", JInt 1); ("n", JNull)]) "absent" = [].
Proof.
  split_and!.
  - apply (null_subfield_contributes_nothing _ "{x, n}" [] "n"); [done..|by left].
  - apply (null_subfield_contributes_nothing _ "{x, n}" [] "n"); [done..|by left].
  - apply (null_subfield_contributes_nothing _ "{x, n}" [] "absent");
      [done..|by right].
Defined.

(** ** Theorems: filter compiler *)

Lemma filter_condition_supported key op value :
  op ∈ SUPPORTED_OPERATORS ->
  exists condition, _get_filter_condition key op value = Ok condition.
Proof.
  unfold SUPPORTED_OPERATORS. rewrite !elem_of_cons, elem_of_nil.
  intros [->|[->|[->|[->|[->|[->|[]]]]]]]; by eexists.
Qed.

Lemma filter_condition_unsupported key op value :
  op ∉ SUPPORTED_OPERATORS ->
  _get_filter_condition key op value
  = Raise (ValueError ("Unsupported operator: " +:+ op)).
Proof.
  unfold SUPPORTED_OPERATORS. rewrite !not_elem_of_cons. intros (?&?&?&?&?&?&_).
  unfold _get_filter_condition. by repeat case_decide.
Qed.

Lemma filter_condition_raises key op value e :
  _get_filter_condition key op value = Raise e ->
  (op ∉ SUPPORTED_OPERATORS) /\ e = ValueError ("Unsupported operator: " +:+ op).
Proof.
  intros Hraise. destruct (decide (op ∈ SUPPORTED_OPERATORS)) as [Hin|Hout].
  - destruct (filter_condition_supported key op value Hin) as [c Hc]. congruence.
  - rewrite filter_condition_unsupported in Hraise by done. by injection Hraise as <-.
Qed.

(** The claim C7 read on integers fails: the score 10 is greater than
    3.2, and the compiled condition of [{"score": {"$gt": 3.2}}] excludes
    the item, because the text ["10"] is below the text ["3.2"]. *)
Lemma gt_filter_excludes_score_10 :
  numeric_gt (JInt 10) (JFloat (Float 32 0)) = Some true /\
  exists condition params,
    _get_filter_condition "score" "$gt" (JFloat (Float 32 0))
    = Ok (condition, params) /\
    ordering_condition_holds condition params (JDict [("score", JInt 10)])
    = Some false.
Proof. split; [done|]. do 2 eexists. by split. Qed.

Lemma text_gt_small_integer (n : Z) :
  (n < 10)%Z -> String.ltb "3.2" (pretty n) = bool_decide (4 <= n)%Z.
Proof.
  intros Hn. destruct n as [|p|p].
  - done.
  - assert (p = 1 \/ p = 2 \/ p = 3 \/ p = 4 \/ p = 5 \/ p = 6 \/ p = 7
            \/ p = 8 \/ p = 9)%positive as Hp by lia.
    by destruct Hp as [->|[->|[->|[->|[->|[->|[->|[->| ->]]]]]]]].
  - rewrite bool_decide_eq_false_2 by lia. done.
Qed.

(** C7, amended. The condition compiled for [{"score": {"$gt": 3.2}}] is
    [value->>%s > %s] on the texts ["score"] and ["3.2"]: it matches an
    item with a numeric score exactly when the decimal text of the score is
    above the text ["3.2"] in character order.  For an integer score below
    10 that is the case exactly when the score is greater than 3.2. *)
Theorem gt_filter_compares_text (item : list (string * json)) (score : json) :
  Dict.get item "score" = Some score ->
  is_Some (decimal_of score) ->
  exists condition,
    _get_filter_condition "score" "$gt" (JFloat (Float 32 0))
    = Ok (condition, [PStr "score"; PStr "3.2"]) /\
    ordering_condition_holds condition [PStr "score"; PStr "3.2"] (JDict item)
    = Some (String.ltb "3.2" (PyStr.str score)) /\
    forall n, score = JInt n -> (n < 10)%Z ->
      ordering_condition_holds condition [PStr "score"; PStr "3.2"] (JDict item)
      = numeric_gt score (JFloat (Float 32 0)).
Proof.
  intros Hget [dec Hdec]. eexists. split; [done|].
  assert (ordering_condition_holds "value->>%s > %s" [PStr "score"; PStr "3.2"]
            (JDict item) = Some (String.ltb "3.2" (PyStr.str score))) as Htext.
  { unfold ordering_condition_holds, jsonb_field_text. rewrite Hget. simpl.
    by destruct score. }
  split; [done|]. intros n -> Hn. rewrite Htext. simpl.
  rewrite text_gt_small_integer by done. unfold numeric_gt. simpl. f_equal.
  case_bool_decide; symmetry; [apply Z.ltb_lt|apply Z.ltb_ge]; lia.
Qed.

Lemma gt_filter_compares_text_witness :
  exists condition,
    _get_filter_condition "score" "$gt" (JFloat (Float 32 0))
    = Ok (condition, [PStr "score"; PStr "3.2"]) /\
    ordering_condition_holds condition [PStr "score"; PStr "3.2"]
      (JDict [("text", JStr "red apple"); ("score", JFloat (Float 45 0))])
    = Some true.
Proof.
  destruct (gt_filter_compares_text
              [("text", JStr "red apple"); ("score", JFloat (Float 45 0))]
              (JFloat (Float 45 0))) as (condition & Hc & Hholds & _);
    [done|by eexists|].
  exists condition. split; [done|]. by rewrite Hholds.
Defined.

(** ** Facts about the compilation of searches *)

Lemma extend_each_raise_inv {A B} (f : A -> result (list B)) xs acc e :
  extend_each f xs acc = Raise e -> exists x, x ∈ xs /\ f x = Raise e.
Proof.
  revert acc. induction xs as [|x xs IH]; intros acc; simpl; [done|].
  destruct (f x) as [r|e'] eqn:Hfx.
  - intros (y & ? & ?)%IH. exists y. split; [by right|done].
  - intros [= ->]. exists x. split; [by left|done].
Qed.


Lemma filter_entry_raises key value e :
  filter_entry_conditions key value = Raise e -> unsupported_operator e.
Proof.
  destruct value; try done. simpl.
  intros ([op_name val] & _ & Hc)%extend_each_raise_inv.
  destruct (_get_filter_condition key op_name val) as [c|e'] eqn:Hcond; [done|].
  apply filter_condition_raises in Hcond as [? ->]. injection Hc as <-.
  by exists op_name.
Qed.

Lemma filter_conditions_raise filter e :
  filter_conditions filter = Raise e -> unsupported_operator e.
Proof.
  destruct filter as [entries|]; [|done]. simpl.
  intros ([key value] & _ & Hentry)%extend_each_raise_inv.
  by eapply filter_entry_raises.
Qed.

Lemma search_query_raises config op e :
  search_query config op = Raise e -> unsupported_operator e.
Proof.
  unfold search_query.
  destruct (filter_conditions (filter op)) as [conditions|e'] eqn:Hconds.
  - by destruct (needs_vector_search config op).
  - destruct (needs_vector_search config op);
      intros [= <-]; by eapply filter_conditions_raise.
Qed.

Lemma filter_entry_ok key value :
  match value with
  | JDict operators =>
      forallb (fun '(op_name, _) => bool_decide (op_name ∈ SUPPORTED_OPERATORS))
              operators
  | _ => true
  end = true ->
  exists conditions, filter_entry_conditions key value = Ok conditions.
Proof.
  destruct value; try by eexists. intros Hall. simpl.
  apply extend_each_ok. intros [op_name val] Hin.
  rewrite forallb_forall in Hall. apply list_elem_of_In, Hall in Hin.
  apply bool_decide_eq_true in Hin.
  destruct (filter_condition_supported key op_name val Hin) as [c ->]. by eexists.
Qed.


Lemma search_query_ok config op :
  operators_supported op = true -> exists r, search_query config op = Ok r.
Proof.
  unfold operators_supported, search_query. intros Hall.
  assert (exists conditions, filter_conditions (filter op) = Ok conditions)
    as [conditions ->].
  { destruct (filter op) as [entries|]; [|by eexists]. simpl.
    apply extend_each_ok. intros [key value] Hin. apply filter_entry_ok.
    rewrite forallb_forall in Hall. by apply list_elem_of_In, Hall in Hin. }
  destruct (needs_vector_search config op); by eexists.
Qed.


Lemma search_queries_raise config idx search_ops e :
  search_queries_from config idx search_ops = Raise e -> unsupported_operator e.
Proof.
  revert idx. induction search_ops as [|[i op] rest IH]; intros idx; simpl; [done|].
  destruct (search_query config op) as [[q vq]|e'] eqn:Hq; simpl.
  - destruct (search_queries_from config (S idx) rest) as [[qs reqs]|e'] eqn:Hrest;
      simpl; [done|]. intros [= <-]. by eapply IH.
  - intros [= <-]. by eapply search_query_raises.
Qed.

Lemma search_queries_ok config idx (search_ops : list (nat * SearchOp)) :
  forallb operators_supported (search_ops.*2) = true ->
  exists r, search_queries_from config idx search_ops = Ok r.
Proof.
  revert idx. induction search_ops as [|[i op] rest IH]; intros idx; csimpl;
    [by eexists|].
  intros [Hop Hrest]%andb_prop.
  destruct (search_query_ok config op Hop) as [[q vq] ->]. simpl.
  destruct (IH (S idx) Hrest) as [[qs reqs] ->]. by eexists.
Qed.


Lemma search_query_vector config op q vector_query :
  search_query config op = Ok (q, vector_query) ->
  vector_query = needs_vector_search config op.
Proof.
  unfold search_query. intros Hq.
  destruct (needs_vector_search config op); simpl in Hq;
    destruct (filter_conditions (filter op)); by simplify_eq/=.
Qed.

Lemma search_requests_texts config (l : list (nat * Op)) idx queries requests :
  search_queries_from config idx (search_ops_of l) = Ok (queries, requests) ->
  requests.*2 = pending_search_texts config (l.*2).
Proof.
  unfold search_ops_of, pending_search_texts.
  revert idx queries requests.
  induction l as [|[i op] l IH]; intros idx queries requests; csimpl.
  { by intros [= <- <-]. }
  destruct op; csimpl; try apply IH.
  destruct (search_query config op) as [[q vq]|] eqn:Hq; simpl; [|done].
  destruct (search_queries_from config (S idx) _) as [[qs reqs]|] eqn:Hrest;
    simpl; [|done].
  intros [= <- <-]. apply search_query_vector in Hq as ->.
  apply IH in Hrest. destruct (needs_vector_search config op); csimpl; by f_equal.
Qed.

Lemma extract_text_total obj path :
  exists fragments, _extract_text_by_path obj path = Ok fragments.
Proof.
  unfold _extract_text_by_path. case_match; [by eexists|].
  apply extract_from_obj_total.
Qed.

Lemma embedding_rows_total fields insert :
  exists rows, embedding_rows_of fields insert = Ok rows.
Proof.
  destruct insert as [op value]. unfold embedding_rows_of.
  apply extend_each_ok. intros field _.
  destruct (extract_text_total (JDict value) field) as [texts ->]. by eexists.
Qed.

Lemma prepare_put_total config put_ops :
  exists queries request,
    _prepare_batch_PUT_queries config put_ops = Ok (queries, request).
Proof.
  unfold _prepare_batch_PUT_queries.
  destruct (inserts_of _) as [|insert inserts]; [by eexists _, _|].
  assert (exists rows,
            match config with
            | Some config =>
                extend_each (embedding_rows_of (configured_text_fields config))
                  (insert :: inserts) []
            | None => Ok []
            end = Ok rows) as [rows ->].
  { destruct config; [|by eexists].
    apply extend_each_ok. intros ? _. apply embedding_rows_total. }
  simpl. destruct rows; by eexists _, _.
Qed.

Lemma prepare_put_request config put_ops queries query txt_params :
  _prepare_batch_PUT_queries config put_ops = Ok (queries, Some (query, txt_params)) ->
  is_Some config /\ txt_params <> [].
Proof.
  unfold _prepare_batch_PUT_queries. intros Hprepare.
  destruct (inserts_of _) as [|insert inserts]; [done|].
  destruct config as [config|]; [|done].
  destruct (extend_each (embedding_rows_of (configured_text_fields config))
              (insert :: inserts) []) as [[|row rows]|]; by simplify_eq/=.
Qed.

Lemma filters_supported_searches (l : list (nat * Op)) :
  forallb operators_supported ((search_ops_of l).*2) = filters_supported (l.*2).
Proof.
  unfold search_ops_of, filters_supported.
  induction l as [|[idx op] l IH]; [done|]. destruct op; csimpl; by rewrite IH.
Qed.

Lemma imap_snd {A B} (f : nat -> A -> B * A) (l : list A) :
  (forall i x, (f i x).2 = x) -> (imap f l).*2 = l.
Proof.
  revert f. induction l as [|x l IH]; intros f Hf; csimpl; [done|].
  rewrite Hf, IH; [done|]. intros i y. apply Hf.
Qed.

Lemma indexed_ops ops : (indexed ops).*2 = ops.
Proof. by apply imap_snd. Qed.

(** ** Facts about insertion-ordered dictionaries *)

Section dict_facts.
Context {K V : Type} `{EqDecision K}.

Lemma dict_get_set (d : list (K * V)) k v k' :
  Dict.get (Dict.set d k v) k' = if decide (k = k') then Some v else Dict.get d k'.
Proof.
  induction d as [|[k0 v0] d IH]; simpl; [done|].
  destruct (decide (k0 = k)) as [->|Hne]; simpl; [by repeat case_decide|].
  rewrite IH. repeat case_decide; congruence.
Qed.

Lemma dict_keys_set (d : list (K * V)) k v :
  Dict.keys (Dict.set d k v)
  = match Dict.get d k with
    | Some _ => Dict.keys d
    | None => Dict.keys d ++ [k]
    end.
Proof.
  unfold Dict.keys. induction d as [|[k0 v0] d IH]; csimpl; [done|].
  destruct (decide (k0 = k)) as [->|Hne]; csimpl; [done|].
  rewrite IH. by destruct (Dict.get d k).
Qed.

Lemma dict_get_None (d : list (K * V)) k : Dict.get d k = None <-> k ∉ Dict.keys d.
Proof.
  unfold Dict.keys. induction d as [|[k0 v0] d IH]; csimpl.
  - split; [intros _; apply not_elem_of_nil|done].
  - rewrite not_elem_of_cons. case_decide as Heq.
    + split; [done|]. by intros [? _].
    + rewrite IH. split; [by split; [congruence|]|by intros [_ ?]].
Qed.

Lemma dict_keys_set_NoDup (d : list (K * V)) k v :
  NoDup (Dict.keys d) -> NoDup (Dict.keys (Dict.set d k v)).
Proof.
  intros Hnd. rewrite dict_keys_set. destruct (Dict.get d k) eqn:Hget; [done|].
  apply NoDup_app. split_and!; [done| |apply NoDup_singleton].
  intros x Hx ->%list_elem_of_singleton. by apply dict_get_None in Hget.
Qed.

Lemma dict_elem_of_get (d : list (K * V)) k v :
  NoDup (Dict.keys d) -> (k, v) ∈ d -> Dict.get d k = Some v.
Proof.
  unfold Dict.keys. induction d as [|[k0 v0] d IH]; csimpl.
  - by intros _ ?%elem_of_nil.
  - intros [Hk0 Hnd]%NoDup_cons [[= -> ->]|Hin]%elem_of_cons.
    + by rewrite decide_True.
    + case_decide as Heq; [|by apply IH]. subst k0. destruct Hk0.
      apply list_elem_of_fmap. by exists (k, v).
Qed.

Lemma dict_get_elem_of (d : list (K * V)) k v :
  Dict.get d k = Some v -> (k, v) ∈ d.
Proof.
  induction d as [|[k0 v0] d IH]; simpl; [done|].
  case_decide as Heq; [intros [= ->]; subst; left|right; auto].
Qed.

End dict_facts.

Section grouping.
Context {K X Y : Type} `{EqDecision K} (key : X -> K) (val : X -> Y).

(** Grouping with [defaultdict(list)]: the group of a key holds the
    entries of that key, in their order. *)
Lemma grouped_get (xs : list X) (groups : list (K * list Y)) k :
  Dict.get (foldl (group_step key val) groups xs) k
  = match Dict.get groups k with
    | Some l => Some (l ++ (val <$> base.filter (fun x => key x = k) xs))
    | None =>
        match val <$> base.filter (fun x => key x = k) xs with
        | [] => None
        | vs => Some vs
        end
    end.
Proof.
  revert groups. induction xs as [|x xs IH]; intros groups; cbn [foldl].
  - rewrite filter_nil. csimpl. destruct (Dict.get groups k); [|done].
    by rewrite app_nil_r.
  - rewrite IH. unfold group_step, Dict.append_to. rewrite dict_get_set.
    destruct (decide (key x = k)) as [<-|Hne].
    + rewrite filter_cons_True by done. csimpl.
      destruct (Dict.get groups (key x)); simpl; [|done].
      by rewrite <-(assoc_L (++)).
    + by rewrite filter_cons_False by done.
Qed.

Lemma grouped_keys_NoDup (xs : list X) (groups : list (K * list Y)) :
  NoDup (Dict.keys groups) -> NoDup (Dict.keys (foldl (group_step key val) groups xs)).
Proof.
  revert groups. induction xs as [|x xs IH]; intros groups Hnd; simpl; [done|].
  apply IH. by apply dict_keys_set_NoDup.
Qed.

(** Every group of the result is the list of the entries of its key. *)
Lemma grouped_elem_of (xs : list X) k vs :
  (k, vs) ∈ foldl (group_step key val) [] xs ->
  vs = val <$> base.filter (fun x => key x = k) xs.
Proof.
  intros Hin. apply dict_elem_of_get in Hin; [|apply grouped_keys_NoDup, NoDup_nil_2].
  rewrite grouped_get in Hin. simpl in Hin.
  destruct (val <$> _); by simplify_eq.
Qed.

(** Every entry is in the group of its key. *)
Lemma grouped_covers (xs : list X) x :
  x ∈ xs ->
  exists vs, (key x, vs) ∈ foldl (group_step key val) [] xs /\ val x ∈ vs.
Proof.
  intros Hx. exists (val <$> base.filter (fun y => key y = key x) xs).
  assert (val x ∈ val <$> base.filter (fun y => key y = key x) xs) as Hval.
  { apply list_elem_of_fmap. exists x. split; [done|]. by apply list_elem_of_filter. }
  split; [|done]. apply dict_get_elem_of. rewrite grouped_get. simpl.
  destruct (val <$> _); [by apply elem_of_nil in Hval|done].
Qed.

End grouping.

(** ** Facts about the executor *)

Section batch_facts.
Context {DB : Type} (rt : Runtime DB).
Implicit Types (st : State DB) (ops : list Op).

Lemma bind_ext {A B} (m m' : M DB A) (k k' : A -> M DB B) st :
  m st = m' st -> (forall a st1, k a st1 = k' a st1) ->
  bind m k st = bind m' k' st.
Proof.
  intros Hm Hk. unfold bind. rewrite Hm. destruct (m' st) as [[a|e] st1]; auto.
Qed.

(** Loops are reasoned about with an invariant [J] over what is left to
    do, the accumulator and the state, and a condition [F] on the state in
    which an exception leaves the loop. *)
Lemma for_each_inv {A X} (J : list X -> A -> State DB -> Prop)
    (F : exn -> State DB -> Prop) (body : A -> X -> M DB A) xs acc st :
  J xs acc st ->
  (forall x rest acc st, J (x :: rest) acc st ->
     match body acc x st with
     | (Ok acc', st') => J rest acc' st'
     | (Raise e, st') => F e st'
     end) ->
  match for_each xs acc body st with
  | (Ok acc', st') => J [] acc' st'
  | (Raise e, st') => F e st'
  end.
Proof.
  intros HJ Hstep. revert acc st HJ.
  induction xs as [|x xs IH]; intros acc st HJ; simpl; [done|].
  unfold bind. specialize (Hstep _ _ _ _ HJ).
  destruct (body acc x st) as [[acc'|e] st']; [by apply IH|done].
Qed.

Lemma group_ops_spec ops :
  _group_ops ops
  = (foldl (group_step type_of_entry id) [] (indexed ops), length ops).
Proof.
  unfold _group_ops. fold (indexed ops).
  rewrite <-(length_imap (fun idx op => (idx, op)) ops). fold (indexed ops).
  generalize (indexed ops). intros l.
  change (length l) with (0 + length l). generalize 0.
  generalize (@nil (OpType * list (nat * Op))).
  induction l as [|[idx op] l IH]; intros g n; simpl; [by rewrite Nat.add_0_r|].
  rewrite IH. f_equal. lia.
Qed.

Lemma grouped_ops_get ops t :
  Dict.get (_group_ops ops).1 t
  = match base.filter (fun entry => type_of_entry entry = t) (indexed ops) with
    | [] => None
    | group => Some group
    end.
Proof.
  rewrite group_ops_spec. simpl. rewrite grouped_get. simpl.
  by rewrite list_fmap_id.
Qed.

Lemma get_ops_of_filter (l : list (nat * Op)) :
  get_ops_of (base.filter (fun entry => type_of_entry entry = GetOpT) l) = get_ops_of l.
Proof.
  unfold get_ops_of. induction l as [|[idx op] l IH]; [done|].
  destruct op; (rewrite filter_cons_True by done) || (rewrite filter_cons_False by done);
    csimpl; by rewrite IH.
Qed.

Lemma put_ops_of_filter (l : list (nat * Op)) :
  put_ops_of (base.filter (fun entry => type_of_entry entry = PutOpT) l) = put_ops_of l.
Proof.
  unfold put_ops_of. induction l as [|[idx op] l IH]; [done|].
  destruct op; (rewrite filter_cons_True by done) || (rewrite filter_cons_False by done);
    csimpl; by rewrite IH.
Qed.

Lemma search_ops_of_filter (l : list (nat * Op)) :
  search_ops_of (base.filter (fun entry => type_of_entry entry = SearchOpT) l)
  = search_ops_of l.
Proof.
  unfold search_ops_of. induction l as [|[idx op] l IH]; [done|].
  destruct op; (rewrite filter_cons_True by done) || (rewrite filter_cons_False by done);
    csimpl; by rewrite IH.
Qed.

Lemma list_ops_of_filter (l : list (nat * Op)) :
  list_ops_of (base.filter (fun entry => type_of_entry entry = ListNamespacesOpT) l)
  = list_ops_of l.
Proof.
  unfold list_ops_of. induction l as [|[idx op] l IH]; [done|].
  destruct op; (rewrite filter_cons_True by done) || (rewrite filter_cons_False by done);
    csimpl; by rewrite IH.
Qed.

Lemma batch_is_phases ops st : batch rt ops st = batch_phases rt ops st.
Proof.
  unfold batch, batch_phases.
  pose proof (grouped_ops_get ops) as Hget.
  destruct (_group_ops ops) as [grouped_ops num_ops] eqn:Hgroup.
  assert (num_ops = length ops) as ->.
  { rewrite group_ops_spec in Hgroup. by injection Hgroup. }
  simpl in Hget. apply bind_ext.
  { rewrite Hget, <-get_ops_of_filter. by destruct (base.filter _ _). }
  intros results st1. apply bind_ext.
  { rewrite Hget, <-search_ops_of_filter. by destruct (base.filter _ _). }
  clear results st1. intros results st1. apply bind_ext.
  { rewrite Hget, <-list_ops_of_filter. by destruct (base.filter _ _). }
  clear results st1. intros results st1. apply bind_ext; [|done].
  rewrite Hget, <-put_ops_of_filter. by destruct (base.filter _ _).
Qed.

Lemma bind_ok {A B} (m : M DB A) (k : A -> M DB B) st a st1 :
  m st = (Ok a, st1) -> bind m k st = k a st1.
Proof. unfold bind. by intros ->. Qed.

Lemma bind_raise {A B} (m : M DB A) (k : A -> M DB B) st e st1 :
  m st = (Raise e, st1) -> bind m k st = (Raise e, st1).
Proof. unfold bind. by intros ->. Qed.

Lemma bind_inv {A B} (m : M DB A) (k : A -> M DB B) st r st' :
  bind m k st = (r, st') ->
  (exists a st1, m st = (Ok a, st1) /\ k a st1 = (r, st')) \/
  (exists e, m st = (Raise e, st') /\ r = Raise e).
Proof.
  unfold bind. destruct (m st) as [[a|e] st1]; intros Hk.
  - left. by exists a, st1.
  - right. exists e. by simplify_eq.
Qed.

Lemma emitted_refl st : emitted st st [].
Proof. split; [done|by rewrite app_nil_r]. Qed.

Lemma emitted_trans st st1 st2 events1 events2 :
  emitted st st1 events1 -> emitted st1 st2 events2 ->
  emitted st st2 (events1 ++ events2).
Proof.
  intros [Hs1 Hl1] [Hs2 Hl2]. split; [congruence|].
  by rewrite Hl2, Hl1, (assoc_L (++)).
Qed.

Lemma embed_calls_app events1 events2 :
  embed_calls (events1 ++ events2) = embed_calls events1 ++ embed_calls events2.
Proof. apply omap_app. Qed.

Lemma cur_execute_emitted query params st r st' :
  cur_execute rt query params st = (r, st') ->
  emitted st st' [Executed query params] /\
  (forall e, r = Raise e -> driver_raises rt e).
Proof.
  unfold cur_execute. destruct (execute rt (db st) query params) as [db' rows] eqn:Hex.
  intros [= <- <-]. split; [done|]. intros e ->.
  exists (db st), query, params. by rewrite Hex.
Qed.

Lemma call_embed_documents_emitted config texts st r st' :
  call_embed_documents config texts st = (r, st') ->
  emitted st st' [Embedded texts] /\ db st' = db st /\
  r = Ok (embed_documents config texts).
Proof. by intros [= <- <-]. Qed.

(** A loop whose body sends statements only: no embedding call, and an
    exception can only come from the driver. *)
Lemma for_each_statements {A X} (body : A -> X -> M DB A) xs acc st r st' :
  (forall acc x st r st', body acc x st = (r, st') ->
     exists events, emitted st st' events /\ embed_calls events = [] /\
       (forall e, r = Raise e -> driver_raises rt e)) ->
  for_each xs acc body st = (r, st') ->
  exists events, emitted st st' events /\ embed_calls events = [] /\
    (forall e, r = Raise e -> driver_raises rt e).
Proof.
  intros Hbody Hloop.
  pose proof (for_each_inv
    (fun _ _ st' => exists events, emitted st st' events /\ embed_calls events = [])
    (fun e st' => (exists events, emitted st st' events /\ embed_calls events = [])
                  /\ driver_raises rt e)
    body xs acc st) as Hinv.
  rewrite Hloop in Hinv. destruct r as [acc'|e].
  - destruct Hinv as (events & ? & ?).
    + exists []. split; [apply emitted_refl|done].
    + intros x rest acc0 st0 (events & Hev & Hcalls).
      destruct (body acc0 x st0) as [r0 st0'] eqn:Hb.
      destruct (Hbody _ _ _ _ _ Hb) as (events' & Hev' & Hcalls' & Hraise).
      assert (exists events0, emitted st st0' events0 /\ embed_calls events0 = []).
      { exists (events ++ events'). split; [by eapply emitted_trans|].
        by rewrite embed_calls_app, Hcalls, Hcalls'. }
      destruct r0; [done|]. split; [done|]. by apply Hraise.
    + by exists events.
  - destruct Hinv as [(events & ? & ?) ?].
    + exists []. split; [apply emitted_refl|done].
    + intros x rest acc0 st0 (events & Hev & Hcalls).
      destruct (body acc0 x st0) as [r0 st0'] eqn:Hb.
      destruct (Hbody _ _ _ _ _ Hb) as (events' & Hev' & Hcalls' & Hraise).
      assert (exists events0, emitted st st0' events0 /\ embed_calls events0 = []).
      { exists (events ++ events'). split; [by eapply emitted_trans|].
        by rewrite embed_calls_app, Hcalls, Hcalls'. }
      destruct r0; [done|]. split; [done|]. by apply Hraise.
    + exists events. split_and!; [done..|]. by intros ? [= <-].
Qed.

Lemma bind_get_self {B} (k : PostgresStore -> M DB B) st :
  bind get_self k st = k (self st) st.
Proof. done. Qed.

Lemma bind_lift {A B} (r : result A) (k : A -> M DB B) st :
  bind (lift r) k st = match r with Ok a => k a st | Raise e => (Raise e, st) end.
Proof. by destruct r. Qed.

Lemma exec_then_trace {A} query params (k : list Row -> M DB A) st r st' :
  (forall rows st1, exists a, k rows st1 = (Ok a, st1)) ->
  bind (cur_execute rt query params) k st = (r, st') ->
  exists events, emitted st st' events /\ embed_calls events = [] /\
    (forall e, r = Raise e -> driver_raises rt e).
Proof.
  intros Hk [(rows & st1 & Hexec & Hrest)|(e & Hexec & ->)]%bind_inv.
  - destruct (Hk rows st1) as [a Ha]. rewrite Ha in Hrest. injection Hrest as <- <-.
    apply cur_execute_emitted in Hexec as [Hem _]. by eexists.
  - apply cur_execute_emitted in Hexec as [Hem Hraise].
    eexists. split_and!; [done..|]. intros e' [= <-]. by apply Hraise.
Qed.

Lemma get_phase_trace get_ops results st r st' :
  _batch_get_ops rt get_ops results st = (r, st') ->
  exists events, emitted st st' events /\ embed_calls events = [] /\
    (forall e, r = Raise e -> driver_raises rt e).
Proof.
  apply for_each_statements.
  intros acc [[[query params] namespace] items] st0 r0 st0'.
  apply exec_then_trace. intros rows st1. by eexists.
Qed.

Lemma list_phase_trace list_ops results st r st' :
  _batch_list_namespaces_ops rt list_ops results st = (r, st') ->
  exists events, emitted st st' events /\ embed_calls events = [] /\
    (forall e, r = Raise e -> driver_raises rt e).
Proof.
  apply for_each_statements.
  intros acc [[query params] [idx op]] st0 r0 st0'.
  apply exec_then_trace. intros rows st1. by eexists.
Qed.

Lemma search_phase_trace search_ops results st r st' :
  _batch_search_ops rt search_ops results st = (r, st') ->
  match _prepare_batch_search_queries (embedding_config (self st)) search_ops with
  | Raise e => r = Raise e /\ st' = st
  | Ok (queries, embedding_requests) =>
      exists events, emitted st st' events /\
        embed_calls events
        = match embedding_requests, embedding_config (self st) with
          | _ :: _, Some _ => [embedding_requests.*2]
          | _, _ => []
          end /\
        (forall e, r = Raise e -> driver_raises rt e)
  end.
Proof.
  unfold _batch_search_ops. rewrite bind_get_self, bind_lift.
  destruct (_prepare_batch_search_queries _ _) as [[queries requests]|e];
    [|by intros [= <- <-]].
  intros [(queries' & st1 & Hembed & Hloop)|(e & Hembed & ->)]%bind_inv.
  - assert (emitted st st1
              match requests, embedding_config (self st) with
              | _ :: _, Some _ => [Embedded (requests.*2)]
              | _, _ => []
              end) as Hem1.
    { destruct requests as [|request requests], (embedding_config (self st));
        try (injection Hembed as <- <-; apply emitted_refl).
      by injection Hembed as <- <-. }
    apply for_each_statements in Hloop as (events & Hem2 & Hcalls & Hraise).
    + eexists. split; [by eapply emitted_trans|]. split; [|done].
      rewrite embed_calls_app, Hcalls, app_nil_r.
      by destruct requests, (embedding_config (self st)).
    + intros acc [[idx op] [query params]] st0 r0 st0'.
      apply exec_then_trace. intros rows st2. by eexists.
  - by destruct requests as [|request requests], (embedding_config (self st)).
Qed.

Lemma put_phase_trace put_ops st r st' :
  _batch_put_ops rt put_ops st = (r, st') ->
  match _prepare_batch_PUT_queries (embedding_config (self st)) put_ops with
  | Raise e => r = Raise e /\ st' = st
  | Ok (queries, Some (query, txt_params)) =>
      match embedding_config (self st) with
      | None => r = Raise (ValueError (EMBEDDING_REQUIRED (class_name (self st))))
                /\ st' = st
      | Some _ =>
          exists events, emitted st st' events /\
            embed_calls events = [txt_params.*2] /\
            (forall e, r = Raise e -> driver_raises rt e)
      end
  | Ok (queries, None) =>
      exists events, emitted st st' events /\ embed_calls events = [] /\
        (forall e, r = Raise e -> driver_raises rt e)
  end.
Proof.
  unfold _batch_put_ops. rewrite bind_get_self, bind_lift.
  destruct (_prepare_batch_PUT_queries _ _) as [[queries [[query txt_params]|]]|e];
    [| |by intros [= <- <-]].
  - destruct (embedding_config (self st)) as [config|]; [|by intros [= <- <-]].
    intros [(queries' & st1 & Hembed & Hloop)|(e & Hembed & ->)]%bind_inv; [|done].
    injection Hembed as <- <-.
    apply for_each_statements in Hloop as (events & Hem2 & Hcalls & Hraise).
    + exists ([Embedded (txt_params.*2)] ++ events).
      split; [|split; [by rewrite embed_calls_app, Hcalls|done]].
      eapply emitted_trans; [|exact Hem2]. by split.
    + intros [] [query' params] st0 r0 st0'.
      apply exec_then_trace. intros rows st2. by eexists.
  - intros [(queries' & st1 & Hret & Hloop)|(e & Hret & ->)]%bind_inv; [|done].
    injection Hret as <- <-. revert Hloop. apply for_each_statements.
    intros [] [query' params] st0 r0 st0'.
    apply exec_then_trace. intros rows st2. by eexists.
Qed.

Lemma pending_search_texts_no_config ops : pending_search_texts None ops = [].
Proof.
  unfold pending_search_texts. induction ops as [|op ops IH]; [done|].
  destruct op as [| |s|]; csimpl; try done.
  unfold needs_vector_search. by destruct (query s).
Qed.

Lemma search_phase_calls config ops queries requests :
  _prepare_batch_search_queries config (search_ops_of (indexed ops))
  = Ok (queries, requests) ->
  match requests, config with
  | _ :: _, Some _ => [requests.*2]
  | _, _ => []
  end = phase_calls (pending_search_texts config ops).
Proof.
  intros Htexts%search_requests_texts. rewrite indexed_ops in Htexts.
  rewrite <-Htexts. destruct requests as [|request requests]; [done|].
  destruct config; [done|]. by rewrite pending_search_texts_no_config in Htexts.
Qed.

Lemma put_phase_calls st put_ops r st' :
  _batch_put_ops rt put_ops st = (r, st') ->
  exists events, emitted st st' events /\
    embed_calls events
    = phase_calls
        match _prepare_batch_PUT_queries (embedding_config (self st)) put_ops with
        | Ok (_, Some (_, txt_params)) => txt_params.*2
        | _ => []
        end /\
    (forall e, r = Raise e -> driver_raises rt e).
Proof.
  intros Hput%put_phase_trace.
  destruct (prepare_put_total (embedding_config (self st)) put_ops)
    as (queries & request & Hprepare).
  rewrite Hprepare in Hput |- *. destruct request as [[query txt_params]|]; [|done].
  apply prepare_put_request in Hprepare as [[config Hconfig] Hne].
  rewrite Hconfig in Hput. destruct Hput as (events & ? & Hcalls & ?).
  exists events. split_and!; [done| |done]. rewrite Hcalls. by destruct txt_params.
Qed.

(** What a batch leaves in the log: the store object is unchanged, the
    embedding function is called once per phase that has pending texts,
    with all of them, and an exception is either the one of an unsupported
    filter operator or comes from the driver. *)
Lemma batch_trace ops st r st' :
  batch rt ops st = (r, st') ->
  exists events, emitted st st' events /\
    embed_calls events `prefix_of`
      (phase_calls (pending_search_texts (embedding_config (self st)) ops)
       ++ phase_calls (pending_put_texts (embedding_config (self st)) ops)) /\
    ((exists results, r = Ok results) ->
     embed_calls events
     = phase_calls (pending_search_texts (embedding_config (self st)) ops)
       ++ phase_calls (pending_put_texts (embedding_config (self st)) ops)) /\
    (forall e, r = Raise e ->
       (unsupported_operator e /\ filters_supported ops = false)
       \/ driver_raises rt e).
Proof.
  rewrite batch_is_phases. unfold batch_phases, pending_put_texts.
  set (config := embedding_config (self st)).
  intros [(res1 & st1 & Hget & Hrest)|(e & Hget & ->)]%bind_inv; last first.
  { apply get_phase_trace in Hget as (ev1 & Hem1 & Hc1 & Hr1).
    exists ev1. rewrite Hc1. split_and!; [done|apply prefix_nil|by intros [? [=]]|].
    intros e' [= <-]. right. by apply Hr1. }
  apply get_phase_trace in Hget as (ev1 & Hem1 & Hc1 & _).
  assert (embedding_config (self st1) = config) as Hconfig1.
  { by rewrite (proj1 Hem1). }
  apply bind_inv in Hrest as [(res2 & st2 & Hsearch & Hrest)|(e & Hsearch & ->)];
    apply search_phase_trace in Hsearch; rewrite Hconfig1 in Hsearch;
    destruct (_prepare_batch_search_queries config _) as [[queries requests]|e0]
      eqn:Hcompile; try (by destruct Hsearch); last first.
  { destruct Hsearch as [[= <-] ->]. exists ev1. rewrite Hc1.
    split_and!; [done|apply prefix_nil|by intros [? [=]]|].
    intros e' [= <-]. left. split; [by eapply search_queries_raise|].
    destruct (filters_supported ops) eqn:Hsupported; [|done].
    destruct (search_queries_ok config 0 (search_ops_of (indexed ops))) as [? Hok].
    { by rewrite filters_supported_searches, indexed_ops. }
    unfold _prepare_batch_search_queries in Hcompile. congruence. }
  { destruct Hsearch as (ev2 & Hem2 & Hc2 & Hr2).
    rewrite (search_phase_calls _ _ _ _ Hcompile) in Hc2.
    exists (ev1 ++ ev2). rewrite embed_calls_app, Hc1, Hc2. simpl.
    split_and!; [by eapply emitted_trans|by apply prefix_app_r|by intros [? [=]]|].
    intros e' [= <-]. right. by apply Hr2. }
  destruct Hsearch as (ev2 & Hem2 & Hc2 & _).
  rewrite (search_phase_calls _ _ _ _ Hcompile) in Hc2.
  assert (emitted st st2 (ev1 ++ ev2)) as Hem12 by (by eapply emitted_trans).
  apply bind_inv in Hrest as [(res3 & st3 & Hlist & Hrest)|(e & Hlist & ->)];
    apply list_phase_trace in Hlist as (ev3 & Hem3 & Hc3 & Hr3); last first.
  { exists ((ev1 ++ ev2) ++ ev3). rewrite !embed_calls_app, Hc1, Hc2, Hc3, app_nil_r.
    simpl. split_and!;
      [by eapply emitted_trans|by apply prefix_app_r|by intros [? [=]]|].
    intros e' [= <-]. right. by apply Hr3. }
  assert (emitted st st3 ((ev1 ++ ev2) ++ ev3)) as Hem123 by (by eapply emitted_trans).
  assert (embedding_config (self st3) = config) as Hconfig3.
  { by rewrite (proj1 Hem123). }
  apply bind_inv in Hrest as [([] & st4 & Hput & Hrest)|(e & Hput & ->)];
    apply put_phase_calls in Hput as (ev4 & Hem4 & Hc4 & Hr4);
    rewrite Hconfig3 in Hc4.
  - injection Hrest as <- <-. exists (((ev1 ++ ev2) ++ ev3) ++ ev4).
    rewrite !embed_calls_app, Hc1, Hc2, Hc3, Hc4, app_nil_r. simpl.
    split_and!; [by eapply emitted_trans|done|done|done].
  - exists (((ev1 ++ ev2) ++ ev3) ++ ev4).
    rewrite !embed_calls_app, Hc1, Hc2, Hc3, Hc4, app_nil_r. simpl.
    split_and!; [by eapply emitted_trans|done|done|].
    intros e' [= <-]. right. by apply Hr4.
Qed.

End batch_facts.

(** ** Theorems: embedding pipeline and failures of a batch *)

(** The claim C3 fails on a batch with a Search that carries a query and a
    Put: the embedding function is called twice, once with the query text
    and once with the fragment of the Put, and neither call has all the
    pending texts. *)
Lemma embed_called_twice_in_one_batch :
  embed_calls
    (log (batch MemoryDb.runtime [Sample.search_apple; Sample.put_apple]
            (Sample.state (Some Sample.config))).2)
  = [["apple"]; ["red apple"]].
Proof. vm_compute. reflexivity. Qed.



Section batch_theorems.
Context {DB : Type} (rt : Runtime DB).
Implicit Types (st : State DB) (ops : list Op).

(** C3, amended. In every batch the embedding function is called at most
    once per phase, never once per item: once for the Search phase when
    query texts are pending, with all of them, and once for the Put phase
    when fragments are pending, with all of them, in that order.  A batch
    that is cut short by an exception has made a prefix of these calls. *)
Theorem embed_once_per_phase ops st :
  exists events,
    log (batch rt ops st).2 = log st ++ events /\
    embed_calls events `prefix_of`
      (phase_calls (pending_search_texts (embedding_config (self st)) ops)
       ++ phase_calls (pending_put_texts (embedding_config (self st)) ops)) /\
    ((exists results, (batch rt ops st).1 = Ok results) ->
     embed_calls events
     = phase_calls (pending_search_texts (embedding_config (self st)) ops)
       ++ phase_calls (pending_put_texts (embedding_config (self st)) ops)).
Proof.
  destruct (batch rt ops st) as [r st'] eqn:Hbatch.
  apply batch_trace in Hbatch as (events & [_ Hlog] & Hprefix & Hok & _).
  by exists events.
Qed.





End batch_theorems.




(** ** Theorems: migration runner *)

(** The claim C2 fails on the migrations of the module when the [vector]
    extension is not available at the first setup: the ledger then holds
    the versions 0 and 1 only, the skipped version 2 is not recorded, and
    a second setup, run once the extension is available, evaluates the
    predicate of migration 2 again and runs the migration. *)
Lemma skipped_migration_is_retried :
  let first := setup MemoryDb.runtime MIGRATIONS (Sample.state (Some Sample.config)) in
  let later :=
    {| self := self first.2;
       db := MemoryDb.with_vector_extension (db first.2);
       log := [] |} in
  first.1 = Ok tt /\
  MemoryDb.ledger (db first.2) = Some [0; 1]%Z /\
  take 4 (statements (log (setup MemoryDb.runtime MIGRATIONS later).2))
  = [(LEDGER_SELECT_SQL, []); (VECTOR_AVAILABLE_SQL, []);
     (MIGRATION_2_SQL, []); (LEDGER_INSERT_SQL, [PInt 2])].
Proof. split_and!; vm_compute; reflexivity. Qed.

Section migration_facts.
Context {DB : Type} (rt : Runtime DB).
Implicit Types (st : State DB).

Lemma for_each_app {A X} (body : A -> X -> M DB A) xs1 xs2 acc st :
  for_each (xs1 ++ xs2) acc body st
  = bind (for_each xs1 acc body) (fun acc' => for_each xs2 acc' body) st.
Proof.
  revert acc st. induction xs1 as [|x xs1 IH]; intros acc st; simpl; [done|].
  unfold bind in *. destruct (body acc x st) as [[acc'|e] st1]; [|done].
  apply IH.
Qed.

Lemma run_steps_split (before after : list (Z * MigrationEntry DB)) v entry st :
  run_steps rt (before ++ (v, entry) :: after) st
  = bind (run_steps rt before)
      (fun _ => bind (migration_step rt v entry) (fun _ => run_steps rt after)) st.
Proof.
  unfold run_steps. rewrite for_each_app. apply bind_ext; [done|].
  intros [] st1. simpl. apply bind_ext; [done|]. by intros [] st2.
Qed.

Lemma enumerate_from_lookup {A} (start : Z) (l : list A) i x :
  l !! i = Some x ->
  exists before after,
    enumerate_from start l = before ++ ((start + Z.of_nat i)%Z, x) :: after.
Proof.
  intros Hi. unfold enumerate_from.
  rewrite <-(take_drop_middle l i x Hi), imap_app, imap_cons.
  rewrite length_take_le by (apply lookup_lt_Some in Hi; lia).
  rewrite Nat.add_0_r. by eexists _, _.
Qed.

(** The migrations a setup goes through when the ledger holds [version]
    include every migration of a higher version. *)
Lemma pending_covers (migrations : list (MigrationEntry DB)) (version v : Z) entry :
  (-1 <= version < v)%Z ->
  migrations !! Z.to_nat v = Some entry ->
  exists before after,
    enumerate_from (version + 1) (slice_from migrations (version + 1))
    = before ++ (v, entry) :: after.
Proof.
  intros Hv Hentry. unfold slice_from.
  destruct (Z.ltb_spec (version + 1) 0); [lia|].
  destruct (enumerate_from_lookup (version + 1)
              (drop (Z.to_nat (version + 1)) migrations)
              (Z.to_nat (v - (version + 1))) entry) as (before & after & Heq).
  { rewrite lookup_drop, <-Hentry. f_equal. lia. }
  exists before, after. rewrite Heq. do 3 f_equal. lia.
Qed.

(** Evaluating a condition sends at most the probe for the extension. *)
Lemma call_condition_trace c st r st1 :
  call_condition rt c st = (r, st1) ->
  self st1 = self st /\
  exists events,
    log st1 = log st ++ events /\
    forall event, event ∈ events -> event = Executed VECTOR_AVAILABLE_SQL [].
Proof.
  destruct c as [|f]; simpl.
  - unfold check_vector_available. rewrite bind_get_self.
    destruct (embedding_config (self st)) as [config|].
    + unfold try_except, bind, cur_execute.
      destruct (execute rt (db st) VECTOR_AVAILABLE_SQL []) as [db' [rows|e]];
        intros [= <- <-]; (split; [done|]); eexists; (split; [done|]);
        by intros event ->%list_elem_of_singleton.
    + intros [= <- <-]. split; [done|]. exists []. rewrite app_nil_r.
      split; [done|]. by intros event ?%elem_of_nil.
  - intros [= <- <-]. split; [done|]. exists []. rewrite app_nil_r.
    split; [done|]. by intros event ?%elem_of_nil.
Qed.

(** C2, amended. A migration whose predicate evaluates false during a
    setup run is skipped without being executed and without its version
    being recorded: its step ends in the state in which the evaluation of
    the predicate left the store and the database, where at most the probe
    for the extension has been sent.  The skip is not permanent: a setup
    that finds a lower version in the ledger goes through the step of the
    skipped migration again, between the steps of the migrations before it
    and after it. *)
Theorem skipped_migration_not_recorded (migrations : list (MigrationEntry DB))
    (version v : Z) (m : Migration DB) (c : Condition DB) st st1 :
  condition m = Some c ->
  call_condition rt c st = (Ok false, st1) ->
  migrations !! Z.to_nat v = Some (MigrationObj m) ->
  (-1 <= version < v)%Z ->
  migration_step rt v (MigrationObj m) st = (Ok tt, st1) /\
  self st1 = self st /\
  (exists events,
     log st1 = log st ++ events /\
     forall event, event ∈ events -> event = Executed VECTOR_AVAILABLE_SQL []) /\
  exists before after,
    forall st_later,
      run_pending rt migrations version st_later
      = bind (run_steps rt before)
          (fun _ => bind (migration_step rt v (MigrationObj m))
                      (fun _ => run_steps rt after)) st_later.
Proof.
  intros Hc Hfalse Hentry Hv. split_and!.
  - unfold migration_step. rewrite Hc. by rewrite (bind_ok _ _ _ _ _ Hfalse).
  - by apply call_condition_trace in Hfalse as [? _].
  - by apply call_condition_trace in Hfalse as [_ ?].
  - destruct (pending_covers migrations version v _ Hv Hentry)
      as (before & after & Heq).
    exists before, after. intros st_later. unfold run_pending. rewrite Heq.
    apply run_steps_split.
Qed.

End migration_facts.

Lemma skipped_migration_not_recorded_witness :
  migration_step MemoryDb.runtime 2
    (MigrationObj {| sql := MIGRATION_2_SQL;
                     condition := Some check_vector_available_fn;
                     params := None |})
    (Sample.state (Some Sample.config))
  = (Ok tt,
     {| self := self (Sample.state (Some Sample.config));
        db := Sample.database;
        log := [Executed VECTOR_AVAILABLE_SQL []] |}).
Proof.
  by apply (skipped_migration_not_recorded MemoryDb.runtime MIGRATIONS 1 2 _
              check_vector_available_fn).
Defined.

(** ** Theorems: last write wins *)

Lemma dedup_get_from (put_ops : list (nat * PutOp)) dedupped namespace key :
  Dict.get
    (foldl (fun dedupped_ops '(_, op) => Dict.set dedupped_ops (put_address op) op)
           dedupped put_ops) (namespace, key)
  = match last_put put_ops namespace key with
    | Some op => Some op
    | None => Dict.get dedupped (namespace, key)
    end.
Proof.
  unfold last_put. revert dedupped.
  induction put_ops as [|[idx op] put_ops IH]; intros dedupped; csimpl; [done|].
  rewrite IH, dict_get_set.
  destruct (decide (put_address op = (namespace, key))) as [Heq|Hne].
  - rewrite filter_cons_True by done. rewrite last_cons.
    by destruct (last (base.filter _ _)).
  - by rewrite filter_cons_False by done.
Qed.

Lemma dedup_get put_ops namespace key :
  Dict.get (dedup_put_ops put_ops) (namespace, key) = last_put put_ops namespace key.
Proof.
  unfold dedup_put_ops. rewrite dedup_get_from. by destruct (last_put _ _ _).
Qed.

Lemma dedup_keys_NoDup put_ops : NoDup (Dict.keys (dedup_put_ops put_ops)).
Proof.
  unfold dedup_put_ops. generalize (NoDup_nil_2 (A:=Namespace * string)).
  change (@nil (Namespace * string))
    with (Dict.keys (@nil (Namespace * string * PutOp))).
  generalize (@nil (Namespace * string * PutOp)).
  induction put_ops as [|[idx op] put_ops IH]; intros dedupped Hnd; simpl; [done|].
  apply IH. by apply dict_keys_set_NoDup.
Qed.

Lemma dedup_addresses put_ops address op :
  (address, op) ∈ dedup_put_ops put_ops -> put_address op = address.
Proof.
  intros Hin. apply dict_elem_of_get in Hin; [|apply dedup_keys_NoDup].
  destruct address as [namespace key]. rewrite dedup_get in Hin.
  unfold last_put in Hin. apply last_Some_elem_of in Hin.
  by apply list_elem_of_filter in Hin as [? _].
Qed.

(** In a dictionary whose values carry their own key, a key selects
    exactly its value. *)
Lemma dict_values_filter {K V} `{EqDecision K} (key_of : V -> K)
    (d : list (K * V)) k v :
  NoDup (Dict.keys d) ->
  (forall k' v', (k', v') ∈ d -> key_of v' = k') ->
  Dict.get d k = Some v ->
  base.filter (fun v' => key_of v' = k) (Dict.values d) = [v].
Proof.
  unfold Dict.keys, Dict.values.
  induction d as [|[k0 v0] d IH]; csimpl; [done|].
  intros [Hk0 Hnd]%NoDup_cons Hkeys Hget.
  assert (key_of v0 = k0) as Hv0 by (apply Hkeys; left).
  assert (forall k' v', (k', v') ∈ d -> key_of v' = k') as Hkeys'.
  { intros k' v' Hin. apply Hkeys. by right. }
  case_decide as Heq.
  - injection Hget as ->. subst k. rewrite filter_cons_True by done. f_equal.
    apply elem_of_nil_inv. intros v' [Hv' Hin]%list_elem_of_filter.
    apply list_elem_of_fmap in Hin as ([k' v''] & -> & Hin). simpl in Hv'.
    apply Hk0, list_elem_of_fmap. exists (k', v''). split; [|done].
    simpl. rewrite <-Hv'. by apply Hkeys'.
  - rewrite filter_cons_False by congruence. by apply IH.
Qed.

Lemma inserts_of_filter (P : PutOp -> Prop) `{forall op, Decision (P op)} ops :
  base.filter (fun insert => P insert.1) (inserts_of ops)
  = inserts_of (base.filter P ops).
Proof.
  unfold inserts_of. induction ops as [|op ops IH]; [done|].
  destruct (decide (P op)).
  - rewrite (filter_cons_True P) by done. csimpl.
    destruct (put_value op); csimpl; [|done].
    rewrite filter_cons_True by done. by rewrite IH.
  - rewrite (filter_cons_False P) by done. csimpl.
    destruct (put_value op); csimpl; [|done].
    by rewrite filter_cons_False by done.
Qed.

Lemma deletes_of_filter (P : PutOp -> Prop) `{forall op, Decision (P op)} ops :
  base.filter P (deletes_of ops) = deletes_of (base.filter P ops).
Proof.
  unfold deletes_of. rewrite !list_filter_filter. apply list_filter_iff. tauto.
Qed.

Lemma delete_queries_covers deletes op :
  op ∈ deletes ->
  exists keys,
    put_key op ∈ keys /\
    (DELETE_SQL_HEAD +:+ placeholders (length keys) +:+ DELETE_SQL_TAIL,
     PStr (_namespace_to_text (put_namespace op) false) :: (PStr <$> keys))
    ∈ delete_queries deletes.
Proof.
  intros Hop.
  destruct (grouped_covers put_namespace put_key deletes op Hop)
    as (keys & Hgroup & Hkey).
  exists keys. split; [done|]. unfold delete_queries.
  apply list_elem_of_fmap. by exists (put_namespace op, keys).
Qed.

Lemma prepare_put_queries config put_ops :
  exists request,
    _prepare_batch_PUT_queries config put_ops
    = Ok (delete_queries (deletes_of (Dict.values (dedup_put_ops put_ops)))
          ++ match inserts_of (Dict.values (dedup_put_ops put_ops)) with
             | [] => []
             | inserts => [upsert_query inserts]
             end,
          request).
Proof.
  unfold _prepare_batch_PUT_queries.
  assert (match deletes_of (Dict.values (dedup_put_ops put_ops)) with
          | [] => []
          | _ :: _ => delete_queries (deletes_of (Dict.values (dedup_put_ops put_ops)))
          end = delete_queries (deletes_of (Dict.values (dedup_put_ops put_ops))))
    as -> by (by destruct (deletes_of _)).
  destruct (inserts_of _) as [|insert inserts]; [rewrite app_nil_r; by eexists|].
  assert (exists rows,
            match config with
            | Some config =>
                extend_each (embedding_rows_of (configured_text_fields config))
                  (insert :: inserts) []
            | None => Ok []
            end = Ok rows) as [rows ->].
  { destruct config; [|by eexists].
    apply extend_each_ok. intros ? _. apply embedding_rows_total. }
  simpl. destruct rows; by eexists.
Qed.

Lemma filter_fmap_key {A B} `{EqDecision B} (f : A -> B) (P : A -> Prop)
    `{forall x, Decision (P x)} (l : list A) (b : B) :
  base.filter (fun y => y = b) (f <$> base.filter P l)
  = f <$> base.filter (fun x => P x /\ f x = b) l.
Proof.
  induction l as [|x l IH]; [done|].
  destruct (decide (P x)) as [HP|HP].
  - rewrite (filter_cons_True P) by done. csimpl.
    destruct (decide (f x = b)) as [Hf|Hf].
    + rewrite !filter_cons_True by done. csimpl. by rewrite IH.
    + rewrite !filter_cons_False by tauto. done.
  - rewrite (filter_cons_False P) by done.
    by rewrite filter_cons_False by tauto.
Qed.

Lemma embedding_rows_fragments fields insert :
  embedding_rows_of fields insert
  = Ok (let '(op, value) := insert in
        flat_map
          (fun field =>
             (fun text =>
                (_namespace_to_text (put_namespace op) false, put_key op,
                 field, text))
             <$> path_fragments (JDict value) field)
          fields).
Proof.
  destruct insert as [op value]. unfold embedding_rows_of.
  rewrite (extend_each_ok_flat _
             (fun field =>
                (fun text =>
                   (_namespace_to_text (put_namespace op) false, put_key op,
                    field, text))
                <$> path_fragments (JDict value) field)); [done|].
  intros field _. unfold path_fragments.
  by destruct (extract_text_total (JDict value) field) as [texts ->].
Qed.

Lemma dedup_values_last put_ops op :
  op ∈ Dict.values (dedup_put_ops put_ops) ->
  last_put put_ops (put_namespace op) (put_key op) = Some op.
Proof.
  intros ([address op'] & -> & Hin)%list_elem_of_fmap. simpl.
  pose proof (dedup_addresses _ _ _ Hin) as Haddress.
  apply dict_elem_of_get in Hin; [|apply dedup_keys_NoDup].
  rewrite <-dedup_get. by rewrite <-Haddress in Hin.
Qed.

(** C5. When several Puts of a batch are to the same (namespace, key),
    only the last one in submission order takes effect.  The statements
    compiled for the Puts are one DELETE for each namespace of [groups],
    with the keys of the group, then, when there is a value to write, one
    INSERT with one row of parameters (prefix, key, value) for each entry
    of [inserts]; the embedding request holds the fragments of the values
    of [inserts].  Every entry of [inserts] and every key of [groups] is
    the last Put to its key, so that earlier Puts contribute nothing.  The
    last Put to the key, when it has a value, is the one entry of the key
    in [inserts], with that value, and the key is in no DELETE; when its
    value is null, the key is once in the DELETE of its namespace and in
    no row of the INSERT. *)
Theorem last_put_wins (config : option EmbeddingConfig)
    (put_ops : list (nat * PutOp)) (namespace : Namespace) (key : string)
    (op : PutOp) :
  last_put put_ops namespace key = Some op ->
  exists (groups : list (Namespace * list string))
         (inserts : list (PutOp * list (string * json))),
    _prepare_batch_PUT_queries config put_ops
    = Ok (((fun '(ns, keys) =>
              (DELETE_SQL_HEAD +:+ placeholders (length keys) +:+ DELETE_SQL_TAIL,
               PStr (_namespace_to_text ns false) :: (PStr <$> keys)))
           <$> groups)
          ++ match inserts with
             | [] => []
             | _ :: _ =>
                 [(UPSERT_SQL_HEAD
                   +:+ Py.join ","
                         ((fun _ => "(%s, %s, %s, CURRENT_TIMESTAMP, CURRENT_TIMESTAMP)")
                          <$> inserts)
                   +:+ UPSERT_SQL_TAIL,
                   flat_map
                     (fun '(op', value) =>
                        [PStr (_namespace_to_text (put_namespace op') false);
                         PStr (put_key op');
                         PJsonb (JDict value)])
                     inserts)]
             end,
          match embedded_rows config inserts with
          | [] => None
          | rows =>
              Some (VECTOR_UPSERT_SQL_HEAD
                    +:+ Py.join ","
                          ((fun _ =>
                              "(%s, %s, %s, %s, CURRENT_TIMESTAMP, CURRENT_TIMESTAMP)")
                           <$> rows)
                    +:+ VECTOR_UPSERT_SQL_TAIL,
                    rows)
          end) /\
    (forall op' value,
       (op', value) ∈ inserts ->
       put_value op' = Some value /\
       last_put put_ops (put_namespace op') (put_key op') = Some op') /\
    NoDup (groups.*1) /\
    (forall ns keys k,
       (ns, keys) ∈ groups -> k ∈ keys ->
       exists deleted,
         last_put put_ops ns k = Some deleted /\ put_value deleted = None) /\
    match put_value op with
    | Some value =>
        base.filter (fun insert => addresses namespace key insert.1) inserts
        = [(op, value)] /\
        (forall keys, (namespace, keys) ∈ groups -> key ∉ keys)
    | None =>
        base.filter (fun insert => addresses namespace key insert.1) inserts = [] /\
        exists keys,
          (namespace, keys) ∈ groups /\
          base.filter (fun k => k = key) keys = [key]
    end.
Proof.
  intros Hlast.
  set (ops := Dict.values (dedup_put_ops put_ops)).
  set (groups := foldl (group_step put_namespace put_key) [] (deletes_of ops)).
  exists groups, (inserts_of ops).
  assert (base.filter (addresses namespace key) ops = [op]) as Hops.
  { apply (dict_values_filter put_address).
    - apply dedup_keys_NoDup.
    - intros k' v'. apply dedup_addresses.
    - by rewrite dedup_get. }
  assert (forall ns keys k,
            (ns, keys) ∈ groups -> k ∈ keys ->
            exists deleted,
              last_put put_ops ns k = Some deleted /\ put_value deleted = None)
    as Hgroups.
  { intros ns keys k Hgroup Hk. apply grouped_elem_of in Hgroup as ->.
    apply list_elem_of_fmap in Hk as (deleted & -> & Hin).
    apply list_elem_of_filter in Hin as [<- Hin].
    apply list_elem_of_filter in Hin as [Hnone Hin].
    exists deleted. split; [by apply dedup_values_last|done]. }
  split_and!.
  - unfold _prepare_batch_PUT_queries. fold ops.
    assert (match deletes_of ops with
            | [] => []
            | _ :: _ => delete_queries (deletes_of ops)
            end
            = (fun '(ns, keys) =>
                 (DELETE_SQL_HEAD +:+ placeholders (length keys) +:+ DELETE_SQL_TAIL,
                  PStr (_namespace_to_text ns false) :: (PStr <$> keys)))
              <$> groups) as ->.
    { by destruct (deletes_of ops). }
    destruct (inserts_of ops) as [|insert inserts] eqn:Hinserts.
    { rewrite app_nil_r. by destruct config. }
    assert (match config with
            | Some config =>
                extend_each (embedding_rows_of (configured_text_fields config))
                  (insert :: inserts) []
            | None => Ok []
            end = Ok (embedded_rows config (insert :: inserts))) as ->.
    { destruct config as [config|]; [|done]. unfold embedded_rows.
      rewrite (extend_each_ok_flat _
                 (fun '(op', value) =>
                    flat_map
                      (fun field =>
                         (fun text =>
                            (_namespace_to_text (put_namespace op') false,
                             put_key op', field, text))
                         <$> path_fragments (JDict value) field)
                      (configured_text_fields config))); [done|].
      intros [op' value] _. apply embedding_rows_fragments. }
    cbn [mbind result_bind]. by destruct (embedded_rows config (insert :: inserts)).
  - intros op' value (op'' & Hin & Hvalue)%list_elem_of_omap.
    destruct (put_value op'') as [value'|] eqn:Hvalue'; simplify_eq/=.
    split; [done|]. by apply dedup_values_last.
  - apply grouped_keys_NoDup, NoDup_nil_2.
  - exact Hgroups.
  - rewrite inserts_of_filter, Hops. unfold inserts_of. csimpl.
    assert (base.filter (addresses namespace key) (deletes_of ops)
            = deletes_of [op]) as Hdeletes.
    { by rewrite deletes_of_filter, Hops. }
    destruct (put_value op) as [value|] eqn:Hvalue; csimpl.
    + split; [done|]. intros keys Hgroup Hkey.
      destruct (Hgroups _ _ _ Hgroup Hkey) as (deleted & Hdeleted & Hnone).
      congruence.
    + split; [done|].
      assert (put_address op = (namespace, key)) as [= Hns Hkey].
      { eapply (list_elem_of_filter (addresses namespace key)). rewrite Hops. left. }
      assert (op ∈ deletes_of ops) as Hin.
      { apply list_elem_of_filter. split; [done|].
        eapply list_elem_of_filter. rewrite Hops. left. }
      destruct (grouped_covers put_namespace put_key _ _ Hin) as (keys & Hgroup & _).
      rewrite Hns in Hgroup. exists keys. split; [done|].
      apply grouped_elem_of in Hgroup as ->.
      rewrite (filter_fmap_key put_key (fun d => put_namespace d = namespace)).
      assert (base.filter (fun d => put_namespace d = namespace /\ put_key d = key)
                (deletes_of ops)
              = base.filter (addresses namespace key) (deletes_of ops)) as ->.
      { apply list_filter_iff. intros d. unfold addresses, put_address.
        split; [by intros [-> ->]|by intros [= -> ->]]. }
      rewrite Hdeletes. unfold deletes_of.
      rewrite filter_cons_True by done. by rewrite filter_nil, <-Hkey.
Qed.

Lemma last_put_wins_witness :
  let put value :=
    (0, {| put_namespace := ["test"]; put_key := "doc1"; put_value := value |}) in
  let put_ops := [put (Some [("a", JInt 1)]); put (Some [("a", JInt 2)])] in
  exists inserts,
    base.filter (fun insert => addresses ["test"] "doc1" insert.1) inserts
    = [((put (Some [("a", JInt 2)])).2, [("a", JInt 2)])] /\
    (_prepare_batch_PUT_queries None put_ops)
    = Ok ([(UPSERT_SQL_HEAD
            +:+ Py.join ","
                  ((fun _ => "(%s, %s, %s, CURRENT_TIMESTAMP, CURRENT_TIMESTAMP)")
                   <$> inserts)
            +:+ UPSERT_SQL_TAIL,
            flat_map
              (fun '(op', value) =>
                 [PStr (_namespace_to_text (put_namespace op') false);
                  PStr (put_key op');
                  PJsonb (JDict value)])
              inserts)],
          None).
Proof.
  intros put put_ops.
  destruct (last_put_wins None put_ops ["test"] "doc1"
              (put (Some [("a", JInt 2)])).2 eq_refl)
    as (groups & inserts & Hprepare & _ & _ & Hgroups & Hkey & _).
  exists inserts. split; [done|]. rewrite Hprepare.
  destruct inserts as [|insert inserts]; [done|].
  assert (groups = []) as ->; [|done].
  destruct groups as [|[ns keys] groups]; [done|]. exfalso.
  revert Hprepare. vm_compute. by intros [= ?].
Defined.


(** ** Theorems: results by position *)

Section scatter.
Context (E : nat -> Result).

Lemma written_nil results : written E [] results results.
Proof. split; [done|]. intros i. right. split; [apply not_elem_of_nil|done]. Qed.

Lemma written_trans idxs1 idxs2 a b c :
  written E idxs1 a b -> written E idxs2 b c -> written E (idxs1 ++ idxs2) a c.
Proof.
  intros [Hlen1 H1] [Hlen2 H2]. split; [congruence|]. intros i.
  destruct (H2 i) as [[Hi2 Hc]|[Hi2 Hc]].
  - left. split; [apply elem_of_app; by right|]. intros Hi. apply Hc. lia.
  - destruct (H1 i) as [[Hi1 Hb]|[Hi1 Hb]].
    + left. split; [apply elem_of_app; by left|]. intros Hi. rewrite Hc. by apply Hb.
    + right. split; [|congruence]. rewrite elem_of_app. tauto.
Qed.

Lemma written_insert idx results :
  written E [idx] results (<[idx := E idx]> results).
Proof.
  split; [apply length_insert|]. intros i. destruct (decide (i = idx)) as [->|Hne].
  - left. split; [by left|]. intros Hi. by apply list_lookup_insert_eq.
  - right. split; [by intros ?%list_elem_of_singleton|].
    by apply list_lookup_insert_ne.
Qed.

Lemma foldl_written {X} (V : X -> Result) (items : list (nat * X)) results :
  (forall idx x, (idx, x) ∈ items -> V x = E idx) ->
  written E (items.*1) results
    (foldl (fun results '(idx, x) => <[idx := V x]> results) results items).
Proof.
  revert results. induction items as [|[idx x] items IH]; intros results HV; csimpl.
  - apply written_nil.
  - apply (written_trans [idx] _ _ (<[idx := V x]> results)).
    + rewrite (HV idx x) by left. apply written_insert.
    + apply IH. intros idx' x' Hin. apply HV. by right.
Qed.

End scatter.

Lemma prefix_app_true p s t :
  String.prefix p s = true -> String.prefix p (s +:+ t) = true.
Proof.
  revert s. induction p as [|a p IH]; intros [|b s]; simpl; try done.
  - by destruct t.
  - destruct (Ascii.ascii_dec a b); [apply IH|done].
Qed.

Lemma lstrip_app s t : Py.lstrip s <> "" -> Py.lstrip (s +:+ t) = Py.lstrip s +:+ t.
Proof.
  induction s as [|a s IH]; simpl; [done|]. by destruct (Py.isspace a).
Qed.

Lemma is_select_app s t : is_select s = true -> is_select (s +:+ t) = true.
Proof.
  unfold is_select, Py.startswith. intros Hs. rewrite lstrip_app.
  - by apply prefix_app_true.
  - by destruct (Py.lstrip s).
Qed.

Lemma key_to_row_from rows key_to_row key :
  Dict.get (foldl (fun key_to_row row => Dict.set key_to_row (row_key row) row)
              key_to_row rows) key
  = match last (base.filter (fun row => row_key row = key) rows) with
    | Some row => Some row
    | None => Dict.get key_to_row key
    end.
Proof.
  revert key_to_row. induction rows as [|row rows IH]; intros key_to_row; csimpl;
    [done|].
  rewrite IH, dict_get_set. destruct (decide (row_key row = key)) as [Heq|Hne].
  - rewrite filter_cons_True by done. rewrite last_cons.
    by destruct (last (base.filter _ _)).
  - by rewrite filter_cons_False by done.
Qed.

Lemma key_to_row_get rows key :
  Dict.get (key_to_row_of rows) key
  = last (base.filter (fun row => row_key row = key) rows).
Proof.
  unfold key_to_row_of. rewrite key_to_row_from. by destruct (last _).
Qed.

Lemma last_filter_listed (rows : list Row) (keys : list string) key :
  key ∈ keys ->
  last (base.filter (fun row => row_key row = key)
          (base.filter (fun row => row_key row ∈ keys) rows))
  = last (base.filter (fun row => row_key row = key) rows).
Proof.
  intros Hkey. rewrite list_filter_filter. f_equal. apply list_filter_iff.
  intros row. split; [tauto|]. intros <-. by split.
Qed.

Lemma elem_of_flat_map {A B} (f : A -> list B) (l : list A) (y : B) :
  y ∈ flat_map f l <-> exists x, x ∈ l /\ y ∈ f x.
Proof.
  rewrite list_elem_of_In, in_flat_map. split.
  - intros (x & ?%list_elem_of_In & ?%list_elem_of_In). by exists x.
  - intros (x & ?%list_elem_of_In & ?%list_elem_of_In). by exists x.
Qed.

Lemma indexed_lookup ops idx op : (idx, op) ∈ indexed ops <-> ops !! idx = Some op.
Proof.
  unfold indexed. rewrite elem_of_lookup_imap. split.
  - by intros (i & x & [= -> ->] & ?).
  - intros ?. by exists idx, op.
Qed.

Lemma get_ops_lookup ops idx g :
  (idx, g) ∈ get_ops_of (indexed ops) <-> ops !! idx = Some (Get g).
Proof.
  unfold get_ops_of. rewrite list_elem_of_omap. split.
  - intros ([i op] & Hin%indexed_lookup & Hop). destruct op; by simplify_eq.
  - intros Hin%indexed_lookup. by exists (idx, Get g).
Qed.

Lemma search_ops_lookup ops idx s :
  (idx, s) ∈ search_ops_of (indexed ops) <-> ops !! idx = Some (Search s).
Proof.
  unfold search_ops_of. rewrite list_elem_of_omap. split.
  - intros ([i op] & Hin%indexed_lookup & Hop). destruct op; by simplify_eq.
  - intros Hin%indexed_lookup. by exists (idx, Search s).
Qed.

Lemma list_ops_lookup ops idx l :
  (idx, l) ∈ list_ops_of (indexed ops) <-> ops !! idx = Some (ListNamespaces l).
Proof.
  unfold list_ops_of. rewrite list_elem_of_omap. split.
  - intros ([i op] & Hin%indexed_lookup & Hop). destruct op; by simplify_eq.
  - intros Hin%indexed_lookup. by exists (idx, ListNamespaces l).
Qed.

Lemma elem_of_zip_fmap_l {A B} (f : A -> B) (l : list A) w :
  w ∈ zip (f <$> l) l -> exists x, x ∈ l /\ w = (f x, x).
Proof.
  induction l as [|x l IH]; csimpl; [by intros ?%elem_of_nil|].
  intros [->|Hin]%elem_of_cons.
  - exists x. split; [by left|done].
  - destruct (IH Hin) as (y & ? & ->). exists y. split; [by right|done].
Qed.

Lemma elem_of_zip_fmap_r {A B} (f : A -> B) (l : list A) w :
  w ∈ zip l (f <$> l) -> exists x, x ∈ l /\ w = (x, f x).
Proof.
  induction l as [|x l IH]; csimpl; [by intros ?%elem_of_nil|].
  intros [->|Hin]%elem_of_cons.
  - exists x. split; [by left|done].
  - destruct (IH Hin) as (y & ? & ->). exists y. split; [by right|done].
Qed.

Lemma flat_map_zip_fmap_l {A B C} (f : A -> B) (g : A -> C) (l : list A) :
  flat_map (fun w : B * A => [g w.2]) (zip (f <$> l) l) = g <$> l.
Proof. induction l as [|x l IH]; csimpl; [done|]. by rewrite IH. Qed.

Lemma flat_map_zip_fmap_r {A B C} (f : A -> B) (g : A -> C) (l : list A) :
  flat_map (fun w : A * B => [g w.1]) (zip l (f <$> l)) = g <$> l.
Proof. induction l as [|x l IH]; csimpl; [done|]. by rewrite IH. Qed.

Lemma list_query_is_select op : is_select (list_namespaces_query op).1 = true.
Proof.
  unfold list_namespaces_query. simpl. do 2 apply is_select_app.
  destruct (_ <$> _); [done|]. by apply is_select_app.
Qed.

Lemma search_query_is_select config op q vector_query :
  search_query config op = Ok (q, vector_query) -> is_select q.1 = true.
Proof.
  unfold search_query. intros Hq.
  destruct (needs_vector_search config op); simpl in Hq;
    destruct (filter_conditions (filter op)) as [conditions|]; simplify_eq/=;
    apply is_select_app; destruct conditions; try done;
    by apply is_select_app.
Qed.

Section filled_queries.
Context (embed_text : string -> Vector) (config : option EmbeddingConfig).

(** After the vectors have been put in their slots, the queries of the
    searches are the compiled statements, position by position. *)
Lemma filled_queries (search_ops : list (nat * SearchOp)) :
  forall (pre queries : list Query) requests,
    search_queries_from config (length pre) search_ops = Ok (queries, requests) ->
    foldl (fun queries '((idx, _), embedding) =>
             set_query_vector queries idx embedding)
          (pre ++ queries) (zip requests (embed_text <$> requests.*2))
    = pre ++ ((fun entry => compiled_search embed_text config entry.2) <$> search_ops)
    /\ Forall (fun entry => exists r, search_query config entry.2 = Ok r) search_ops.
Proof.
  induction search_ops as [|[i op] rest IH]; intros pre queries requests; csimpl.
  { by intros [= <- <-]. }
  destruct (search_query config op) as [[q vq]|] eqn:Hq; simpl; [|done].
  destruct (search_queries_from config (S (length pre)) rest) as [[qs reqs]|]
    eqn:Hrest; simpl; [|done].
  intros [= <- <-].
  assert (length (pre ++ [fill_vector embed_text q vq]) = S (length pre)) as Hlen.
  { rewrite length_app. simpl. lia. }
  rewrite <-Hlen in Hrest. apply IH in Hrest as [Hfold Hall].
  split; [|constructor; [by eexists|done]].
  unfold compiled_search at 1. simpl. rewrite Hq.
  transitivity ((pre ++ [fill_vector embed_text q vq])
                ++ ((fun entry => compiled_search embed_text config entry.2)
                    <$> rest)); [|by rewrite <-(assoc_L (++))].
  rewrite <-Hfold.
  destruct vq as [text|]; csimpl; [|by rewrite <-(assoc_L (++))].
  f_equal. unfold set_query_vector. rewrite list_lookup_middle by done.
  destruct q as [query params]. rewrite insert_app_r_alt by done.
  rewrite Nat.sub_diag. simpl. by rewrite <-(assoc_L (++)).
Qed.

End filled_queries.

Local Arguments list_namespaces_query : simpl never.
Local Arguments search_query : simpl never.
Local Arguments fill_vector : simpl never.

Section results_by_position.
Context {DB : Type} (rt : Runtime DB) (stored : DB -> string -> list Row).
Context (embed_text : string -> Vector).
Context (Hbackend : StoreBackend rt stored).
Context (ops : list Op) (st0 : State DB).
Context (Hembed : forall config texts,
           embedding_config (self st0) = Some config ->
           embed_documents config texts = embed_text <$> texts).

Local Notation "'E'" :=
  (expected_at rt stored embed_text (self st0) (db st0) ops) (only parsing).

(** A loop that scatters results: when every round writes the expected
    results at its positions and leaves the database and the store as
    they were, so does the loop. *)
Lemma scatter_loop {W} (idxs_of : W -> list nat)
    (body : list Result -> W -> M DB (list Result)) work :
  (forall w results st1, w ∈ work -> db st1 = db st0 -> self st1 = self st0 ->
     match body results w st1 with
     | (Ok results', st2) =>
         db st2 = db st0 /\ self st2 = self st0 /\
         written E (idxs_of w) results results'
     | (Raise _, _) => True
     end) ->
  forall results st results' st',
    db st = db st0 -> self st = self st0 ->
    for_each work results body st = (Ok results', st') ->
    db st' = db st0 /\ self st' = self st0 /\
    written E (flat_map idxs_of work) results results'.
Proof.
  induction work as [|w work IH]; intros Hbody results st results' st' Hdb Hself.
  - intros [= <- <-]. split_and!; [done..|apply written_nil].
  - simpl. intros [(r1 & st1 & Hw & Hrest)|(e & _ & [=])]%bind_inv.
    specialize (Hbody w results st (list_elem_of_here _ _) Hdb Hself) as Hstep.
    rewrite Hw in Hstep. destruct Hstep as (Hdb1 & Hself1 & Hwritten1).
    destruct (IH (fun w' results st1 Hin => Hbody w' results st1
                    (list_elem_of_further _ _ _ Hin))
                r1 st1 results' st' Hdb1 Hself1 Hrest)
      as (Hdb' & Hself' & Hwritten').
    split_and!; [done..|]. by eapply written_trans.
Qed.

Lemma get_work_items (w : string * list Param * Namespace * list (nat * string)) :
  w ∈ _get_batch_GET_ops_queries (get_ops_of (indexed ops)) ->
  exists namespace items,
    w = ((get_query namespace (items.*2)).1, (get_query namespace (items.*2)).2,
         namespace, items) /\
    forall idx key, (idx, key) ∈ items ->
      ops !! idx = Some (Get {| get_namespace := namespace; get_key := key |}).
Proof.
  unfold _get_batch_GET_ops_queries.
  intros ([namespace items] & -> & Hgroup)%list_elem_of_fmap.
  exists namespace, items. split; [done|].
  apply grouped_elem_of in Hgroup as ->.
  intros idx key ([idx' [ns' key']] & [= -> ->] & [Hns Hin]%list_elem_of_filter)
    %list_elem_of_fmap.
  simpl in Hns. subst ns'. by apply get_ops_lookup.
Qed.

Lemma get_work_covers idx g :
  ops !! idx = Some (Get g) ->
  idx ∈ flat_map (fun w : string * list Param * Namespace * list (nat * string) =>
                    (w.2).*1)
          (_get_batch_GET_ops_queries (get_ops_of (indexed ops))).
Proof.
  intros Hin%get_ops_lookup.
  destruct (grouped_covers (fun entry : nat * GetOp => get_namespace entry.2)
              (fun entry : nat * GetOp => (entry.1, get_key entry.2))
              _ _ Hin) as (items & Hgroup & Hitem).
  apply elem_of_flat_map.
  exists ((get_query (get_namespace g) (items.*2)).1,
          (get_query (get_namespace g) (items.*2)).2, get_namespace g, items).
  split.
  - unfold _get_batch_GET_ops_queries.
    apply list_elem_of_fmap. by exists (get_namespace g, items).
  - simpl. apply list_elem_of_fmap. by exists (idx, get_key g).
Qed.

Lemma get_phase_results results st results' st' :
  db st = db st0 -> self st = self st0 ->
  _batch_get_ops rt (get_ops_of (indexed ops)) results st = (Ok results', st') ->
  db st' = db st0 /\ self st' = self st0 /\
  written E
    (flat_map (fun w : string * list Param * Namespace * list (nat * string) =>
                 (w.2).*1)
       (_get_batch_GET_ops_queries (get_ops_of (indexed ops))))
    results results'.
Proof.
  intros Hdb Hself. apply scatter_loop; [|done..].
  intros w results1 st1 Hw Hdb1 Hself1.
  destruct (get_work_items w Hw) as (namespace & items & -> & Hitems).
  unfold bind, cur_execute. rewrite (get_rows _ _ Hbackend). simpl.
  split_and!; [done..|]. apply foldl_written. intros idx key Hin.
  unfold expected_at. rewrite (Hitems idx key Hin). simpl.
  unfold stored_row. rewrite key_to_row_get, last_filter_listed, Hdb1, Hself1.
  - done.
  - apply list_elem_of_fmap. by exists (idx, key).
Qed.

Lemma list_phase_results results st results' st' :
  db st = db st0 -> self st = self st0 ->
  _batch_list_namespaces_ops rt (list_ops_of (indexed ops)) results st
  = (Ok results', st') ->
  db st' = db st0 /\ self st' = self st0 /\
  written E ((list_ops_of (indexed ops)).*1) results results'.
Proof.
  intros Hdb Hself.
  unfold _batch_list_namespaces_ops, _get_batch_list_namespaces_queries.
  rewrite <-(flat_map_zip_fmap_l
               (fun '(_, op) => list_namespaces_query op) fst
               (list_ops_of (indexed ops))).
  apply scatter_loop; [|done..].
  intros w results1 st1 ([idx op] & Hin%list_ops_lookup & ->)%elem_of_zip_fmap_l
    Hdb1 Hself1.
  pose proof (list_query_is_select op) as Hselect.
  assert (E idx = expected_result rt stored embed_text (self st0) (db st0)
                    (ListNamespaces op)) as HE.
  { unfold expected_at. by rewrite Hin. }
  cbn [expected_result] in HE. destruct (list_namespaces_query op) as [query params].
  unfold bind, cur_execute.
  pose proof (select_pure _ _ Hbackend (db st1) query params Hselect) as Hpure.
  rewrite Hdb1 in *.
  destruct (execute rt (db st0) query params) as [db' [rows|e]]; simpl in *; [|done].
  split_and!; [congruence|done|]. rewrite <-HE. apply written_insert.
Qed.

Lemma search_phase_results results st results' st' :
  db st = db st0 -> self st = self st0 ->
  _batch_search_ops rt (search_ops_of (indexed ops)) results st = (Ok results', st') ->
  db st' = db st0 /\ self st' = self st0 /\
  written E ((search_ops_of (indexed ops)).*1) results results'.
Proof.
  intros Hdb Hself. unfold _batch_search_ops.
  rewrite bind_get_self, bind_lift. unfold _prepare_batch_search_queries.
  rewrite Hself.
  destruct (search_queries_from (embedding_config (self st0)) 0
              (search_ops_of (indexed ops))) as [[queries requests]|] eqn:Hcompile;
    [|done].
  pose proof (filled_queries embed_text _ _ [] _ _ Hcompile) as [Hfilled Hall].
  simpl in Hfilled.
  intros [(queries' & st1 & Hembedded & Hloop)|(e & _ & [=])]%bind_inv.
  assert (db st1 = db st0 /\ self st1 = self st0 /\
          queries' = (fun entry => compiled_search embed_text
                                     (embedding_config (self st0)) entry.2)
                     <$> search_ops_of (indexed ops)) as (Hdb1 & Hself1 & ->).
  { destruct requests as [|request requests].
    { unfold ret in Hembedded. simpl in Hfilled. by simplify_eq. }
    destruct (embedding_config (self st0)) as [config|] eqn:Hconfig.
    - unfold bind, call_embed_documents, ret in Hembedded.
      rewrite (Hembed config) in Hembedded by done. by simplify_eq/=.
    - apply search_requests_texts in Hcompile.
      by rewrite pending_search_texts_no_config in Hcompile. }
  revert Hloop.
  rewrite <-(flat_map_zip_fmap_r
               (fun entry => compiled_search embed_text
                               (embedding_config (self st0)) entry.2) fst
               (search_ops_of (indexed ops))).
  apply scatter_loop; [|done..].
  intros w results1 st2 ([idx op] & Hin & ->)%elem_of_zip_fmap_r Hdb2 Hself2.
  rewrite Forall_forall in Hall. destruct (Hall _ Hin) as [[q vq] Hq].
  apply search_ops_lookup in Hin.
  assert (E idx = expected_result rt stored embed_text (self st0) (db st0)
                    (Search op)) as HE.
  { unfold expected_at. by rewrite Hin. }
  cbn [expected_result] in HE. cbn [snd] in Hq |- *.
  unfold compiled_search in *. rewrite Hq in HE |- *.
  assert (is_select (fill_vector embed_text q vq).1 = true) as Hselect.
  { apply search_query_is_select in Hq. by destruct vq. }
  destruct (fill_vector embed_text q vq) as [query params].
  unfold bind, cur_execute.
  pose proof (select_pure _ _ Hbackend (db st2) query params Hselect) as Hpure.
  rewrite Hdb2 in *.
  destruct (execute rt (db st0) query params) as [db' [rows|e]]; simpl in *; [|done].
  split_and!; [congruence|done|]. rewrite <-HE. apply written_insert.
Qed.

Lemma written_value idxs a b i :
  written E idxs a b -> i < length a ->
  b !! i = a !! i \/ b !! i = Some (E i).
Proof. intros [_ H] Hi. destruct (H i) as [[_ ?]|[_ ?]]; auto. Qed.

Lemma written_at idxs a b i :
  written E idxs a b -> i ∈ idxs -> i < length a -> b !! i = Some (E i).
Proof. intros [_ H] Hin Hi. destruct (H i) as [[_ ?]|[? _]]; [auto|done]. Qed.

Lemma written_keeps idxs a b i :
  written E idxs a b -> i < length a ->
  a !! i = Some (E i) -> b !! i = Some (E i).
Proof. intros Hw Hi Ha. destruct (written_value _ _ _ i Hw Hi); congruence. Qed.

Lemma batch_results st' results :
  batch rt ops st0 = (Ok results, st') ->
  length results = length ops /\
  forall i op, ops !! i = Some op ->
    results !! i
    = Some (expected_result rt stored embed_text (self st0) (db st0) op).
Proof.
  rewrite batch_is_phases. unfold batch_phases.
  intros [(r1 & st1 & Hget & Hrest)|(e & _ & [=])]%bind_inv.
  apply bind_inv in Hrest as [(r2 & st2 & Hsearch & Hrest)|(e & _ & [=])].
  apply bind_inv in Hrest as [(r3 & st3 & Hlist & Hrest)|(e & _ & [=])].
  apply bind_inv in Hrest as [([] & st4 & Hput & [= <- <-])|(e & _ & [=])].
  apply get_phase_results in Hget as (Hdb1 & Hself1 & Hw1); [|done..].
  apply search_phase_results in Hsearch as (Hdb2 & Hself2 & Hw2); [|done..].
  apply list_phase_results in Hlist as (Hdb3 & Hself3 & Hw3); [|done..].
  assert (length r1 = length ops) as Hlen1.
  { rewrite (proj1 Hw1). apply length_replicate. }
  assert (length r2 = length ops) as Hlen2 by (by rewrite (proj1 Hw2)).
  split; [by rewrite (proj1 Hw3)|].
  intros i op Hop. pose proof (lookup_lt_Some _ _ _ Hop) as Hi.
  assert (E i = expected_result rt stored embed_text (self st0) (db st0) op) as <-.
  { unfold expected_at. by rewrite Hop. }
  destruct op as [g|p|s|l].
  - eapply written_keeps; [done|lia|]. eapply written_keeps; [done|lia|].
    eapply written_at; [done| |by rewrite length_replicate].
    by eapply get_work_covers.
  - assert (E i = RNone) as HE by (unfold expected_at; by rewrite Hop).
    assert (r1 !! i = Some RNone) as H1.
    { destruct (written_value _ _ _ i Hw1) as [->| ->];
        [by rewrite length_replicate| |by rewrite HE].
      by apply lookup_replicate_2. }
    assert (r2 !! i = Some RNone) as H2.
    { destruct (written_value _ _ _ i Hw2) as [->| ->]; [lia|done|by rewrite HE]. }
    destruct (written_value _ _ _ i Hw3) as [->| ->]; [lia|by rewrite HE|done].
  - eapply written_keeps; [done|lia|].
    eapply written_at; [done| |lia].
    apply list_elem_of_fmap. exists (i, s). split; [done|].
    by apply search_ops_lookup.
  - eapply written_at; [done| |lia].
    apply list_elem_of_fmap. exists (i, l). split; [done|].
    by apply list_ops_lookup.
Qed.

End results_by_position.

Lemma strings_of_strings keys : MemoryDb.strings_of (PStr <$> keys) = keys.
Proof.
  unfold MemoryDb.strings_of. induction keys as [|key keys IH]; csimpl; [done|].
  by rewrite IH.
Qed.

Lemma prefix_refl_app p s : String.prefix p (p +:+ s) = true.
Proof.
  induction p as [|a p IH]; simpl; [by destruct s|].
  by destruct (Ascii.ascii_dec a a).
Qed.

(** The in-memory database is a backend of the store. *)
Lemma memory_db_backend : StoreBackend MemoryDb.runtime MemoryDb.stored.
Proof.
  split.
  - intros db namespace keys. simpl. unfold MemoryDb.run.
    rewrite !decide_False by done.
    unfold Py.startswith. rewrite prefix_refl_app.
    by rewrite strings_of_strings.
  - intros db query params Hselect. simpl. unfold MemoryDb.run.
    repeat case_decide; subst; try done.
    + by destruct (MemoryDb.ledger db) as [[|v vs]|].
    + destruct (Py.startswith query GET_SQL_HEAD); [|done].
      by destruct params as [|[] params].
Qed.

(** C1.  Results by position.  On a backend of the store, and with an
    embedding function that embeds text by text, a batch that returns
    gives a list as long as the list of operations, and the result at
    position [i] is the result of operation [i] on the database the batch
    started from: the item of a Get's key or nothing, nothing for a Put,
    the items of a Search's rows, the namespaces of a ListNamespaces'
    rows, however the operations are grouped by type and namespace.  A
    batch that does not return raises the exception of an unsupported
    filter operator or an exception of the driver. *)
Theorem batch_results_by_position {DB} (rt : Runtime DB)
    (stored : DB -> string -> list Row) (embed_text : string -> Vector)
    (ops : list Op) (st : State DB) :
  StoreBackend rt stored ->
  (forall config texts,
     embedding_config (self st) = Some config ->
     embed_documents config texts = embed_text <$> texts) ->
  match (batch rt ops st).1 with
  | Ok results =>
      length results = length ops /\
      forall i op, ops !! i = Some op ->
        results !! i
        = Some (expected_result rt stored embed_text (self st) (db st) op)
  | Raise e =>
      (unsupported_operator e /\ filters_supported ops = false)
      \/ driver_raises rt e
  end.
Proof.
  intros Hbackend Hembed.
  destruct (batch rt ops st) as [[results|e] st'] eqn:Hbatch; simpl.
  - by eapply batch_results.
  - apply batch_trace in Hbatch as (events & _ & _ & _ & Hraise).
    by apply Hraise.
Qed.

Lemma batch_results_by_position_witness :
  let st := Sample.state (Some Sample.config) in
  exists results,
    (batch MemoryDb.runtime Sample.mixed_batch st).1 = Ok results /\
    length results = 5 /\
    forall i op, Sample.mixed_batch !! i = Some op ->
      results !! i
      = Some (expected_result MemoryDb.runtime MemoryDb.stored Sample.embed_text
                (self st) (db st) op).
Proof.
  intros st.
  pose proof (batch_results_by_position MemoryDb.runtime MemoryDb.stored
                Sample.embed_text Sample.mixed_batch st memory_db_backend) as H.
  destruct (batch MemoryDb.runtime Sample.mixed_batch st).1 as [results|e] eqn:Hbatch.
  - exists results. split; [done|]. apply H. by intros config texts [= <-].
  - vm_compute in Hbatch. discriminate.
Defined.

(** ** Further properties: namespace codec *)

Lemma join_split c s : Py.join (String c "") (Py.split c s) = s.
Proof.
  induction s as [|a s IH]; simpl; [done|].
  pose proof (split_nonempty c s) as Hne.
  destruct (Py.split c s) as [|piece rest] eqn:Hsplit; [done|].
  rewrite <-IH. case_decide as Heq.
  - by subst a.
  - by destruct rest.
Qed.

Lemma split_app c p s :
  Py.split c (p +:+ String c s) = Py.split c p ++ Py.split c s.
Proof.
  induction p as [|a p IH]; simpl.
  - by rewrite decide_True.
  - case_decide; [by rewrite IH|]. rewrite IH.
    pose proof (split_nonempty c p). by destruct (Py.split c p).
Qed.

(** X1. Encoding after decoding gives the text back: for every prefix
    text that the driver returns as text, joining the decoded labels with
    dots is the text, whatever dots and empty labels it holds. *)
Theorem namespace_text_roundtrip (text : string) :
  _namespace_to_text (_decode_ns_bytes (NsStr text)) false = text.
Proof. apply join_split. Qed.

(** X2. Decoding an encoded namespace splits at every dot: the labels
    come back cut at the dots they contain, and the empty namespace comes
    back as the namespace of one empty label. *)
Theorem decode_splits_every_dot (ns : Namespace) :
  _decode_ns_bytes (NsStr (_namespace_to_text ns false))
  = match ns with
    | [] => [""]
    | _ :: _ => flat_map (Py.split "."%char) ns
    end.
Proof.
  unfold _decode_ns_bytes, _namespace_to_text.
  induction ns as [|label ns IH]; [done|].
  destruct ns as [|label' ns'].
  - simpl. by rewrite app_nil_r.
  - change (Py.join "." (label :: label' :: ns'))
      with (label +:+ String "."%char (Py.join "." (label' :: ns'))).
    rewrite split_app, IH. done.
Qed.

(** ** Further properties: path tokenizer *)

Lemma string_app_assoc s t u : (s +:+ t) +:+ u = s +:+ t +:+ u.
Proof.
  induction s as [|a s IH]; [done|].
  change (String a ((s +:+ t) +:+ u) = String a (s +:+ t +:+ u)). by rewrite IH.
Qed.

Lemma string_app_nil_r s : s +:+ "" = s.
Proof.
  induction s as [|a s IH]; [done|].
  change (String a (s +:+ "") = String a s). by rewrite IH.
Qed.

Lemma tokenize_path_scan path :
  _tokenize_path path = tokenize_scan path Outside "" [].
Proof. unfold _tokenize_path. case_decide; [by subst|done]. Qed.

Lemma plain_label_cons a label :
  plain_label (String a label) = true ->
  a <> "."%char /\ a <> "["%char /\ a <> "{"%char /\ plain_label label = true.
Proof.
  unfold plain_label. simpl.
  repeat case_decide; rewrite ?orb_true_r, ?orb_true_l; done.
Qed.

Lemma flush_app current pre tokens :
  flush current (pre ++ tokens) = pre ++ flush current tokens.
Proof. unfold flush. case_decide; [done|]. by rewrite (assoc_L (++)). Qed.

(** A plain label is read character by character into [current]. *)
Lemma scan_plain label rest current tokens :
  plain_label label = true ->
  tokenize_scan (label +:+ rest) Outside current tokens
  = tokenize_scan rest Outside (current +:+ label) tokens.
Proof.
  revert current. induction label as [|a label IH]; intros current Hplain.
  - by rewrite string_app_nil_r.
  - apply plain_label_cons in Hplain as (? & ? & ? & Hplain). simpl.
    rewrite !decide_False by done. rewrite IH by done.
    unfold push. by rewrite string_app_assoc.
Qed.

(** The tokens found so far are only ever extended. *)
Lemma scan_tokens_app path mode current pre tokens :
  tokenize_scan path mode current (pre ++ tokens)
  = pre ++ tokenize_scan path mode current tokens.
Proof.
  revert mode current tokens.
  induction path as [|char rest IH]; intros mode current tokens.
  - destruct mode; simpl; [apply flush_app|by rewrite (assoc_L (++))..].
  - destruct mode as [|count chars|count chars]; simpl.
    + repeat case_decide; by rewrite ?flush_app, IH.
    + destruct (if decide (char = "["%char) then _ else _);
        by rewrite <-?(assoc_L (++)), IH.
    + destruct (if decide (char = "{"%char) then _ else _);
        by rewrite <-?(assoc_L (++)), IH.
Qed.

Lemma scan_dot rest current tokens :
  tokenize_scan (String "."%char rest) Outside current tokens
  = tokenize_scan rest Outside "" (flush current tokens).
Proof. done. Qed.

Lemma scan_open_bracket rest current tokens :
  tokenize_scan (String "["%char rest) Outside current tokens
  = tokenize_scan rest (InBracket 1 "[") "" (flush current tokens).
Proof. done. Qed.

Lemma tokenize_labels labels tokens :
  Forall (fun label => plain_label label = true) labels ->
  tokenize_scan (Py.join "." labels) Outside "" tokens
  = tokens ++ base.filter (fun label => label <> "") labels.
Proof.
  intros Hall. revert tokens.
  induction Hall as [|label rest Hlabel Hrest IH]; intros tokens.
  { simpl. by rewrite app_nil_r. }
  assert (flush label tokens
          = tokens ++ base.filter (fun label => label <> "") [label]) as Hflush.
  { unfold flush. case_decide.
    - rewrite filter_cons_False by (by intros []). by rewrite app_nil_r.
    - by rewrite filter_cons_True. }
  destruct rest as [|label' rest'].
  - change (Py.join "." [label]) with label.
    rewrite <-(string_app_nil_r label) at 1. rewrite scan_plain by done.
    exact Hflush.
  - change (Py.join "." (label :: label' :: rest'))
      with (label +:+ String "."%char (Py.join "." (label' :: rest'))).
    rewrite scan_plain, scan_dot by done.
    change ("" +:+ label) with label.
    rewrite IH, Hflush, <-(assoc_L (++)). f_equal.
    change (label :: label' :: rest') with ([label] ++ label' :: rest').
    by rewrite filter_app.
Qed.

(** X3. A path of plain labels joined by dots tokenizes to its non-empty
    labels, in order: leading, trailing and doubled dots give no token. *)
Theorem tokenize_dotted_labels (labels : list string) :
  Forall (fun label => plain_label label = true) labels ->
  _tokenize_path (Py.join "." labels)
  = base.filter (fun label => label <> "") labels.
Proof. intros Hall. by rewrite tokenize_path_scan, tokenize_labels. Qed.

Lemma tokenize_dotted_labels_witness :
  _tokenize_path (Py.join "." ["a"; ""; "b c"; ""]) = ["a"; "b c"].
Proof. by apply (tokenize_dotted_labels ["a"; ""; "b c"; ""]); repeat constructor. Defined.

Lemma push_nonempty chars c : push chars c <> "".
Proof. by destruct chars. Qed.

Lemma scan_nonempty path mode current tokens :
  Forall (fun token => token <> "") tokens ->
  match mode with
  | Outside => True
  | InBracket _ chars | InBrace _ chars => chars <> ""
  end ->
  Forall (fun token => token <> "") (tokenize_scan path mode current tokens).
Proof.
  revert mode current tokens.
  assert (forall current tokens,
            Forall (fun token => token <> "") tokens ->
            Forall (fun token : string => token <> "") (flush current tokens))
    as Hflush.
  { intros current tokens Htokens. unfold flush. case_decide; [done|].
    apply Forall_app. split; [done|]. by constructor. }
  induction path as [|char rest IH]; intros mode current tokens Htokens Hmode.
  - destruct mode; simpl; [by apply Hflush|..];
      (apply Forall_app; split; [done|by constructor]).
  - destruct mode as [|count chars|count chars]; simpl.
    + repeat case_decide; apply IH; auto.
    + destruct (if decide (char = "["%char) then _ else _); apply IH;
        try apply push_nonempty; try done.
      apply Forall_app. split; [done|]. constructor; [apply push_nonempty|done].
    + destruct (if decide (char = "{"%char) then _ else _); apply IH;
        try apply push_nonempty; try done.
      apply Forall_app. split; [done|]. constructor; [apply push_nonempty|done].
Qed.

(** X4. No token of a path is empty, whatever the path. *)
Theorem tokens_are_not_empty (path : string) :
  Forall (fun token => token <> "") (_tokenize_path path).
Proof. rewrite tokenize_path_scan. by apply scan_nonempty. Qed.

(** The inner loop over an index without brackets stops at the closing
    bracket. *)
Lemma scan_index index rest chars tokens :
  Py.contains "["%char index = false ->
  Py.contains "]"%char index = false ->
  tokenize_scan (index +:+ String "]"%char rest) (InBracket 1 chars) "" tokens
  = tokenize_scan rest Outside "" (tokens ++ [chars +:+ index +:+ "]"]).
Proof.
  revert chars. induction index as [|a index IH]; intros chars; simpl.
  - done.
  - repeat case_decide; try done. intros Hopen Hclose.
    rewrite IH by done. unfold push. by rewrite string_app_assoc.
Qed.

(** X5. A field followed by an index: the path [label[index]rest] gives
    the label, the bracket group as one token, then the tokens of the
    rest. *)
Theorem tokenize_field_then_index (label index rest : string) :
  label <> "" ->
  plain_label label = true ->
  Py.contains "["%char index = false ->
  Py.contains "]"%char index = false ->
  _tokenize_path (label +:+ "[" +:+ index +:+ "]" +:+ rest)
  = label :: ("[" +:+ index +:+ "]") :: _tokenize_path rest.
Proof.
  intros Hne Hplain Hopen Hclose. rewrite !tokenize_path_scan.
  change ("[" +:+ index +:+ "]" +:+ rest)
    with (String "["%char (index +:+ String "]"%char rest)).
  rewrite scan_plain, scan_open_bracket, scan_index by done.
  change ("" +:+ label) with label.
  unfold flush. rewrite decide_False by done.
  rewrite <-(app_nil_r (([] ++ [label]) ++ ["[" +:+ index +:+ "]"])).
  by rewrite scan_tokens_app.
Qed.

Lemma tokenize_field_then_index_witness :
  _tokenize_path "items[-1].name" = ["items"; "[-1]"; "name"].
Proof. by apply (tokenize_field_then_index "items" "-1" ".name"). Defined.

(** ** Further properties: path extractor *)

Lemma plain_not_bracket label : plain_label label = true -> is_bracket_token label = false.
Proof.
  destruct label as [|a label]; [done|].
  intros (_ & Ha & _)%plain_label_cons.
  unfold is_bracket_token, Py.startswith. cbn [String.prefix].
  by destruct (ascii_dec "[" a) as [<-|].
Qed.

Lemma plain_not_brace label : plain_label label = true -> is_brace_token label = false.
Proof.
  destruct label as [|a label]; [done|].
  intros (_ & _ & Ha & _)%plain_label_cons.
  unfold is_brace_token, Py.startswith. cbn [String.prefix].
  by destruct (ascii_dec "{" a) as [<-|].
Qed.

Lemma extract_fields labels obj :
  Forall field_label labels ->
  _extract_from_obj labels obj
  = match resolve obj labels with
    | Some value => _extract_from_obj [] value
    | None => Ok []
    end.
Proof.
  intros Hall. revert obj.
  induction Hall as [|label rest (Hne & Hstar & Hplain) Hrest IH]; intros obj.
  { done. }
  cbn [_extract_from_obj resolve].
  rewrite plain_not_bracket, plain_not_brace by done.
  rewrite decide_False by done.
  destruct obj; try done. destruct (Dict.get d label); [apply IH|done].
Qed.

Lemma filter_all {A} (P : A -> Prop) `{forall x, Decision (P x)} (l : list A) :
  Forall P l -> base.filter P l = l.
Proof.
  induction 1 as [|x l Hx Hl IH]; [done|]. by rewrite filter_cons_True, IH.
Qed.

Lemma join_nonempty sep label labels :
  label <> "" -> Py.join sep (label :: labels) <> "".
Proof. destruct label; [done|]. by destruct labels. Qed.

(** X6. A path of field names joined by dots extracts the value the names
    lead to through nested maps: its text when it is there, nothing when a
    name is missing or is asked of a value that is not a map. *)
Theorem extract_dotted_path (obj : json) (labels : list string) :
  labels <> [] ->
  Forall field_label labels ->
  Py.join "." labels <> "__root__" ->
  _extract_text_by_path obj (Py.join "." labels)
  = match resolve obj labels with
    | Some value => _extract_from_obj [] value
    | None => Ok []
    end.
Proof.
  intros Hne Hall Hroot. unfold _extract_text_by_path.
  assert (Py.join "." labels <> "") as Hpath.
  { destruct Hall as [|label rest [? _] _]; [done|]. by apply join_nonempty. }
  rewrite !bool_decide_eq_false_2 by done. cbn [orb].
  rewrite tokenize_path_scan, tokenize_labels.
  - rewrite app_nil_l, filter_all; [by apply extract_fields|].
    eapply Forall_impl; [done|]. by intros label [? _].
  - eapply Forall_impl; [done|]. by intros label (_ & _ & ?).
Qed.

Lemma extract_dotted_path_witness :
  _extract_text_by_path
    (JDict [("user", JDict [("name", JStr "Ada"); ("age", JInt 36)])]) "user.name"
  = Ok ["Ada"] /\
  _extract_text_by_path
    (JDict [("user", JDict [("name", JStr "Ada"); ("age", JInt 36)])]) "user.email"
  = Ok [].
Proof.
  set (obj := JDict [("user", JDict [("name", JStr "Ada"); ("age", JInt 36)])]).
  assert (forall label, plain_label label = true -> label <> "" -> label <> "*" ->
                        field_label label) as Hlabel by (by intros label ???).
  split.
  - exact (extract_dotted_path obj ["user"; "name"] ltac:(done)
             ltac:(repeat constructor; by apply Hlabel) ltac:(done)).
  - exact (extract_dotted_path obj ["user"; "email"] ltac:(done)
             ltac:(repeat constructor; by apply Hlabel) ltac:(done)).
Defined.

Lemma fragments_of_ok tokens obj :
  _extract_from_obj tokens obj = Ok (fragments_of tokens obj).
Proof.
  unfold fragments_of. by destruct (extract_from_obj_total tokens obj) as [r ->].
Qed.

(** X7. An index token follows Python indexing: when the text between the
    brackets is an integer [i], the walk goes on from [l[i]], a negative
    [i] counting from the end, and gives nothing when [l[i]] would be out
    of range. *)
Theorem extract_index (token : string) (rest : list string) (l : list json) (i : Z) :
  is_bracket_token token = true ->
  Py.int (Py.slice_1_m1 token) = Ok i ->
  _extract_from_obj (token :: rest) (JList l)
  = match Py.getitem l i with
    | Ok item => _extract_from_obj rest item
    | Raise _ => Ok []
    end.
Proof.
  intros Hbracket Hint. cbn [_extract_from_obj]. rewrite Hbracket.
  case_decide as Hstar; [by rewrite Hstar in Hint|].
  rewrite Hint. cbn [mbind result_bind]. unfold Py.getitem.
  set (idx := if (i <? 0)%Z then (Z.of_nat (length l) + i)%Z else i).
  destruct (Z.ltb_spec idx 0) as [Hneg|Hpos].
  { rewrite (proj2 (Z.leb_gt 0 idx)) by done. done. }
  rewrite (proj2 (Z.leb_le 0 idx)) by done. cbn [andb].
  destruct (Z.ltb_spec idx (Z.of_nat (length l))) as [Hin|Hout].
  - rewrite (proj2 (Z.ltb_ge idx 0)) by done.
    destruct (lookup_lt_is_Some_2 l (Z.to_nat idx)) as [item Hitem]; [lia|].
    rewrite Hitem. cbn [mbind result_bind]. by rewrite fragments_of_ok.
  - rewrite lookup_ge_None_2 by lia. done.
Qed.

Lemma extract_index_witness :
  _extract_from_obj ["[-1]"] (JList [JStr "a"; JStr "b"; JStr "c"]) = Ok ["c"].
Proof.
  exact (extract_index "[-1]" [] [JStr "a"; JStr "b"; JStr "c"] (-1)%Z
           eq_refl eq_refl).
Defined.

(** X8. A wildcard fans out in order: over a list, [*] and [[*]] both give
    the fragments of the items one after the other; over a map, [*] gives
    the fragments of the values in the order of the map. *)
Theorem wildcard_concatenates (rest : list string) (l : list json)
    (d : list (string * json)) :
  _extract_from_obj ("*" :: rest) (JList l) = Ok (flat_map (fragments_of rest) l) /\
  _extract_from_obj ("[*]" :: rest) (JList l) = Ok (flat_map (fragments_of rest) l) /\
  _extract_from_obj ("*" :: rest) (JDict d)
  = Ok (flat_map (fragments_of rest) (Dict.values d)).
Proof.
  split_and!; cbn [_extract_from_obj];
    change (is_bracket_token "*") with false;
    change (is_brace_token "*") with false;
    change (is_bracket_token "[*]") with true;
    change (Py.slice_1_m1 "[*]") with "*";
    rewrite ?decide_True by done; cbn iota;
    rewrite (extend_each_ok_flat _ (fragments_of rest)); try done;
    intros; apply fragments_of_ok.
Qed.

Lemma brace_not_bracket token : is_brace_token token = true -> is_bracket_token token = false.
Proof.
  destruct token as [|a token]; [done|].
  unfold is_brace_token, is_bracket_token, Py.startswith. cbn [String.prefix].
  destruct (ascii_dec "{" a) as [<-|]; [|done]. by destruct (ascii_dec "[" "{").
Qed.

(** X9. A multi-field token ends the walk: the tokens that follow a
    [{..}] token are never applied, so the path gives the same fragments
    with or without them. *)
Theorem brace_token_ends_walk (token : string) (rest : list string) (obj : json) :
  is_brace_token token = true ->
  _extract_from_obj (token :: rest) obj = _extract_from_obj [token] obj.
Proof.
  intros Hbrace. cbn [_extract_from_obj].
  by rewrite (brace_not_bracket _ Hbrace), Hbrace.
Qed.

Lemma brace_token_ends_walk_witness :
  _extract_from_obj ["{a,b}"; "c"] (JDict [("a", JDict [("c", JInt 1)])])
  = _extract_from_obj ["{a,b}"] (JDict [("a", JDict [("c", JInt 1)])]).
Proof. by apply brace_token_ends_walk. Defined.

(** ** Further properties: canonical text of a value *)

Lemma leb_trans a b c :
  String.leb a b = true -> String.leb b c = true -> String.leb a c = true.
Proof.
  intros Hab%Is_true_true Hbc%Is_true_true. apply Is_true_true.
  change (String.le a c). by trans b.
Qed.

Lemma insert_sorted_comm_le x y sorted :
  String.leb x.1 y.1 = true -> x.1 <> y.1 ->
  Json.insert_sorted x (Json.insert_sorted y sorted)
  = Json.insert_sorted y (Json.insert_sorted x sorted).
Proof.
  intros Hxy Hne.
  assert (String.leb y.1 x.1 = false) as Hyx.
  { destruct (String.leb y.1 x.1) eqn:Hyx; [|done].
    destruct Hne. by apply String.leb_antisym. }
  induction sorted as [|a sorted IH]; simpl.
  { by rewrite Hxy, Hyx. }
  destruct (String.leb y.1 a.1) eqn:Hya; simpl.
  - rewrite Hxy, (leb_trans _ _ _ Hxy Hya). simpl. by rewrite Hyx, Hya.
  - destruct (String.leb x.1 a.1) eqn:Hxa; simpl.
    + by rewrite Hyx, Hya.
    + by rewrite Hya, IH.
Qed.

Lemma insert_sorted_comm x y sorted :
  x.1 <> y.1 ->
  Json.insert_sorted x (Json.insert_sorted y sorted)
  = Json.insert_sorted y (Json.insert_sorted x sorted).
Proof.
  intros Hne. destruct (String.leb_total x.1 y.1).
  - by apply insert_sorted_comm_le.
  - symmetry. by apply insert_sorted_comm_le.
Qed.

Lemma sort_items_permutation (items items' : list (string * string)) :
  items ≡ₚ items' -> NoDup (items.*1) -> Json.sort_items items = Json.sort_items items'.
Proof.
  unfold Json.sort_items.
  induction 1 as [|x l l' Hperm IH|x y l|l l' l'' Hperm IH Hperm' IH']; csimpl.
  - done.
  - intros [_ Hnd]%NoDup_cons. by rewrite IH.
  - intros [Hy _]%NoDup_cons. apply insert_sorted_comm.
    intros Heq. apply Hy. rewrite Heq. left.
  - intros Hnd. rewrite IH by done. apply IH'. by rewrite <-Hperm.
Qed.

Lemma rendered_keys (f : json -> string) (d : list (string * json)) :
  (map (fun kv : string * json => let '(k, v) := kv in (k, f v)) d).*1 = d.*1.
Proof. induction d as [|[k v] d IH]; csimpl; [done|]. by rewrite IH. Qed.

(** X10. The JSON text of a map does not depend on the order of its
    keys: two maps with the same entries in different orders have the same
    text, and so the same [__root__] fragment. *)
Theorem root_text_ignores_key_order (d d' : list (string * json)) :
  d ≡ₚ d' ->
  NoDup (d.*1) ->
  Json.dumps (JDict d) = Json.dumps (JDict d') /\
  _extract_text_by_path (JDict d) "__root__"
  = _extract_text_by_path (JDict d') "__root__".
Proof.
  intros Hperm Hnd.
  assert (Json.dumps (JDict d) = Json.dumps (JDict d')) as Hdumps.
  { cbn [Json.dumps]. do 4 f_equal. apply sort_items_permutation.
    - by apply Permutation_map.
    - by rewrite rendered_keys. }
  split; [done|]. unfold _extract_text_by_path. cbn [bool_decide orb]. simpl orb.
  by rewrite Hdumps.
Qed.

Lemma root_text_ignores_key_order_witness :
  _extract_text_by_path (JDict [("b", JInt 2); ("a", JInt 1)]) "__root__"
  = _extract_text_by_path (JDict [("a", JInt 1); ("b", JInt 2)]) "__root__".
Proof.
  apply root_text_ignores_key_order.
  - apply perm_swap.
  - by apply (bool_decide_unpack _).
Defined.

(** ** Further properties: placeholders and parameters *)

Lemma placeholders_app pending s t :
  placeholders_from pending (s +:+ t)
  = placeholders_from pending s + placeholders_from (pending_after pending s) t.
Proof.
  revert pending. induction s as [|a s IH]; intros pending; [done|].
  change (String a s +:+ t) with (String a (s +:+ t)). cbn [placeholders_from pending_after].
  destruct pending; [case_decide|]; by rewrite IH.
Qed.

Lemma pending_after_app pending s t :
  pending_after pending (s +:+ t) = pending_after (pending_after pending s) t.
Proof.
  revert pending. induction s as [|a s IH]; intros pending; [done|].
  change (String a s +:+ t) with (String a (s +:+ t)). cbn [pending_after].
  by rewrite IH.
Qed.

Lemma closed_app s t n m :
  closed_text s n -> closed_text t m -> closed_text (s +:+ t) (n + m).
Proof.
  unfold closed_text, count_placeholders. intros [<- Hs] [<- Ht].
  by rewrite placeholders_app, pending_after_app, Hs.
Qed.

Lemma closed_join sep parts k :
  closed_text sep 0 ->
  Forall (fun part => closed_text part k) parts ->
  closed_text (Py.join sep parts) (length parts * k).
Proof.
  intros Hsep. induction 1 as [|part parts Hpart Hparts IH]; [done|].
  destruct parts as [|part' parts'].
  - simpl. by rewrite Nat.add_0_r.
  - change (Py.join sep (part :: part' :: parts'))
      with (part +:+ sep +:+ Py.join sep (part' :: parts')).
    change (length (part :: part' :: parts') * k)
      with (k + (0 + length (part' :: parts') * k)).
    by repeat apply closed_app.
Qed.

Lemma closed_placeholders n : closed_text (placeholders n) n.
Proof.
  unfold placeholders.
  rewrite <-(Nat.mul_1_r n) at 2. rewrite <-(length_replicate n "%s") at 2.
  apply closed_join; [done|]. by apply Forall_replicate.
Qed.

Lemma get_query_placeholders namespace keys :
  count_placeholders (get_query namespace keys).1
  = length (get_query namespace keys).2.
Proof.
  unfold get_query. cbn [fst snd length]. rewrite length_fmap.
  assert (closed_text (GET_SQL_HEAD +:+ placeholders (length keys) +:+ GET_SQL_TAIL)
            (1 + (length keys + 0))) as [-> _]; [|lia].
  repeat apply closed_app; [done|apply closed_placeholders|done].
Qed.

(** X11. Every Get statement has as many [%s] placeholders as
    parameters: one for the prefix and one for each key. *)
Theorem get_statements_bind_every_parameter (get_ops : list (nat * GetOp)) :
  Forall (fun '(query, params, _, items) =>
            count_placeholders query = length params /\
            length params = S (length items))
         (_get_batch_GET_ops_queries get_ops).
Proof.
  unfold _get_batch_GET_ops_queries. apply Forall_fmap, Forall_forall.
  intros [namespace items] _. simpl.
  pose proof (get_query_placeholders namespace (items.*2)) as Hcount.
  split; [done|]. by rewrite !length_fmap.
Qed.

Lemma extend_each_Forall {A B} (P : B -> Prop) (f : A -> result (list B)) xs acc r :
  (forall x r', f x = Ok r' -> Forall P r') ->
  Forall P acc -> extend_each f xs acc = Ok r -> Forall P r.
Proof.
  intros Hf. revert acc. induction xs as [|x xs IH]; intros acc Hacc; simpl.
  - by intros [= <-].
  - destruct (f x) as [r'|] eqn:Hfx; [|done]. apply IH.
    apply Forall_app. split; [done|]. by eapply Hf.
Qed.

Lemma filter_condition_binds key op value c :
  _get_filter_condition key op value = Ok c -> condition_binds c.
Proof.
  unfold _get_filter_condition. repeat case_decide; intros [= <-]; by split.
Qed.

Lemma filter_conditions_bind filter conditions :
  filter_conditions filter = Ok conditions -> Forall condition_binds conditions.
Proof.
  destruct filter as [entries|]; simpl; [|by intros [= <-]].
  apply extend_each_Forall; [|done]. intros [key value] r.
  destruct value; simpl; try (intros [= <-]; by repeat constructor).
  apply extend_each_Forall; [|done]. intros [op_name val] r'.
  destruct (_get_filter_condition key op_name val) as [c|] eqn:Hc; simpl; [|done].
  intros [= <-]. constructor; [|done]. by eapply filter_condition_binds.
Qed.

Lemma conditions_params (conditions : list (string * list Param)) :
  Forall condition_binds conditions ->
  length (flat_map snd conditions) = length conditions * 2.
Proof.
  induction 1 as [|c conditions [_ Hc] _ IH]; [done|].
  simpl. rewrite length_app, Hc, IH. done.
Qed.

(** X12. Every Search statement that compiles has as many [%s]
    placeholders as parameters, whatever its filter and with or without a
    vector slot. *)
Theorem search_statement_binds_every_parameter (config : option EmbeddingConfig)
    (op : SearchOp) :
  match search_query config op with
  | Ok (q, _) => count_placeholders q.1 = length q.2
  | Raise _ => True
  end.
Proof.
  unfold search_query.
  destruct (filter_conditions (filter op)) as [conditions|] eqn:Hconditions;
    [|by destruct (needs_vector_search config op)].
  apply filter_conditions_bind in Hconditions.
  pose proof (conditions_params _ Hconditions) as Hparams.
  assert (closed_text (Py.join " AND " (conditions.*1)) (length conditions * 2))
    as Hjoin.
  { rewrite <-(length_fmap fst conditions). apply closed_join; [done|].
    apply Forall_fmap. eapply Forall_impl; [done|]. by intros c [? _]. }
  assert (forall base n,
            closed_text base n ->
            closed_text
              match conditions with
              | [] => base
              | _ :: _ => base +:+ " AND " +:+ Py.join " AND " (conditions.*1)
              end (n + length conditions * 2)) as Hbase.
  { intros base n Hn. destruct conditions as [|c conditions'].
    - by rewrite Nat.add_0_r.
    - change (n + length (c :: conditions') * 2)
        with (n + (0 + length (c :: conditions') * 2)).
      by repeat apply closed_app. }
  destruct (needs_vector_search config op); cbn [mbind result_bind fst snd].
  - assert (closed_text
              (match conditions with
               | [] => VECTOR_SEARCH_SQL
               | _ :: _ =>
                   VECTOR_SEARCH_SQL +:+ " AND " +:+ Py.join " AND " (conditions.*1)
               end +:+ " " +:+ "ORDER BY score DESC" +:+ " LIMIT %s OFFSET %s")
              (2 + length conditions * 2 + (0 + (0 + 2)))) as [-> _].
    { repeat apply closed_app; try done. by apply Hbase. }
    rewrite !length_app, Hparams. simpl. lia.
  - assert (closed_text
              (match conditions with
               | [] => SEARCH_SQL
               | _ :: _ => SEARCH_SQL +:+ " AND " +:+ Py.join " AND " (conditions.*1)
               end +:+ " " +:+ "ORDER BY updated_at DESC" +:+ " LIMIT %s OFFSET %s")
              (1 + length conditions * 2 + (0 + (0 + 2)))) as [-> _].
    { repeat apply closed_app; try done. by apply Hbase. }
    rewrite !length_app, Hparams. simpl. lia.
Qed.



Lemma delete_queries_placeholders deletes :
  Forall (fun q : Query => count_placeholders q.1 = length q.2)
         (delete_queries deletes).
Proof.
  unfold delete_queries. apply Forall_fmap, Forall_forall.
  intros [namespace keys] _. unfold compose. cbn [fst snd length].
  rewrite length_fmap.
  assert (closed_text
            (DELETE_SQL_HEAD +:+ placeholders (length keys) +:+ DELETE_SQL_TAIL)
            (1 + (length keys + 0))) as [-> _]; [|lia].
  repeat apply closed_app; [done|apply closed_placeholders|done].
Qed.

Lemma upsert_query_placeholders inserts :
  count_placeholders (upsert_query inserts).1 = length (upsert_query inserts).2.
Proof.
  unfold upsert_query. cbn [fst snd].
  assert (closed_text
            (UPSERT_SQL_HEAD
             +:+ Py.join ","
                   ((fun _ : PutOp * list (string * json) =>
                       "(%s, %s, %s, CURRENT_TIMESTAMP, CURRENT_TIMESTAMP)")
                    <$> inserts)
             +:+ UPSERT_SQL_TAIL)
            (0 + (length inserts * 3 + 0))) as [-> _].
  { repeat apply closed_app; try done.
    rewrite <-(length_fmap
                 (fun _ : PutOp * list (string * json) =>
                    "(%s, %s, %s, CURRENT_TIMESTAMP, CURRENT_TIMESTAMP)") inserts).
    apply closed_join; [done|]. by apply Forall_fmap, Forall_true. }
  induction inserts as [|[op value] inserts IH]; [done|].
  simpl in *. lia.
Qed.

Lemma vector_upsert_placeholders {A} (rows : list A) :
  count_placeholders
    (VECTOR_UPSERT_SQL_HEAD
     +:+ Py.join ","
           ((fun _ : A => "(%s, %s, %s, %s, CURRENT_TIMESTAMP, CURRENT_TIMESTAMP)")
            <$> rows)
     +:+ VECTOR_UPSERT_SQL_TAIL)
  = 4 * length rows.
Proof.
  assert (closed_text
            (VECTOR_UPSERT_SQL_HEAD
             +:+ Py.join ","
                   ((fun _ : A =>
                       "(%s, %s, %s, %s, CURRENT_TIMESTAMP, CURRENT_TIMESTAMP)")
                    <$> rows)
             +:+ VECTOR_UPSERT_SQL_TAIL)
            (0 + (length rows * 4 + 0))) as [-> _]; [|lia].
  repeat apply closed_app; try done.
  rewrite <-(length_fmap
               (fun _ : A =>
                  "(%s, %s, %s, %s, CURRENT_TIMESTAMP, CURRENT_TIMESTAMP)") rows).
  apply closed_join; [done|]. by apply Forall_fmap, Forall_true.
Qed.

Lemma put_queries_placeholders (config : option EmbeddingConfig)
    (put_ops : list (nat * PutOp)) :
  match _prepare_batch_PUT_queries config put_ops with
  | Ok (queries, request) =>
      Forall (fun q : Query => count_placeholders q.1 = length q.2) queries /\
      match request with
      | Some (query, rows) => count_placeholders query = 4 * length rows
      | None => True
      end
  | Raise _ => True
  end.
Proof.
  unfold _prepare_batch_PUT_queries.
  assert (Forall (fun q : Query => count_placeholders q.1 = length q.2)
            match deletes_of (Dict.values (dedup_put_ops put_ops)) with
            | [] => []
            | _ :: _ => delete_queries (deletes_of (Dict.values (dedup_put_ops put_ops)))
            end) as Hdeletes.
  { destruct (deletes_of _); [done|]. apply delete_queries_placeholders. }
  destruct (inserts_of _) as [|insert inserts]; [done|].
  destruct (match config with Some _ => _ | None => _ end) as [rows|]; [|done].
  cbn [mbind result_bind].
  assert (Forall (fun q : Query => count_placeholders q.1 = length q.2)
            (match deletes_of (Dict.values (dedup_put_ops put_ops)) with
             | [] => []
             | _ :: _ => delete_queries (deletes_of (Dict.values (dedup_put_ops put_ops)))
             end ++ [upsert_query (insert :: inserts)])) as Hqueries.
  { apply Forall_app. split; [done|]. constructor; [|done].
    apply upsert_query_placeholders. }
  destruct rows as [|row rows]; [done|]. split; [done|].
  apply vector_upsert_placeholders.
Qed.

(** X14. Every DELETE and the INSERT compiled for the Puts of a batch
    have as many [%s] placeholders as parameters; the statement compiled
    for the vectors has four placeholders for each fragment to embed. *)
Theorem put_statements_bind_every_parameter (config : option EmbeddingConfig)
    (put_ops : list (nat * PutOp)) :
  match _prepare_batch_PUT_queries config put_ops with
  | Ok (queries, request) =>
      Forall (fun q : Query => count_placeholders q.1 = length q.2) queries /\
      match request with
      | Some (query, rows) => count_placeholders query = 4 * length rows
      | None => True
      end
  | Raise _ => True
  end.
Proof. apply put_queries_placeholders. Qed.

Section statement_runs.
Context {DB : Type} (rt : Runtime DB).
Implicit Types (st : State DB).

(** A loop that sends statements one after the other and returns has sent
    all of them, in order. *)
Lemma execute_all_log (queries : list Query) st st' :
  for_each queries tt
    (fun _ '(query, params) => bind (cur_execute rt query params) (fun _ => ret tt)) st
  = (Ok tt, st') ->
  self st' = self st /\ log st' = log st ++ (executed <$> queries).
Proof.
  revert st. induction queries as [|[query params] queries IH]; intros st.
  { simpl. intros [= <-]. by rewrite app_nil_r. }
  cbn [for_each].
  intros [(acc & st1 & Hstep & Hrest)|(e & _ & [=])]%bind_inv.
  apply bind_inv in Hstep as [(rows & st2 & Hexec & [= <- <-])|(e & _ & [=])].
  apply cur_execute_emitted in Hexec as [[Hself Hlog] _].
  apply IH in Hrest as [Hself' Hlog']. split; [congruence|].
  rewrite Hlog', Hlog, <-(assoc_L (++)). done.
Qed.

(** X15. When the Puts of a batch give fragments to embed and the Put
    phase returns, the texts of the fragments have been embedded in one
    call, the statements of the store table have been sent, and then the
    statement compiled for the vectors, which has four placeholders for
    each fragment, has been sent once for each fragment that got a
    vector: every time with four parameters, the namespace, the key and
    the field of that fragment and its vector. *)
Theorem vector_statement_sent_per_fragment (put_ops : list (nat * PutOp))
    (config : EmbeddingConfig) (queries : list Query) (query : string)
    (rows : list (string * string * string * string)) st st' :
  embedding_config (self st) = Some config ->
  _prepare_batch_PUT_queries (Some config) put_ops = Ok (queries, Some (query, rows)) ->
  _batch_put_ops rt put_ops st = (Ok tt, st') ->
  count_placeholders query = 4 * length rows /\
  log st'
  = log st ++ [Embedded (rows.*2)]
    ++ ((fun '(statement, params) => Executed statement params) <$> queries)
    ++ ((fun '((namespace, key, field, _), vector) =>
           Executed query [PStr namespace; PStr key; PStr field; PVector vector])
        <$> zip rows (embed_documents config (rows.*2))).
Proof.
  intros Hconfig Hprepare Hrun. split.
  { pose proof (put_queries_placeholders (Some config) put_ops)
      as Hcount.
    rewrite Hprepare in Hcount. by destruct Hcount. }
  revert Hrun. unfold _batch_put_ops. rewrite bind_get_self, bind_lift, Hconfig, Hprepare.
  intros [(queries' & st1 & Hembed & Hloop)|(e & _ & [=])]%bind_inv.
  injection Hembed as <- <-.
  apply execute_all_log in Hloop as [_ Hlog]. cbn [log] in Hlog.
  rewrite Hlog, <-(assoc_L (++)), fmap_app. do 2 f_equal. f_equal.
  { apply list_fmap_ext. by intros _ [statement params] _. }
  change (map ?f ?l) with (f <$> l).
  rewrite <-list_fmap_compose. apply list_fmap_ext.
  by intros _ [[[[namespace key] field] text] vector] _.
Qed.

End statement_runs.

Lemma vector_statement_sent_per_fragment_witness :
  let put key text :=
    (0, {| put_namespace := ["test"]; put_key := key;
           put_value := Some [("text", JStr text)] |}) in
  let put_ops := [put "doc1" "red apple"; put "doc2" "green pear"] in
  let st := Sample.state (Some Sample.config) in
  exists (query : string) (queries : list Query),
    count_placeholders query = 8 /\
    log (_batch_put_ops MemoryDb.runtime put_ops st).2
    = [Embedded ["red apple"; "green pear"]]
      ++ ((fun '(statement, params) => Executed statement params) <$> queries)
      ++ [Executed query [PStr "test"; PStr "doc1"; PStr "text";
                          PVector (Sample.embed_text "red apple")];
          Executed query [PStr "test"; PStr "doc2"; PStr "text";
                          PVector (Sample.embed_text "green pear")]].
Proof.
  intros put put_ops st.
  assert (exists queries query,
            _prepare_batch_PUT_queries (Some Sample.config) put_ops
            = Ok (queries, Some (query, [("test", "doc1", "text", "red apple");
                                         ("test", "doc2", "text", "green pear")])))
    as (queries & query & Hprepare).
  { eexists _, _. vm_compute. reflexivity. }
  assert (exists st', _batch_put_ops MemoryDb.runtime put_ops st = (Ok tt, st'))
    as [st' Hrun].
  { eexists. vm_compute. reflexivity. }
  destruct (vector_statement_sent_per_fragment MemoryDb.runtime put_ops
              Sample.config queries query _ st st' eq_refl Hprepare Hrun)
    as [Hcount Hlog].
  exists query, queries. rewrite Hrun. split; [exact Hcount|exact Hlog].
Defined.

(** ** Further properties: grouping of the Gets *)

(** X16. The Gets of a batch are sent as one statement for each
    namespace: no two statements are for the same namespace, the
    statement of a namespace asks for the keys of all the Gets of that
    namespace, in their order and with repetitions, and every Get is in
    the statement of its namespace. *)
Theorem one_get_statement_per_namespace (get_ops : list (nat * GetOp)) :
  let work := _get_batch_GET_ops_queries get_ops in
  NoDup ((fun w => w.1.2) <$> work) /\
  (forall query params namespace items,
     (query, params, namespace, items) ∈ work ->
     items = (fun entry => (entry.1, get_key entry.2))
             <$> base.filter (fun entry => get_namespace entry.2 = namespace) get_ops /\
     items <> [] /\
     (query, params) = get_query namespace (items.*2)) /\
  (forall idx op,
     (idx, op) ∈ get_ops ->
     exists query params items,
       (query, params, get_namespace op, items) ∈ work /\ (idx, get_key op) ∈ items).
Proof.
  intros work. subst work. unfold _get_batch_GET_ops_queries.
  set (groups := foldl (group_step (fun entry : nat * GetOp => get_namespace entry.2)
                          (fun entry => (entry.1, get_key entry.2))) [] get_ops).
  split_and!.
  - rewrite <-list_fmap_compose.
    assert (((fun w : string * list Param * Namespace * list (nat * string) => w.1.2)
             ∘ (fun '(namespace, items) =>
                  let '(query, params) := get_query namespace (items.*2) in
                  (query, params, namespace, items)))
            <$> groups = Dict.keys groups) as ->.
    { unfold Dict.keys. apply list_fmap_ext. by intros i [namespace items] _. }
    apply grouped_keys_NoDup, NoDup_nil_2.
  - intros query params namespace items
      ([namespace' items'] & [= -> -> -> ->] & Hin)%list_elem_of_fmap.
    pose proof (grouped_elem_of _ _ _ _ _ Hin) as Hitems.
    split_and!; [done| |done].
    intros ->. apply dict_elem_of_get in Hin;
      [|apply grouped_keys_NoDup, NoDup_nil_2].
    fold groups in Hin. unfold groups in Hin. rewrite grouped_get in Hin.
    simpl in Hin. by destruct (_ <$> _).
  - intros idx op Hin.
    destruct (grouped_covers (fun entry : nat * GetOp => get_namespace entry.2)
                (fun entry => (entry.1, get_key entry.2)) get_ops (idx, op) Hin)
      as (items & Hgroup & Hitem).
    exists (get_query (get_namespace op) (items.*2)).1,
           (get_query (get_namespace op) (items.*2)).2, items.
    split; [|done]. apply list_elem_of_fmap. by exists (get_namespace op, items).
Qed.

(** ** Further properties: batches that only read *)

Lemma search_queries_select config idx (search_ops : list (nat * SearchOp))
    queries requests :
  search_queries_from config idx search_ops = Ok (queries, requests) ->
  Forall (fun q : Query => is_select q.1 = true) queries.
Proof.
  revert idx queries requests.
  induction search_ops as [|[i op] rest IH]; intros idx queries requests; simpl.
  { by intros [= <- <-]. }
  destruct (search_query config op) as [[q vq]|] eqn:Hq; simpl; [|done].
  destruct (search_queries_from config (S idx) rest) as [[qs reqs]|] eqn:Hrest;
    simpl; [|done].
  intros [= <- <-]. constructor; [by eapply search_query_is_select|by eapply IH].
Qed.

Lemma set_query_vector_select queries idx embedding :
  Forall (fun q : Query => is_select q.1 = true) queries ->
  Forall (fun q : Query => is_select q.1 = true)
         (set_query_vector queries idx embedding).
Proof.
  intros Hall. unfold set_query_vector.
  destruct (queries !! idx) as [[query params]|] eqn:Hidx; [|done].
  apply Forall_insert; [done|]. by apply (Forall_lookup_1 _ _ _ _ Hall Hidx).
Qed.

Lemma Forall_zip_snd {A B} (P : B -> Prop) (l : list A) (k : list B) :
  Forall P k -> Forall (fun entry => P entry.2) (zip l k).
Proof.
  intros Hk. revert l. induction Hk as [|y k Hy Hk IH]; intros [|x l]; simpl;
    try done. constructor; [done|apply IH].
Qed.

Lemma no_put_ops (l : list (nat * Op)) :
  Forall (fun entry => type_of entry.2 <> PutOpT) l -> put_ops_of l = [].
Proof.
  unfold put_ops_of. induction 1 as [|[idx op] l Hop Hl IH]; [done|].
  csimpl. rewrite IH. by destruct op.
Qed.

Section read_only.
Context {DB : Type} (rt : Runtime DB).
Context (Hpure : forall db query params,
           is_select query = true -> (execute rt db query params).1 = db).
Implicit Types (st : State DB).

Lemma select_keeps_db {A} query params (k : list Row -> M DB A) st r st' :
  is_select query = true ->
  (forall rows st1 r1 st1', k rows st1 = (r1, st1') -> db st1' = db st1) ->
  bind (cur_execute rt query params) k st = (r, st') ->
  db st' = db st.
Proof.
  intros Hselect Hk. unfold bind, cur_execute.
  pose proof (Hpure (db st) query params Hselect) as Hdb.
  destruct (execute rt (db st) query params) as [db' [rows|e]]; simpl in Hdb; subst db'.
  - intros Hrest. by apply Hk in Hrest.
  - by intros [= <- <-].
Qed.

Lemma for_each_keeps_db {A X} (body : A -> X -> M DB A) xs acc st r st' :
  Forall (fun x => forall acc st r st', body acc x st = (r, st') -> db st' = db st) xs ->
  for_each xs acc body st = (r, st') -> db st' = db st.
Proof.
  intros Hall. revert acc st.
  induction Hall as [|x xs Hx Hxs IH]; intros acc st; simpl.
  { by intros [= <- <-]. }
  intros [(acc' & st1 & Hstep & Hrest)|(e & Hstep & _)]%bind_inv.
  - apply Hx in Hstep. apply IH in Hrest. congruence.
  - by apply Hx in Hstep.
Qed.

Lemma get_phase_keeps_db get_ops results st r st' :
  _batch_get_ops rt get_ops results st = (r, st') -> db st' = db st.
Proof.
  apply for_each_keeps_db. unfold _get_batch_GET_ops_queries.
  apply Forall_fmap, Forall_forall. intros [namespace items] _.
  unfold compose. intros acc st0 r0 st0'.
  apply select_keeps_db; [by apply is_select_app|].
  by intros rows st1 r1 st1' [= <- <-].
Qed.

Lemma list_phase_keeps_db list_ops results st r st' :
  _batch_list_namespaces_ops rt list_ops results st = (r, st') -> db st' = db st.
Proof.
  apply for_each_keeps_db.
  assert (Forall (fun q : Query => is_select q.1 = true)
            (_get_batch_list_namespaces_queries list_ops)) as Hall.
  { apply Forall_fmap, Forall_forall. intros [idx op] _. apply list_query_is_select. }
  revert Hall. generalize (_get_batch_list_namespaces_queries list_ops).
  intros queries Hall. revert list_ops.
  induction Hall as [|[query params] queries Hq Hqs IH]; intros [|[idx op] list_ops];
    simpl; try done.
  constructor; [|apply IH]. intros acc st0 r0 st0'.
  apply select_keeps_db; [done|]. by intros rows st1 r1 st1' [= <- <-].
Qed.

Lemma search_phase_keeps_db search_ops results st r st' :
  _batch_search_ops rt search_ops results st = (r, st') -> db st' = db st.
Proof.
  unfold _batch_search_ops. rewrite bind_get_self, bind_lift.
  unfold _prepare_batch_search_queries.
  destruct (search_queries_from _ 0 search_ops) as [[queries requests]|] eqn:Hcompile;
    [|by intros [= <- <-]].
  apply search_queries_select in Hcompile.
  intros [(queries' & st1 & Hembed & Hloop)|(e & Hembed & _)]%bind_inv; last first.
  { by destruct requests, (embedding_config (self st)). }
  assert (db st1 = db st /\ Forall (fun q : Query => is_select q.1 = true) queries')
    as [Hdb Hselect].
  { destruct requests as [|request requests], (embedding_config (self st));
      try (by injection Hembed as <- <-).
    injection Hembed as <- <-. split; [done|]. clear Hloop.
    match goal with |- Forall _ (foldl _ _ ?v) => generalize v end.
    intros vectors. revert queries Hcompile.
    induction vectors as [|[[idx text] embedding] vectors IH]; intros queries Hall;
      simpl; [done|].
    by apply IH, set_query_vector_select. }
  rewrite <-Hdb. revert Hloop. apply for_each_keeps_db.
  apply (Forall_zip_snd (fun q : Query => is_select q.1 = true) search_ops) in Hselect.
  eapply Forall_impl; [exact Hselect|].
  intros [[idx op] [query params]] Hq acc st0 r0 st0'.
  apply select_keeps_db; [done|]. by intros rows st2 r2 st2' [= <- <-].
Qed.

(** X17. A batch without Put operations leaves the database as it was,
    whether it returns or raises, on a database whose SELECT statements
    change nothing: every statement of the Get, Search and ListNamespaces
    phases is a SELECT. *)
Theorem read_only_batch_keeps_database (ops : list Op) st :
  Forall (fun op => type_of op <> PutOpT) ops ->
  db (batch rt ops st).2 = db st.
Proof.
  intros Hops. rewrite batch_is_phases. unfold batch_phases.
  assert (Forall (fun entry : nat * Op => type_of entry.2 <> PutOpT) (indexed ops))
    as Hindexed.
  { apply Forall_forall. intros [idx op] Hin%indexed_lookup.
    rewrite Forall_forall in Hops. apply Hops.
    by eapply list_elem_of_lookup_2. }
  rewrite no_put_ops by done.
  destruct (bind _ _ st) as [r st'] eqn:Hbatch. simpl.
  apply bind_inv in Hbatch as [(r1 & st1 & Hget & Hrest)|(e & Hget & _)];
    apply get_phase_keeps_db in Hget; [|done].
  apply bind_inv in Hrest as [(r2 & st2 & Hsearch & Hrest)|(e & Hsearch & _)];
    apply search_phase_keeps_db in Hsearch; [|congruence].
  apply bind_inv in Hrest as [(r3 & st3 & Hlist & Hrest)|(e & Hlist & _)];
    apply list_phase_keeps_db in Hlist; [|congruence].
  apply bind_inv in Hrest as [([] & st4 & Hput & Hrest)|(e & Hput & _)].
  - injection Hput as <-. injection Hrest as <- <-. congruence.
  - done.
Qed.

End read_only.

Lemma read_only_batch_keeps_database_witness :
  db (batch MemoryDb.runtime
        [Sample.get_key1; Sample.search_apple; Sample.list_all; Sample.get_key3]
        (Sample.state (Some Sample.config))).2
  = Sample.database.
Proof.
  apply (read_only_batch_keeps_database MemoryDb.runtime).
  - apply (select_pure _ _ memory_db_backend).
  - by repeat constructor.
Defined.

(** ** Further properties: migration runner *)

Section setup_facts.
Context {DB : Type} (rt : Runtime DB).
Implicit Types (st : State DB).

Lemma disable_vectors_returns vector_migration st :
  exists st', disable_vectors_if (DB:=DB) vector_migration st = (Ok tt, st').
Proof. destruct vector_migration; by eexists. Qed.

Lemma run_migration_returns v sql vector_migration st :
  exists st', run_migration rt v sql vector_migration st = (Ok tt, st').
Proof.
  unfold run_migration, try_except.
  destruct (bind _ _ st) as [[[]|e] st1]; [by eexists|].
  apply disable_vectors_returns.
Qed.

Lemma check_vector_available_returns st :
  exists available st',
    check_vector_available rt st = (Ok available, st') /\
    self st' = self st /\
    (available = true -> is_Some (embedding_config (self st))) /\
    (embedding_config (self st) = None -> available = false /\ st' = st) /\
    (forall e, (execute rt (db st) VECTOR_AVAILABLE_SQL []).2 = Raise e ->
               available = false) /\
    exists events,
      log st' = log st ++ events /\
      (events = [] \/ events = [Executed VECTOR_AVAILABLE_SQL []]).
Proof.
  unfold check_vector_available. rewrite bind_get_self.
  destruct (embedding_config (self st)) as [config|].
  - unfold try_except, bind, cur_execute.
    destruct (execute rt (db st) VECTOR_AVAILABLE_SQL []) as [db' [rows|e]];
      do 2 eexists; (split; [done|]); simpl;
      (split_and!; [done|by eauto|done|done || by intros ? [=]|]);
      eexists; split; try done; by right.
  - exists false, st. split_and!; try done.
    exists []. rewrite app_nil_r. by split; [|left].
Qed.

Lemma unparameterized_step_returns v (entry : MigrationEntry DB) st :
  unparameterized entry ->
  exists st', migration_step rt v entry st = (Ok tt, st').
Proof.
  destruct entry as [text|m]; cbn [migration_step unparameterized].
  { intros _. apply run_migration_returns. }
  intros [Hparams Hcondition].
  assert (exists applies st1,
            match condition m with
            | Some c => call_condition rt c
            | None => ret true
            end st = (Ok applies, st1)) as (applies & st1 & Hcondition').
  { destruct Hcondition as [-> | ->]; [by eexists _, _|].
    destruct (check_vector_available_returns st)
      as (available & st1 & Hcheck & _).
    by exists available, st1. }
  rewrite (bind_ok _ _ _ _ _ Hcondition').
  destruct applies; cbn [negb]; [|by eexists].
  destruct Hparams as [-> | ->]; apply run_migration_returns.
Qed.

Lemma run_steps_returns (entries : list (Z * MigrationEntry DB)) st :
  Forall (fun entry => unparameterized entry.2) entries ->
  exists st', run_steps rt entries st = (Ok tt, st').
Proof.
  intros Hall. revert st. unfold run_steps.
  induction Hall as [|[v entry] entries Hentry Hentries IH]; intros st;
    [by eexists|].
  cbn [for_each].
  destruct (unparameterized_step_returns v entry st Hentry) as [st1 Hstep].
  rewrite (bind_ok _ _ _ _ _ Hstep). apply IH.
Qed.

Lemma run_pending_returns (migrations : list (MigrationEntry DB)) version st :
  Forall unparameterized migrations ->
  exists st', run_pending rt migrations version st = (Ok tt, st').
Proof.
  intros Hall. unfold run_pending. apply run_steps_returns, Forall_forall.
  intros [v entry] Hin. unfold enumerate_from in Hin.
  apply elem_of_lookup_imap in Hin as (i & entry' & [= -> ->] & Hlookup).
  apply list_elem_of_lookup_2 in Hlookup. unfold slice_from in Hlookup.
  rewrite Forall_forall in Hall. apply Hall.
  destruct (_ <? _)%Z; by eapply subseteq_drop.
Qed.

(** X18. Migrations without parameters never make [setup] fail: whatever
    the database answers, going through the pending migrations returns, a
    migration whose statement fails being skipped.  [setup] then raises
    only when reading the version raises, with an exception of the
    driver. *)
Theorem setup_fails_only_reading_version (migrations : list (MigrationEntry DB)) st :
  Forall unparameterized migrations ->
  (forall version st1,
     exists st', run_pending rt migrations version st1 = (Ok tt, st')) /\
  match read_version rt st with
  | (Ok _, _) => exists st', setup rt migrations st = (Ok tt, st')
  | (Raise e, st1) => setup rt migrations st = (Raise e, st1) /\ driver_raises rt e
  end.
Proof.
  intros Hall. split; [intros; by apply run_pending_returns|]. unfold setup.
  destruct (read_version rt st) as [[version|e] st1] eqn:Hread.
  - rewrite (bind_ok _ _ _ _ _ Hread). by apply run_pending_returns.
  - split; [by apply bind_raise|].
    revert Hread. unfold read_version, try_except, bind, cur_execute.
    destruct (execute rt (db st) LEDGER_SELECT_SQL []) as [db1 [rows|e1]] eqn:Hselect;
      [done|]. simpl.
    assert (driver_raises rt e1) as He1.
    { exists (db st), LEDGER_SELECT_SQL, []. by rewrite Hselect. }
    destruct e1; try (by intros [= <- <-]). simpl.
    destruct (execute rt db1 LEDGER_CREATE_SQL []) as [db2 [rows|e2]] eqn:Hcreate;
      [done|].
    intros [= <- <-]. exists db1, LEDGER_CREATE_SQL, []. by rewrite Hcreate.
Qed.

(** X19. On a database whose ledger already holds the version of the
    last migration, [setup] sends the version query and nothing else. *)
Theorem setup_up_to_date (migrations : list (MigrationEntry DB)) st db' row rows :
  execute rt (db st) LEDGER_SELECT_SQL [] = (db', Ok (row :: rows)) ->
  (-1 <= row_v row)%Z ->
  (Z.of_nat (length migrations) <= row_v row + 1)%Z ->
  setup rt migrations st
  = (Ok tt, {| self := self st; db := db';
               log := log st ++ [Executed LEDGER_SELECT_SQL []] |}).
Proof.
  intros Hselect Hlow Hhigh.
  unfold setup, read_version, try_except, bind at 1, bind at 1, cur_execute.
  rewrite Hselect. cbn. unfold run_pending, slice_from.
  destruct (Z.ltb_spec (row_v row + 1) 0); [lia|].
  rewrite drop_ge by lia. done.
Qed.

(** X20. A migration whose statement raises is not recorded and does not
    stop [setup].  For an entry of the migrations without parameters,
    whose condition, if it has one, answers true: when its statement
    raises, the step returns after that one statement, without the insert
    into the ledger, and the embedding configuration is set to none when
    the entry is a [Migration] whose condition is
    [check_vector_available], and is left as it was for SQL text and for
    any other [Migration]. *)
Theorem failed_migration_is_not_recorded (v : Z) (entry : MigrationEntry DB)
    st st1 db' e :
  entry_params entry = [] ->
  match entry_condition entry with
  | Some c => call_condition rt c st = (Ok true, st1)
  | None => st1 = st
  end ->
  execute rt (db st1) (entry_sql entry) [] = (db', Raise e) ->
  exists st',
    migration_step rt v entry st = (Ok tt, st') /\
    db st' = db' /\
    log st' = log st1 ++ [Executed (entry_sql entry) []] /\
    embedding_config (self st')
    = match entry_condition entry with
      | Some check_vector_available_fn => None
      | _ => embedding_config (self st1)
      end /\
    _deserializer (self st') = _deserializer (self st1) /\
    class_name (self st') = class_name (self st1).
Proof.
  intros Hparams Hcondition Hexec.
  assert (forall vector_migration,
            run_migration rt v (entry_sql entry) vector_migration st1
            = disable_vectors_if vector_migration
                {| self := self st1; db := db';
                   log := log st1 ++ [Executed (entry_sql entry) []] |}) as Hrun.
  { intros vector_migration. unfold run_migration, try_except, bind, cur_execute.
    by rewrite Hexec. }
  destruct entry as [text|m]; cbn [entry_sql entry_condition entry_params] in *.
  { subst st1. cbn [migration_step]. rewrite Hrun. by eexists. }
  cbn [migration_step].
  assert (match params m with
          | Some ((_ :: _) as producers) =>
              bind (eval_params producers) (fun values =>
              match percent_format rt (sql m) values with
              | Ok text =>
                  run_migration rt v text (is_check_vector_available (condition m))
              | Raise _ => disable_vectors_if (is_check_vector_available (condition m))
              end)
          | _ => run_migration rt v (sql m) (is_check_vector_available (condition m))
          end st1
          = run_migration rt v (sql m) (is_check_vector_available (condition m)) st1)
    as Hstep.
  { by destruct (params m) as [[|producer producers]|]. }
  destruct (condition m) as [c|].
  - erewrite bind_ok by exact Hcondition. cbn [negb]. rewrite Hstep, Hrun.
    destruct c; by eexists.
  - subst st1. unfold bind at 1. cbn [ret negb]. rewrite Hstep, Hrun. by eexists.
Qed.

(** X21. [check_vector_available] never raises and leaves the store
    object as it is.  It answers true only when an embedding configuration
    is set; without one it answers false without touching the database;
    when the probe raises it answers false; it sends at most the probe. *)
Theorem vector_probe_never_raises st :
  exists available st',
    check_vector_available rt st = (Ok available, st') /\
    self st' = self st /\
    (available = true -> is_Some (embedding_config (self st))) /\
    (embedding_config (self st) = None -> available = false /\ st' = st) /\
    (forall e, (execute rt (db st) VECTOR_AVAILABLE_SQL []).2 = Raise e ->
               available = false) /\
    exists events,
      log st' = log st ++ events /\
      (events = [] \/ events = [Executed VECTOR_AVAILABLE_SQL []]).
Proof. apply check_vector_available_returns. Qed.

End setup_facts.

Lemma setup_fails_only_reading_version_witness :
  exists st',
    setup MemoryDb.runtime (take 3 MIGRATIONS) (Sample.state (Some Sample.config))
    = (Ok tt, st').
Proof.
  destruct (setup_fails_only_reading_version MemoryDb.runtime (take 3 MIGRATIONS)
              (Sample.state (Some Sample.config))) as [_ Hsetup].
  - repeat constructor; by right.
  - destruct (read_version MemoryDb.runtime (Sample.state (Some Sample.config)))
      as [[version|e] st1] eqn:Hread; [exact Hsetup|].
    vm_compute in Hread. discriminate.
Defined.

Lemma setup_up_to_date_witness :
  let database :=
    {| MemoryDb.store_rows := []; MemoryDb.ledger := Some [0; 1; 2; 3; 4]%Z;
       MemoryDb.vector_extension := true |} in
  let store := self (Sample.state (Some Sample.config)) in
  setup MemoryDb.runtime MIGRATIONS {| self := store; db := database; log := [] |}
  = (Ok tt, {| self := store; db := database;
               log := [Executed LEDGER_SELECT_SQL []] |}).
Proof.
  intros database store.
  apply (setup_up_to_date MemoryDb.runtime MIGRATIONS
           {| self := store; db := database; log := [] |} database
           (MemoryDb.ledger_row 4) []); [reflexivity|simpl; lia|simpl; lia].
Defined.

Lemma failed_migration_is_not_recorded_witness :
  let rt :=
    {| execute := fun db query params =>
                    if decide (query = MIGRATION_2_SQL)
                    then (db, Raise (DbError "permission denied"))
                    else MemoryDb.run db query params;
       orjson_loads := fun _ => JNull;
       percent_format := fun sql _ => Ok sql |} in
  let entry :=
    MigrationObj {| sql := MIGRATION_2_SQL;
                    condition := Some check_vector_available_fn;
                    params := None |} in
  let st :=
    {| self := self (Sample.state (Some Sample.config));
       db := MemoryDb.with_vector_extension Sample.database;
       log := [] |} in
  exists st',
    migration_step rt 2 entry st = (Ok tt, st') /\
    db st' = db st /\
    log st' = [Executed VECTOR_AVAILABLE_SQL []; Executed MIGRATION_2_SQL []] /\
    embedding_config (self st') = None.
Proof.
  intros rt entry st.
  destruct (failed_migration_is_not_recorded rt 2 entry st
              {| self := self st; db := db st;
                 log := [Executed VECTOR_AVAILABLE_SQL []] |}
              (db st) (DbError "permission denied") eq_refl eq_refl eq_refl)
    as (st' & Hrun & Hdb & Hlog & Hconfig & _).
  by exists st'.
Defined.

(** ** Further properties: compiled statements *)

Lemma flat_map_filter {A B} (P : A -> Prop) `{forall x, Decision (P x)}
    (f : A -> list B) (l : list A) :
  (forall x, ~ P x -> f x = []) -> flat_map f (base.filter P l) = flat_map f l.
Proof.
  intros Hf. induction l as [|x l IH]; [done|].
  destruct (decide (P x)).
  - rewrite filter_cons_True by done. simpl. by rewrite IH.
  - rewrite filter_cons_False by done. simpl. by rewrite IH, Hf.
Qed.

(** X22. A ListNamespaces statement depends on the match conditions of
    type [prefix] and [suffix] only: conditions of any other type are
    passed over, and two operations with the same known conditions, depth,
    limit and offset compile to the same statement. *)
Theorem unknown_match_types_are_ignored (op op' : ListNamespacesOp) :
  known_conditions op = known_conditions op' ->
  max_depth op = max_depth op' ->
  ln_limit op = ln_limit op' ->
  ln_offset op = ln_offset op' ->
  list_namespaces_query op = list_namespaces_query op'.
Proof.
  unfold known_conditions, list_namespaces_query. intros Hknown -> -> ->.
  set (pattern := fun condition : MatchCondition =>
         if decide (match_type condition = "prefix")
         then [_namespace_to_text (path condition) true +:+ "%"]
         else if decide (match_type condition = "suffix")
              then ["%" +:+ _namespace_to_text (path condition) true]
              else []).
  assert (forall l,
            flat_map pattern l
            = flat_map pattern
                (base.filter (fun c => match_type c = "prefix" \/ match_type c = "suffix")
                   l)) as Hfilter.
  { intros l. symmetry. apply flat_map_filter. intros c Hc. unfold pattern.
    repeat case_decide; tauto. }
  by rewrite (Hfilter (default [] (match_conditions op))),
             (Hfilter (default [] (match_conditions op'))), Hknown.
Qed.

Lemma unknown_match_types_are_ignored_witness :
  list_namespaces_query
    {| match_conditions := Some [{| match_type := "contains"; path := ["a"] |}];
       max_depth := None; ln_limit := 10; ln_offset := 0 |}
  = list_namespaces_query
      {| match_conditions := None; max_depth := None; ln_limit := 10; ln_offset := 0 |}.
Proof. by apply unknown_match_types_are_ignored. Defined.

(** X23. An empty filter and an empty query text are read as absent: a
    Search compiles to the same statement, and asks for the same
    embedding, as the Search without them. *)
Theorem empty_filter_and_query_are_absent (config : option EmbeddingConfig)
    (op : SearchOp) :
  search_query config (without_empty_parts op) = search_query config op.
Proof.
  unfold search_query, needs_vector_search, without_empty_parts.
  cbn [namespace_prefix filter limit offset query].
  assert (filter_conditions match filter op with Some [] => None | other => other end
          = filter_conditions (filter op)) as ->.
  { by destruct (filter op) as [[|]|]. }
  destruct (query op) as [text|]; [|done].
  destruct (decide (text = "")) as [->|Hne], config; try done.
  by rewrite !decide_False by done.
Qed.

(** X24. An operator map with [$eq] alone compiles to the condition of
    the plain value: [{key: {"$eq": value}}] and [{key: value}] give the
    same condition and parameters when the value is not a map. *)
Theorem eq_operator_is_plain_value (key : string) (value : json) :
  (forall d, value <> JDict d) ->
  filter_entry_conditions key (JDict [("$eq", value)])
  = filter_entry_conditions key value.
Proof. intros Hvalue. destruct value; try done. by destruct (Hvalue d). Qed.

Lemma eq_operator_is_plain_value_witness :
  filter_entry_conditions "status" (JDict [("$eq", JStr "active")])
  = filter_entry_conditions "status" (JStr "active").
Proof. by apply eq_operator_is_plain_value. Defined.

(** ** Further properties: what the Puts embed *)

Lemma root_rows (inserts : list (PutOp * list (string * json))) :
  extend_each (embedding_rows_of ["__root__"]) inserts []
  = Ok ((fun '(op, value) =>
           (_namespace_to_text (put_namespace op) false, put_key op,
            "__root__", Json.dumps (JDict value))) <$> inserts).
Proof.
  rewrite (extend_each_ok_flat _
             (fun '(op, value) =>
                [(_namespace_to_text (put_namespace op) false, put_key op,
                  "__root__", Json.dumps (JDict value))])).
  - f_equal. induction inserts as [|[op value] inserts IH]; [done|].
    simpl in *. by rewrite IH.
  - by intros [op value] _.
Qed.

(** X25. With the default text field the whole value is embedded: when
    the [text_fields] of the configuration is missing or none, the
    fragments to embed are, for each upserted item in order, the JSON text
    of its value with sorted keys, under the field name [__root__]; a
    batch that upserts nothing has no fragment. *)
Theorem default_text_field_embeds_whole_value (config : EmbeddingConfig)
    (put_ops : list (nat * PutOp)) :
  text_fields config = TextFieldsMissing \/ text_fields config = TextFieldsNone ->
  let inserts := inserts_of (Dict.values (dedup_put_ops put_ops)) in
  match _prepare_batch_PUT_queries (Some config) put_ops with
  | Ok (_, Some (_, rows)) =>
      rows = (fun '(op, value) =>
                (_namespace_to_text (put_namespace op) false, put_key op,
                 "__root__", Json.dumps (JDict value))) <$> inserts
  | Ok (_, None) => inserts = []
  | Raise _ => False
  end.
Proof.
  intros Hfields inserts. subst inserts. unfold _prepare_batch_PUT_queries.
  destruct (inserts_of _) as [|insert inserts]; [done|].
  assert (configured_text_fields config = ["__root__"]) as ->.
  { unfold configured_text_fields. by destruct Hfields as [-> | ->]. }
  rewrite root_rows. by destruct insert.
Qed.

Lemma default_text_field_embeds_whole_value_witness :
  let config :=
    {| dims := 1; embed_documents := fun texts => Sample.embed_text <$> texts;
       text_fields := TextFieldsNone |} in
  let put_ops :=
    [(0, {| put_namespace := ["test"]; put_key := "doc1";
            put_value := Some [("b", JInt 2); ("a", JStr "x")] |})] in
  exists queries query,
    _prepare_batch_PUT_queries (Some config) put_ops
    = Ok (queries, Some (query, [("test", "doc1", "__root__",
                                  Json.dumps (JDict [("b", JInt 2); ("a", JStr "x")]))])).
Proof.
  intros config put_ops.
  pose proof (default_text_field_embeds_whole_value config put_ops
                (or_intror eq_refl)) as Hrows.
  destruct (_prepare_batch_PUT_queries (Some config) put_ops)
    as [[queries [[query rows]|]]|]; [|done..].
  exists queries, query. by rewrite Hrows.
Defined.

(** ** Further properties: pending migrations *)

(** X26. Pending migrations keep their index: when the ledger holds the
    version [version], the entries [setup] goes through are the migrations
    of a higher index, each under its own index in the list, in order. *)
Theorem pending_migrations_keep_their_index {DB}
    (migrations : list (MigrationEntry DB)) (version : Z) :
  (-1 <= version)%Z ->
  let pending := enumerate_from (version + 1) (slice_from migrations (version + 1)) in
  Forall (fun '(v, entry) =>
            (version < v)%Z /\ migrations !! Z.to_nat v = Some entry) pending /\
  pending.*1 = (fun i => (version + 1 + Z.of_nat i)%Z)
               <$> seq 0 (length migrations - Z.to_nat (version + 1)).
Proof.
  intros Hversion pending. subst pending. unfold slice_from.
  destruct (Z.ltb_spec (version + 1) 0); [lia|].
  unfold enumerate_from. split.
  - apply Forall_forall. intros [v entry] Hin.
    apply elem_of_lookup_imap in Hin as (i & entry' & [= -> ->] & Hlookup).
    rewrite lookup_drop in Hlookup. split; [lia|]. rewrite <-Hlookup. f_equal. lia.
  - rewrite <-(length_drop migrations (Z.to_nat (version + 1))).
    generalize (drop (Z.to_nat (version + 1)) migrations). intros l.
    generalize (version + 1)%Z. intros start.
    change (imap (fun i x => ((start + Z.of_nat i)%Z, x)) l)
      with (imap (fun i x => ((start + Z.of_nat (0 + i))%Z, x)) l).
    generalize 0. induction l as [|x l IH]; intros n; csimpl; [done|].
    f_equal; [f_equal; lia|]. rewrite <-IH. f_equal. apply imap_ext.
    intros i y _. simpl. do 2 f_equal. lia.
Qed.

Lemma pending_migrations_keep_their_index_witness :
  (enumerate_from (1 + 1) (slice_from (MIGRATIONS (DB:=MemoryDb.t)) (1 + 1))).*1
  = [2; 3; 4]%Z.
Proof.
  by apply (pending_migrations_keep_their_index (MIGRATIONS (DB:=MemoryDb.t)) 1).
Defined.

(** ** Further properties: brace groups *)

(** The inner loop over a group without braces stops at the closing
    brace. *)
Lemma scan_fields fields rest chars tokens :
  Py.contains "{"%char fields = false ->
  Py.contains "}"%char fields = false ->
  tokenize_scan (fields +:+ String "}"%char rest) (InBrace 1 chars) "" tokens
  = tokenize_scan rest Outside "" (tokens ++ [chars +:+ fields +:+ "}"]).
Proof.
  revert chars. induction fields as [|a fields IH]; intros chars; simpl.
  - done.
  - repeat case_decide; try done. intros Hopen Hclose.
    rewrite IH by done. unfold push. by rewrite string_app_assoc.
Qed.

(** X27. A brace group is one token: in [{fields}rest] the text between
    the braces, dots and brackets included, is not split, and the tokens
    of the rest follow. *)
Theorem brace_group_is_one_token (fields rest : string) :
  Py.contains "{"%char fields = false ->
  Py.contains "}"%char fields = false ->
  _tokenize_path ("{" +:+ fields +:+ "}" +:+ rest)
  = ("{" +:+ fields +:+ "}") :: _tokenize_path rest.
Proof.
  intros Hopen Hclose. rewrite !tokenize_path_scan.
  change ("{" +:+ fields +:+ "}" +:+ rest)
    with (String "{"%char (fields +:+ String "}"%char rest)).
  change (tokenize_scan (String "{"%char (fields +:+ String "}"%char rest))
            Outside "" [])
    with (tokenize_scan (fields +:+ String "}"%char rest) (InBrace 1 "{") "" []).
  rewrite scan_fields by done.
  rewrite <-(app_nil_r ([] ++ ["{" +:+ fields +:+ "}"])).
  by rewrite scan_tokens_app.
Qed.

Lemma brace_group_is_one_token_witness :
  _tokenize_path "{name,address.city,tags[0]}" = ["{name,address.city,tags[0]}"].
Proof. by apply (brace_group_is_one_token "name,address.city,tags[0]" ""). Defined.

(** ** Further properties: reads before writes *)

Lemma statements_app events1 events2 :
  statements (events1 ++ events2) = statements events1 ++ statements events2.
Proof. apply omap_app. Qed.

Lemma statements_executed (queries : list Query) :
  statements ((fun '(statement, params) => Executed statement params) <$> queries)
  = queries.
Proof.
  induction queries as [|[statement params] queries IH]; [done|].
  csimpl. by rewrite <-IH at 2.
Qed.

Lemma not_select_app s t a rest :
  Py.lstrip s = String a rest -> a <> "S"%char -> is_select (s +:+ t) = false.
Proof.
  intros Hstrip Ha. unfold is_select, Py.startswith.
  rewrite lstrip_app by (by rewrite Hstrip). rewrite Hstrip.
  change (String a rest +:+ t) with (String a (rest +:+ t)). cbn [String.prefix].
  by destruct (ascii_dec "S" a) as [<-|].
Qed.

Lemma put_statements_write (config : option EmbeddingConfig)
    (put_ops : list (nat * PutOp)) :
  match _prepare_batch_PUT_queries config put_ops with
  | Ok (queries, request) =>
      Forall (fun q : Query => is_select q.1 = false) queries /\
      match request with
      | Some (query, _) => is_select query = false
      | None => True
      end
  | Raise _ => True
  end.
Proof.
  unfold _prepare_batch_PUT_queries.
  assert (Forall (fun q : Query => is_select q.1 = false)
            match deletes_of (Dict.values (dedup_put_ops put_ops)) with
            | [] => []
            | _ :: _ => delete_queries (deletes_of (Dict.values (dedup_put_ops put_ops)))
            end) as Hdeletes.
  { destruct (deletes_of _); [done|]. unfold delete_queries.
    apply Forall_fmap, Forall_forall. intros [namespace keys] _. unfold compose.
    cbn [fst]. by eapply not_select_app. }
  destruct (inserts_of _) as [|insert inserts]; [done|].
  destruct (match config with Some _ => _ | None => _ end) as [rows|]; [|done].
  cbn [mbind result_bind].
  assert (Forall (fun q : Query => is_select q.1 = false)
            (match deletes_of (Dict.values (dedup_put_ops put_ops)) with
             | [] => []
             | _ :: _ => delete_queries (deletes_of (Dict.values (dedup_put_ops put_ops)))
             end ++ [upsert_query (insert :: inserts)])) as Hqueries.
  { apply Forall_app. split; [done|]. constructor; [|done].
    unfold upsert_query. cbn [fst]. by eapply not_select_app. }
  destruct rows as [|row rows]; [done|]. split; [done|].
  by eapply not_select_app.
Qed.

Lemma search_queries_length config idx (search_ops : list (nat * SearchOp))
    queries requests :
  search_queries_from config idx search_ops = Ok (queries, requests) ->
  length queries = length search_ops.
Proof.
  revert idx queries requests.
  induction search_ops as [|[i op] rest IH]; intros idx queries requests; simpl.
  { by intros [= <- <-]. }
  destruct (search_query config op) as [[q vq]|] eqn:Hq; simpl; [|done].
  destruct (search_queries_from config (S idx) rest) as [[qs reqs]|] eqn:Hrest;
    simpl; [|done].
  intros [= <- <-]. simpl. f_equal. by eapply IH.
Qed.

Lemma set_query_vector_length queries idx embedding :
  length (set_query_vector queries idx embedding) = length queries.
Proof.
  unfold set_query_vector. destruct (queries !! idx) as [[query params]|]; [|done].
  apply length_insert.
Qed.

Lemma with_vectors_length (queries : list Query)
    (vectors : list (nat * string * Vector)) :
  length (foldl (fun queries '((idx, _), embedding) =>
                   set_query_vector queries idx embedding) queries vectors)
  = length queries.
Proof.
  revert queries. induction vectors as [|[[idx text] embedding] vectors IH];
    intros queries; simpl; [done|].
  by rewrite IH, set_query_vector_length.
Qed.

Lemma with_vectors_select (queries : list Query)
    (vectors : list (nat * string * Vector)) :
  Forall (fun q : Query => is_select q.1 = true) queries ->
  Forall (fun q : Query => is_select q.1 = true)
         (foldl (fun queries '((idx, _), embedding) =>
                   set_query_vector queries idx embedding) queries vectors).
Proof.
  revert queries. induction vectors as [|[[idx text] embedding] vectors IH];
    intros queries Hall; simpl; [done|].
  by apply IH, set_query_vector_select.
Qed.

Lemma get_statements_select get_ops :
  Forall (fun q : Query => is_select q.1 = true) (get_statements get_ops).
Proof.
  unfold get_statements, _get_batch_GET_ops_queries.
  rewrite <-list_fmap_compose. apply Forall_fmap, Forall_forall.
  intros [namespace items] _. unfold compose. cbn [get_query fst].
  by apply is_select_app.
Qed.

Lemma search_statements_select config search_ops :
  Forall (fun q : Query => is_select q.1 = true) (search_statements config search_ops).
Proof.
  unfold search_statements, _prepare_batch_search_queries.
  destruct (search_queries_from config 0 search_ops) as [[queries requests]|] eqn:Hcompile;
    [|done].
  apply search_queries_select in Hcompile.
  destruct requests as [|request requests], config as [config|]; try done.
  by apply with_vectors_select.
Qed.

Lemma list_statements_select list_ops :
  Forall (fun q : Query => is_select q.1 = true)
         (_get_batch_list_namespaces_queries list_ops).
Proof.
  apply Forall_fmap, Forall_forall. intros [idx op] _. apply list_query_is_select.
Qed.

Lemma put_statements_not_select config put_ops :
  Forall (fun q : Query => is_select q.1 = false) (put_statements config put_ops).
Proof.
  unfold put_statements.
  pose proof (put_statements_write config put_ops) as Hwrite.
  destruct (_prepare_batch_PUT_queries config put_ops) as [[queries request]|]; [|done].
  destruct Hwrite as [Hqueries Hrequest]. apply Forall_app. split; [done|].
  destruct request as [[query rows]|], config as [config|]; try done.
  apply Forall_fmap, Forall_forall.
  by intros [[[[namespace key] field] text] vector] _.
Qed.

Section statement_order.
Context {DB : Type} (rt : Runtime DB).
Implicit Types (st : State DB).

Lemma bind_sends {A B} (m : M DB A) (k : A -> M DB B)
    (queries1 queries2 : list Query) st r st' :
  (forall r1 st1, m st = (r1, st1) -> sends queries1 st r1 st1) ->
  (forall a st1 r2 st2,
     m st = (Ok a, st1) -> k a st1 = (r2, st2) -> sends queries2 st1 r2 st2) ->
  bind m k st = (r, st') -> sends (queries1 ++ queries2) st r st'.
Proof.
  intros Hm Hk [(a & st1 & Hfirst & Hrest)|(e & Hfirst & ->)]%bind_inv.
  - destruct (Hm _ _ Hfirst) as (Hself1 & events1 & Hlog1 & _ & Hall1).
    destruct (Hk _ _ _ _ Hfirst Hrest) as (Hself2 & events2 & Hlog2 & Hprefix2 & Hall2).
    split; [congruence|]. exists (events1 ++ events2).
    rewrite statements_app, (Hall1 a eq_refl). split_and!.
    + by rewrite Hlog2, Hlog1, (assoc_L (++)).
    + by apply prefix_app.
    + intros b Hb. by rewrite (Hall2 b Hb).
  - destruct (Hm _ _ Hfirst) as (Hself1 & events1 & Hlog1 & Hprefix1 & _).
    split; [done|]. exists events1. split_and!; [done| |done].
    by apply prefix_app_r.
Qed.

Lemma ret_sends {A} (a : A) st r st' :
  ret a st = (r, st') -> sends [] st r st'.
Proof.
  intros [= <- <-]. split; [done|]. exists []. by rewrite app_nil_r.
Qed.

Lemma execute_sends {A} query params (k : list Row -> M DB A) st r st' :
  (forall rows st1, exists a, k rows st1 = (Ok a, st1)) ->
  bind (cur_execute rt query params) k st = (r, st') ->
  sends [(query, params)] st r st'.
Proof.
  intros Hk [(rows & st1 & Hexec & Hrest)|(e & Hexec & ->)]%bind_inv.
  - destruct (Hk rows st1) as [a Ha]. rewrite Ha in Hrest. injection Hrest as <- <-.
    apply cur_execute_emitted in Hexec as [[Hself Hlog] _].
    split; [done|]. by exists [Executed query params].
  - apply cur_execute_emitted in Hexec as [[Hself Hlog] _].
    split; [done|]. by exists [Executed query params].
Qed.

Lemma for_each_sends {A X} (statement : X -> Query) (body : A -> X -> M DB A)
    xs acc st r st' :
  (forall acc x st r st',
     body acc x st = (r, st') -> sends [statement x] st r st') ->
  for_each xs acc body st = (r, st') -> sends (statement <$> xs) st r st'.
Proof.
  intros Hbody. revert acc st r st'.
  induction xs as [|x xs IH]; intros acc st r st'; cbn [for_each].
  { apply ret_sends. }
  change (statement <$> x :: xs) with ([statement x] ++ (statement <$> xs)).
  apply bind_sends.
  - intros r1 st1. apply Hbody.
  - intros acc' st1 r2 st2 _. apply IH.
Qed.

Lemma get_phase_sends get_ops results st r st' :
  _batch_get_ops rt get_ops results st = (r, st') ->
  sends (get_statements get_ops) st r st'.
Proof.
  unfold _batch_get_ops, get_statements. apply for_each_sends.
  intros acc [[[query params] namespace] items] st0 r0 st0'.
  apply execute_sends. intros rows st1. by eexists.
Qed.

Lemma list_phase_sends list_ops results st r st' :
  _batch_list_namespaces_ops rt list_ops results st = (r, st') ->
  sends (_get_batch_list_namespaces_queries list_ops) st r st'.
Proof.
  unfold _batch_list_namespaces_ops. intros Hrun.
  apply (for_each_sends fst) in Hrun.
  - rewrite fst_zip in Hrun; [done|].
    unfold _get_batch_list_namespaces_queries. by rewrite length_fmap.
  - intros acc [[query params] [idx op]] st0 r0 st0'.
    apply execute_sends. intros rows st1. by eexists.
Qed.

Lemma search_phase_sends search_ops results st r st' :
  _batch_search_ops rt search_ops results st = (r, st') ->
  sends (search_statements (embedding_config (self st)) search_ops) st r st'.
Proof.
  unfold _batch_search_ops, search_statements. rewrite bind_get_self, bind_lift.
  unfold _prepare_batch_search_queries.
  destruct (search_queries_from _ 0 search_ops) as [[queries requests]|] eqn:Hcompile;
    [|intros [= <- <-]; split; [done|]; exists []; by rewrite app_nil_r].
  apply search_queries_length in Hcompile.
  set (filled :=
         match requests, embedding_config (self st) with
         | _ :: _, Some config =>
             foldl (fun queries '((idx, _), embedding) =>
                      set_query_vector queries idx embedding)
                   queries (zip requests (embed_documents config (requests.*2)))
         | _, _ => queries
         end).
  assert (length filled = length search_ops) as Hlength.
  { unfold filled.
    destruct requests as [|request requests], (embedding_config (self st));
      try done.
    by rewrite with_vectors_length. }
  intros Hrun. rewrite <-(app_nil_l filled). revert Hrun. apply bind_sends.
  - intros r1 st1 Hembed. unfold filled.
    destruct requests as [|request requests], (embedding_config (self st));
      try (by eapply ret_sends).
    injection Hembed as <- <-. split; [done|]. by eexists [_].
  - intros queries' st1 r2 st2 Hembed Hloop.
    assert (queries' = filled) as ->.
    { unfold filled.
      destruct requests as [|request requests], (embedding_config (self st));
        by injection Hembed as <- <-. }
    apply (for_each_sends snd) in Hloop.
    + rewrite snd_zip in Hloop; [done|]. by rewrite Hlength.
    + intros acc [[idx op] [query params]] st0 r0 st0'.
      apply execute_sends. intros rows st3. by eexists.
Qed.

Lemma put_phase_sends put_ops st r st' :
  _batch_put_ops rt put_ops st = (r, st') ->
  sends (put_statements (embedding_config (self st)) put_ops) st r st'.
Proof.
  unfold _batch_put_ops, put_statements. rewrite bind_get_self, bind_lift.
  destruct (_prepare_batch_PUT_queries _ _) as [[queries request]|];
    [|intros [= <- <-]; split; [done|]; exists []; by rewrite app_nil_r].
  intros Hrun. rewrite <-(app_nil_l (queries ++ _)). revert Hrun. apply bind_sends.
  - intros r1 st1 Hembed.
    destruct request as [[query rows]|]; [|by eapply ret_sends].
    destruct (embedding_config (self st)) as [config|].
    + injection Hembed as <- <-. split; [done|]. by eexists [_].
    + injection Hembed as <- <-. split; [done|]. exists []. by rewrite app_nil_r.
  - intros queries' st1 r2 st2 Hembed Hloop.
    assert (queries'
            = queries
              ++ match request, embedding_config (self st) with
                 | Some (query, rows), Some config =>
                     (fun '((namespace, key, field, _), vector) =>
                        (query, [PStr namespace; PStr key; PStr field; PVector vector]))
                     <$> zip rows (embed_documents config (rows.*2))
                 | _, _ => []
                 end) as ->.
    { destruct request as [[query rows]|];
        [|injection Hembed as <- <-; by rewrite app_nil_r].
      destruct (embedding_config (self st)) as [config|]; [|done].
      by injection Hembed as <- <-. }
    apply (for_each_sends id) in Hloop.
    + by rewrite list_fmap_id in Hloop.
    + intros [] [query params] st0 r0 st0'.
      apply execute_sends. intros rows st3. by eexists.
Qed.

(** X28. Reads come before writes: whatever the order of the operations
    of a batch, the statements it sends are, in this order, the SELECT
    statements compiled for its Gets, one for each namespace, those
    compiled for its Searches, with the vectors of the query texts in
    place, those compiled for its ListNamespaces, and then the DELETE and
    INSERT statements compiled for its Puts, followed by the statement of
    the vectors once for each embedded fragment.  A batch that returns
    has sent all of them; a batch that raises has sent a prefix of them. *)
Theorem reads_before_writes (ops : list Op) st :
  let config := embedding_config (self st) in
  let reads :=
    get_statements (get_ops_of (indexed ops))
    ++ search_statements config (search_ops_of (indexed ops))
    ++ _get_batch_list_namespaces_queries (list_ops_of (indexed ops)) in
  let writes := put_statements config (put_ops_of (indexed ops)) in
  Forall (fun q : Query => is_select q.1 = true) reads /\
  Forall (fun q : Query => is_select q.1 = false) writes /\
  exists events,
    log (batch rt ops st).2 = log st ++ events /\
    statements events `prefix_of` reads ++ writes /\
    (forall results,
       (batch rt ops st).1 = Ok results -> statements events = reads ++ writes).
Proof.
  intros config reads writes. split_and!.
  { repeat apply Forall_app_2.
    - apply get_statements_select.
    - apply search_statements_select.
    - apply list_statements_select. }
  { apply put_statements_not_select. }
  assert (sends (reads ++ writes) st (batch rt ops st).1 (batch rt ops st).2)
    as (_ & events & Hlog & Hprefix & Hall); [|by exists events].
  rewrite batch_is_phases. unfold batch_phases.
  destruct (bind _ _ st) as [r st'] eqn:Hbatch. cbn [fst snd].
  revert Hbatch. unfold reads, writes. rewrite <-!(assoc_L (++)).
  apply bind_sends; [intros r1 st1; apply get_phase_sends|].
  intros results1 st1 r2 st2 Hget%get_phase_sends. destruct Hget as [Hself1 _].
  apply bind_sends.
  { intros r1 st1'. unfold config. rewrite <-Hself1. apply search_phase_sends. }
  intros results2 st3 r3 st4 Hsearch%search_phase_sends.
  destruct Hsearch as [Hself2 _].
  apply bind_sends; [intros r1 st1'; apply list_phase_sends|].
  intros results3 st5 r4 st6 Hlist%list_phase_sends. destruct Hlist as [Hself3 _].
  rewrite <-(app_nil_r (put_statements _ _)).
  apply bind_sends; [|intros [] st7 r5 st8 _; apply ret_sends].
  intros r1 st1'. unfold config. rewrite <-Hself1, <-Hself2, <-Hself3.
  apply put_phase_sends.
Qed.

End statement_order.

(** ** Further properties: first setup *)

Section first_setup.
Context {DB : Type} (rt : Runtime DB).
Implicit Types (st : State DB).

Lemma applied_migration v sql vector_migration st db1 db2 rows1 rows2 :
  execute rt (db st) sql [] = (db1, Ok rows1) ->
  execute rt db1 LEDGER_INSERT_SQL [PInt v] = (db2, Ok rows2) ->
  run_migration rt v sql vector_migration st
  = (Ok tt, {| self := self st; db := db2;
               log := (log st ++ [Executed sql []])
                      ++ [Executed LEDGER_INSERT_SQL [PInt v]] |}).
Proof.
  intros Hsql Hinsert. unfold run_migration, try_except, bind, cur_execute.
  rewrite Hsql. cbn. by rewrite Hinsert.
Qed.

Lemma guarded_step_without_config v (m : Migration DB) st :
  condition m = Some check_vector_available_fn ->
  embedding_config (self st) = None ->
  migration_step rt v (MigrationObj m) st = (Ok tt, st).
Proof.
  intros Hcondition Hconfig. unfold migration_step. rewrite Hcondition.
  cbn [call_condition]. unfold check_vector_available.
  unfold bind at 1. rewrite bind_get_self, Hconfig. done.
Qed.

(** X29. The first setup of a store without embedding configuration: on
    a database without ledger that accepts the statements, [setup] creates
    the ledger, runs the two migrations of the [store] table, records the
    versions 0 and 1, and goes past the three vector migrations without
    sending anything, not even the probe for the extension. *)
Theorem first_setup_without_embeddings st db1 db2 db3 db4 db5 db6
    rows2 rows3 rows4 rows5 rows6 :
  embedding_config (self st) = None ->
  execute rt (db st) LEDGER_SELECT_SQL [] = (db1, Raise UndefinedTable) ->
  execute rt db1 LEDGER_CREATE_SQL [] = (db2, Ok rows2) ->
  execute rt db2 MIGRATION_0_SQL [] = (db3, Ok rows3) ->
  execute rt db3 LEDGER_INSERT_SQL [PInt 0] = (db4, Ok rows4) ->
  execute rt db4 MIGRATION_1_SQL [] = (db5, Ok rows5) ->
  execute rt db5 LEDGER_INSERT_SQL [PInt 1] = (db6, Ok rows6) ->
  setup rt MIGRATIONS st
  = (Ok tt,
     {| self := self st; db := db6;
        log := log st ++ [Executed LEDGER_SELECT_SQL [];
                          Executed LEDGER_CREATE_SQL [];
                          Executed MIGRATION_0_SQL [];
                          Executed LEDGER_INSERT_SQL [PInt 0];
                          Executed MIGRATION_1_SQL [];
                          Executed LEDGER_INSERT_SQL [PInt 1]] |}).
Proof.
  intros Hconfig Hselect Hcreate Hm0 Hi0 Hm1 Hi1. unfold setup.
  assert (read_version rt st
          = (Ok (-1)%Z,
             {| self := self st; db := db2;
                log := (log st ++ [Executed LEDGER_SELECT_SQL []])
                       ++ [Executed LEDGER_CREATE_SQL []] |})) as Hread.
  { unfold read_version, try_except, bind, cur_execute.
    rewrite Hselect. cbn. by rewrite Hcreate. }
  rewrite (bind_ok _ _ _ _ _ Hread).
  unfold run_pending, run_steps, MIGRATIONS.
  change (enumerate_from (-1 + 1) (slice_from ?l (-1 + 1)))
    with (imap (fun i x => ((0 + Z.of_nat i)%Z, x)) l).
  cbn [imap for_each compose]. cbn [migration_step].
  erewrite bind_ok by (eapply applied_migration; [exact Hm0|exact Hi0]).
  erewrite bind_ok by (eapply applied_migration; [exact Hm1|exact Hi1]).
  do 3 (erewrite bind_ok by (by apply guarded_step_without_config)).
  unfold ret. cbn [self db log]. by rewrite <-!(assoc_L (++)).
Qed.

End first_setup.

Lemma first_setup_without_embeddings_witness :
  (setup MemoryDb.runtime MIGRATIONS (Sample.state None)).1 = Ok tt /\
  MemoryDb.ledger (db (setup MemoryDb.runtime MIGRATIONS (Sample.state None)).2)
  = Some [0; 1]%Z.
Proof.
  by rewrite (first_setup_without_embeddings MemoryDb.runtime (Sample.state None)
                _ _ _ _ _ _ _ _ _ _ _ eq_refl eq_refl eq_refl eq_refl eq_refl
                eq_refl eq_refl).
Defined.
